(** * Perplexica copilot pipeline: performance layer and orchestration

    A shallow embedding of
    - [src/lib/performance/smartTimeout.ts]  (SmartTimeout and SearchCache),
    - [src/lib/performance/requestDeduplicator.ts],
    - [src/lib/performance/parallelProcessor.ts],
    - [src/lib/search/copilotSearchAgent.ts],
    followed by the properties of the specification stated over it.

    Conventions.  Wall-clock readings ([Date.now()]) are integers in
    milliseconds and are passed explicitly as [now].  A JS [Map] is a
    [gmap]; a JS [Set], which iterates in insertion order, is a
    duplicate-free list.  A promise is a handle (a natural number) into
    the table of the component that created it; the event loop is a list
    of events, each handled by one step function. *)

From Stdlib Require Import ZArith QArith Qround Qminmax Lia.
From stdpp Require Import gmap strings list fin_maps sorting pretty.

Local Open Scope Z_scope.

(** ** Promises *)

(** How a promise ends. *)
Inductive outcome :=
| Resolved (value : string)
| Rejected (error : string).

#[global] Instance outcome_eq_dec : EqDecision outcome.
Proof. solve_decision. Defined.

(** ** SearchCache (second part of smartTimeout.ts) *)

Module SearchCache.
Section WithValue.
Context {T : Type}.

Record CacheEntry := mkEntry {
  data : T;
  timestamp : Z;
  expiresAt : Z;
  hits : Z;
}.

Record CacheConfig := mkConfig {
  maxSize : nat;
  defaultTTL : Z;
  maxMemoryUsage : Z;
}.

(** [cache] is the [Map<string, CacheEntry>], [accessOrder] the
    [Set<string>]: first element = least recently used. *)
Record t := mkCache {
  cache : gmap string CacheEntry;
  accessOrder : list string;
  config : CacheConfig;
}.

(** [x || d] on an optional number: [undefined] and [0] give [d]. *)
Definition or_default_nat (x : option nat) (d : nat) : nat :=
  match x with
  | Some (S n) => S n
  | _ => d
  end.

Definition or_default_Z (x : option Z) (d : Z) : Z :=
  match x with
  | Some 0 | None => d
  | Some z => z
  end.

(** The constructor. *)
Definition new (maxSize' : option nat) (defaultTTL' maxMemoryUsage' : option Z) : t :=
  {| cache := ∅;
     accessOrder := [];
     config := {| maxSize := or_default_nat maxSize' 1000;
                  defaultTTL := or_default_Z defaultTTL' (30 * 60 * 1000);
                  maxMemoryUsage := or_default_Z maxMemoryUsage' (100 * 1024 * 1024) |} |}.

(** [Set.prototype.delete] and [Set.prototype.add]. *)
Definition set_delete (key : string) (s : list string) : list string :=
  filter (λ k, k ≠ key) s.

Definition set_add (key : string) (s : list string) : list string :=
  if decide (key ∈ s) then s else s ++ [key].

(** [Date.now() > entry.expiresAt] *)
Definition isExpired (now : Z) (entry : CacheEntry) : bool :=
  bool_decide (expiresAt entry < now).

(** A string is truthy when it is not empty.  Keys are SHA-256 hex
    digests ([generateKey]), hence 64 characters long. *)
Definition truthy (s : string) : bool := bool_decide (s ≠ EmptyString).

Definition evictLRU (c : t) : t :=
  match head (accessOrder c) with
  | Some oldestKey =>
      if truthy oldestKey
      then {| cache := delete oldestKey (cache c);
              accessOrder := set_delete oldestKey (accessOrder c);
              config := config c |}
      else c
  | None => c
  end.

Definition updateAccessOrder (key : string) (c : t) : t :=
  {| cache := cache c;
     accessOrder := set_add key (set_delete key (accessOrder c));
     config := config c |}.

(** [while (this.cache.size >= this.config.maxSize) this.evictLRU()]
    with a bound on the number of iterations; [None]: the bound was
    reached with the condition still true. *)
Fixpoint evict_while (fuel : nat) (c : t) : option t :=
  if decide (maxSize (config c) ≤ size (cache c))%nat then
    match fuel with
    | O => None
    | S fuel' => evict_while fuel' (evictLRU c)
    end
  else Some c.

(** [set] on the key computed by [generateKey]; [ttl = None] is the
    default parameter [this.config.defaultTTL]. *)
Definition set_fuel (fuel : nat) (c : t) (now : Z) (key : string) (d : T)
    (ttl : option Z) : option t :=
  let c1 :=
    if decide (is_Some (cache c !! key))
    then {| cache := cache c;
            accessOrder := set_delete key (accessOrder c);
            config := config c |}
    else c in
  match evict_while fuel c1 with
  | None => None
  | Some c2 =>
      let entry := {| data := d; timestamp := now;
                      expiresAt := now + default (defaultTTL (config c)) ttl;
                      hits := 0 |} in
      Some (updateAccessOrder key
              {| cache := <[key := entry]> (cache c2);
                 accessOrder := accessOrder c2;
                 config := config c2 |})
  end.

(** Every iteration of the loop that changes the state removes the
    first key of [accessOrder], so [length accessOrder + 1] iterations
    decide whether the loop exits (lemmas [evict_while_more_fuel] and
    [evict_while_stuck] below).  [None] is a call that never returns. *)
Definition set (c : t) (now : Z) (key : string) (d : T) (ttl : option Z) : option t :=
  set_fuel (S (length (accessOrder c))) c now key d ttl.

Definition get (c : t) (now : Z) (key : string) : option T * t :=
  match cache c !! key with
  | None => (None, c)
  | Some entry =>
      if isExpired now entry
      then (None, {| cache := delete key (cache c);
                     accessOrder := set_delete key (accessOrder c);
                     config := config c |})
      else (Some (data entry),
            updateAccessOrder key
              {| cache := <[key := {| data := data entry;
                                      timestamp := timestamp entry;
                                      expiresAt := expiresAt entry;
                                      hits := hits entry + 1 |}]> (cache c);
                 accessOrder := accessOrder c;
                 config := config c |})
  end.

Definition has (c : t) (now : Z) (key : string) : bool * t :=
  match cache c !! key with
  | None => (false, c)
  | Some entry =>
      if isExpired now entry
      then (false, {| cache := delete key (cache c);
                      accessOrder := set_delete key (accessOrder c);
                      config := config c |})
      else (true, c)
  end.

Definition delete_key (c : t) (key : string) : bool * t :=
  match cache c !! key with
  | Some _ => (true, {| cache := delete key (cache c);
                        accessOrder := set_delete key (accessOrder c);
                        config := config c |})
  | None => (false, c)
  end.

Definition clear (c : t) : t :=
  {| cache := ∅; accessOrder := []; config := config c |}.

(** [cleanup]: drop every expired entry, return how many there were. *)
Definition cleanup (c : t) (now : Z) : nat * t :=
  let expired : gmap string CacheEntry :=
    filter (λ kv, isExpired now kv.2 = true) (cache c) in
  (size expired,
   {| cache := filter (λ kv, isExpired now kv.2 = false) (cache c);
      accessOrder := filter (λ k, expired !! k = None) (accessOrder c);
      config := config c |}).

(** The representation invariant of the class: [accessOrder] lists
    exactly the keys of [cache], each once, and every key is a digest. *)
Definition wf (c : t) : Prop :=
  NoDup (accessOrder c) ∧
  (∀ k, k ∈ accessOrder c ↔ is_Some (cache c !! k)) ∧
  EmptyString ∉ accessOrder c.

(** The state inside [set], between the removal of [key] from
    [accessOrder] and the insertion: [δ] is 1 when [key] is still in
    [cache]. *)
Definition set_inv (key : string) (δ : nat) (c : t) : Prop :=
  NoDup (accessOrder c) ∧ EmptyString ∉ accessOrder c ∧ key ∉ accessOrder c ∧
  (∀ k, k ∈ accessOrder c → is_Some (cache c !! k)) ∧
  (∀ k, is_Some (cache c !! k) → k ∈ accessOrder c ∨ k = key) ∧
  size (cache c) = (length (accessOrder c) + δ)%nat.

(** The sentence of the specification on expiry, as it is written:
    the stored value strictly before [expiresAt], absent (and removed)
    from [expiresAt] on. *)
Definition get_as_specified (c : t) (now : Z) (key : string) : Prop :=
  ∀ e, cache c !! key = Some e →
    (now < expiresAt e → (get c now key).1 = Some (data e)) ∧
    (expiresAt e ≤ now →
       (get c now key).1 = None ∧ cache (get c now key).2 !! key = None).

(** Least and most recently used key. *)
Definition lru (c : t) : option string := head (accessOrder c).
Definition mru (c : t) : option string := last (accessOrder c).

(** A consistent cache within its capacity. *)
Definition bounded (c : t) : Prop :=
  wf c ∧ (size (cache c) ≤ maxSize (config c))%nat.

End WithValue.
Arguments CacheEntry : clear implicits.
Arguments t : clear implicits.

(** A cache of answers holding one entry, stored at time 0 under key
    ["k"] with a time to live of 1000 ms. *)
Definition one_entry : t string :=
  {| cache := {[ "k" := mkEntry "v" 0 1000 0 ]};
     accessOrder := ["k"];
     config := config (new (T := string) None None None) |}.

(** A full cache of capacity two: ["a"] was used before ["b"]. *)
Definition full_pair : t string :=
  {| cache := {[ "a" := mkEntry "va" 0 1000 0; "b" := mkEntry "vb" 5 500 0 ]};
     accessOrder := ["a"; "b"];
     config := mkConfig 2 1000 (100 * 1024 * 1024) |}.

End SearchCache.

(** ** Array helpers *)

(** [Array.prototype.sort(cmp)]: the sort is stable (ECMAScript 2019).
    [before a b] is [cmp(a, b) <= 0].  Insertion from the right keeps
    the input order among elements that compare equal. *)
Section Sort.
Context {A : Type} (before : A → A → bool).

Fixpoint sort_insert (x : A) (l : list A) : list A :=
  match l with
  | [] => [x]
  | y :: l' => if before x y then x :: y :: l' else y :: sort_insert x l'
  end.

Definition js_sort (l : list A) : list A := foldr sort_insert [] l.

End Sort.

(** [l.slice(-n)]: the last [n] elements; [slice(-0)] is [slice(0)],
    the whole array. *)
Definition slice_last {A} (n : nat) (l : list A) : list A :=
  match n with
  | O => l
  | _ => drop (length l - n) l
  end.

(** ** SmartTimeout (first part of smartTimeout.ts) *)

Module SmartTimeout.

Record TimeoutConfig := mkConfig {
  baseTimeout : Z;
  maxTimeout : Z;
  minTimeout : Z;
  adaptiveEnabled : bool;
  historySize : nat;
}.

Record RequestMetrics := mkMetrics {
  duration : Z;
  timestamp : Z;
  success : bool;
  requestType : string;
}.

Record t := mkState {
  config : TimeoutConfig;
  metrics : gmap string (list RequestMetrics);
  currentTimeouts : gmap string Z;
}.

(** The defaults of the constructor and the configuration of
    [SearchTimeoutManager]. *)
Definition default_config : TimeoutConfig :=
  {| baseTimeout := 30000; maxTimeout := 120000; minTimeout := 5000;
     adaptiveEnabled := true; historySize := 100 |}.

Definition search_config : TimeoutConfig :=
  {| baseTimeout := 30000; maxTimeout := 90000; minTimeout := 10000;
     adaptiveEnabled := true; historySize := 50 |}.

(** [history.filter(m => m.success).slice(-Math.min(20, historySize))] *)
Definition recentSuccessful (cfg : TimeoutConfig) (history : list RequestMetrics)
    : list RequestMetrics :=
  slice_last (Nat.min 20 (historySize cfg)) (filter (λ m, success m = true) history).

Definition sum_list (l : list Z) : Z := foldr Z.add 0 l.

(** [Math.max(...durations)] of a non-empty array ([d] is its first
    element). *)
Definition max_list (d : Z) (l : list Z) : Z := foldr Z.max d l.

(** [Math.ceil(durations.length * 0.95) - 1].  The source computes the
    product in double precision; for every length up to 100000 the
    rounded product has the ceiling of the exact one. *)
Definition p95Index (len : nat) : Z :=
  Qceiling (inject_Z (Z.of_nat len) * (95 # 100)) - 1.

(** Durations are differences of [Date.now()] readings: integers.  The
    average and the buffer are fractions, computed here exactly. *)
Definition calculateAdaptiveTimeout (cfg : TimeoutConfig)
    (history : list RequestMetrics) : Z :=
  match history with
  | [] => baseTimeout cfg
  | _ =>
    match map duration (recentSuccessful cfg history) with
    | [] => baseTimeout cfg
    | (d0 :: _) as durations =>
        let averageDuration : Q :=
          (inject_Z (sum_list durations) / inject_Z (Z.of_nat (length durations)))%Q in
        let maxDuration := max_list d0 durations in
        let sorted := js_sort Z.leb durations in
        let p95Duration :=
          match sorted !! Z.to_nat (p95Index (length durations)) with
          | Some 0 | None => maxDuration          (* [durations[i] || maxDuration] *)
          | Some d => d
          end in
        let buffer : Q := Qmax (averageDuration * (5 # 10)) (inject_Z 2000) in
        let adaptiveTimeout := Qceiling (inject_Z p95Duration + buffer) in
        Z.min (maxTimeout cfg) (Z.max (minTimeout cfg) adaptiveTimeout)
    end
  end.

(** [this.metrics.get(requestType) || []] *)
Definition history_of (s : t) (requestType : string) : list RequestMetrics :=
  default [] (metrics s !! requestType).

(** [history.splice(0, history.length - historySize)] when the history
    is longer than [historySize]. *)
Definition trim_history (cfg : TimeoutConfig) (history : list RequestMetrics)
    : list RequestMetrics :=
  if decide (historySize cfg < length history)%nat
  then drop (length history - historySize cfg) history
  else history.

Definition recordMetrics (s : t) (now : Z) (type : string) (d : Z) (ok : bool) : t :=
  let history :=
    trim_history (config s)
      (history_of s type ++
       [{| duration := d; timestamp := now; success := ok; requestType := type |}]) in
  {| config := config s;
     metrics := <[type := history]> (metrics s);
     currentTimeouts :=
       if adaptiveEnabled (config s) && bool_decide (length history `mod` 10 = 0)%nat
       then <[type := calculateAdaptiveTimeout (config s) history]> (currentTimeouts s)
       else currentTimeouts s |}.

Definition getTimeoutForType (s : t) (type : string) : Z * t :=
  if negb (adaptiveEnabled (config s)) then (baseTimeout (config s), s)
  else
    match currentTimeouts s !! type with
    | Some 0 | None =>
        let adaptiveTimeout := calculateAdaptiveTimeout (config s) (history_of s type) in
        (adaptiveTimeout,
         {| config := config s; metrics := metrics s;
            currentTimeouts := <[type := adaptiveTimeout]> (currentTimeouts s) |})
    | Some currentTimeout => (currentTimeout, s)
    end.

(** The 95th percentile by nearest rank: the element of rank
    [ceil(0.95 n)] of the sorted sample. *)
Definition percentile95 (sample : list Z) : option Z :=
  js_sort Z.leb sample !! Z.to_nat (p95Index (length sample)).

Definition average (sample : list Z) : Q :=
  (inject_Z (sum_list sample) / inject_Z (Z.of_nat (length sample)))%Q.

Definition clamp (lo hi x : Z) : Z := Z.min hi (Z.max lo x).

(** The sentence of the specification on the adaptive timeout, as it
    is written. *)
Definition adaptive_timeout_as_specified (cfg : TimeoutConfig)
    (history : list RequestMetrics) : Prop :=
  let sample := map duration (recentSuccessful cfg history) in
  let timeout := calculateAdaptiveTimeout cfg history in
  (sample = [] → timeout = baseTimeout cfg) ∧
  (sample ≠ [] →
     ∃ p95 buffer,
       percentile95 sample = Some p95 ∧
       (Qmax (average sample * (5 # 10)) (inject_Z 2000) <= buffer)%Q ∧
       timeout = clamp (minTimeout cfg) (maxTimeout cfg)
                   (Qceiling (inject_Z p95 + buffer)) ∧
       p95 + 2000 ≤ timeout ∧
       minTimeout cfg ≤ timeout ≤ maxTimeout cfg).

(** *** Running an operation under a timeout *)

(** A manager without history. *)
Definition init (cfg : TimeoutConfig) : t :=
  {| config := cfg; metrics := ∅; currentTimeouts := ∅ |}.

(** The errors that [executeWithTimeout] can throw: a [TimeoutError]
    carrying the timeout, or whatever the operation rejected with. *)
Inductive failure :=
| TimeoutError (timeout : Z)
| OtherError (e : string).

(** What one call of [requestFn] does in the race against the timer:
    it resolves or rejects [d] ms after the start, or the timer rejects
    first. *)
Inductive attempt :=
| Succeeds (v : string) (d : Z)
| Throws (e : failure) (d : Z)
| TimerWins (d : Z).

Definition elapsed (a : attempt) : Z :=
  match a with
  | Succeeds _ d | Throws _ d | TimerWins d => d
  end.

(** The value returned or the error thrown under [timeout]:
    [isTimeout = duration >= timeout - 100] turns any error into a
    [TimeoutError]; otherwise the error is rethrown, and the error of
    the timer is a [TimeoutError] already. *)
Definition classify (timeout : Z) (a : attempt) : string + failure :=
  match a with
  | Succeeds v _ => inl v
  | Throws e d =>
      if bool_decide (timeout - 100 ≤ d) then inr (TimeoutError timeout) else inr e
  | TimerWins _ => inr (TimeoutError timeout)
  end.

Definition succeeded (a : attempt) : bool :=
  match a with
  | Succeeds _ _ => true
  | _ => false
  end.

(** [executeWithTimeout(requestType, requestFn, customTimeout)] started
    at time [start]; [a] is what the call of [requestFn] does. *)
Definition executeWithTimeout (s : t) (start : Z) (type : string) (a : attempt)
    (customTimeout : option Z) : (string + failure) * t :=
  let '(timeout, s1) :=
    match customTimeout with
    | Some 0 | None => getTimeoutForType s type
    | Some custom => (custom, s)
    end in
  (classify timeout a,
   recordMetrics s1 (start + elapsed a) type (elapsed a) (succeeded a)).

(** [executeWithProgressiveTimeout]: the [for] loop over [timeouts];
    [behaviour i] is what the [i]-th call of [requestFn] does, [i] the
    number of calls made so far.  The result: the value, or the error
    thrown ([None] is [null], the initial [lastError]); then the state
    and the number of calls made. *)
Fixpoint progressive_loop (s : t) (start : Z) (type : string) (timeouts : list Z)
    (behaviour : nat → attempt) (i : nat) (lastError : option failure)
    : (string + option failure) * t * nat :=
  match timeouts with
  | [] => (inr lastError, s, i)
  | timeout :: timeouts' =>
      let '(r, s1) := executeWithTimeout s start type (behaviour i) (Some timeout) in
      match r with
      | inl v => (inl v, s1, S i)
      | inr (TimeoutError tm) =>
          progressive_loop s1 (start + elapsed (behaviour i)) type timeouts'
            behaviour (S i) (Some (TimeoutError tm))
      | inr e => (inr (Some e), s1, S i)
      end
  end.

Definition executeWithProgressiveTimeout (s : t) (start : Z) (type : string)
    (timeouts : option (list Z)) (behaviour : nat → attempt)
    : (string + option failure) * t * nat :=
  progressive_loop s start type (default [5000; 15000; 30000] timeouts) behaviour 0 None.

(** The calls that reach a manager whose configuration is not
    changed. *)
Inductive op :=
| Record (now : Z) (type : string) (d : Z) (ok : bool)
| GetTimeout (type : string)
| Execute (start : Z) (type : string) (a : attempt) (customTimeout : option Z)
| ClearMetrics (type : option string).

(** [clearMetrics(requestType?)]; the empty string is not a type. *)
Definition clearMetrics (s : t) (type : option string) : t :=
  match type with
  | Some ty =>
      if bool_decide (ty ≠ EmptyString)
      then {| config := config s; metrics := delete ty (metrics s);
              currentTimeouts := delete ty (currentTimeouts s) |}
      else init (config s)
  | None => init (config s)
  end.

Definition apply_op (s : t) (o : op) : t :=
  match o with
  | Record now type d ok => recordMetrics s now type d ok
  | GetTimeout type => (getTimeoutForType s type).2
  | Execute start type a custom => (executeWithTimeout s start type a custom).2
  | ClearMetrics type => clearMetrics s type
  end.

(** Several records in a row for one type: [(now, duration, success)]
    each. *)
Definition record_many (s : t) (type : string) (rs : list (Z * Z * bool)) : t :=
  foldl (λ s r, recordMetrics s r.1.1 type r.1.2 r.2) s rs.

(** A manager with a history of three slots, all in use. *)
Definition three_slots : t :=
  record_many (init (mkConfig 30000 120000 5000 true 3)) "web"
    [(0, 1000, true); (1, 2000, true); (2, 3000, true)].

(** An operation that needs 12 s: the timer of 5 s wins the first
    race, the second call resolves. *)
Definition slow_operation (i : nat) : attempt :=
  match i with
  | O => TimerWins 5001
  | _ => Succeeds "done" 12000
  end.

(** Every cached timeout is the base timeout or a clamped value. *)
Definition timeouts_bounded (s : t) : Prop :=
  ∀ type v, currentTimeouts s !! type = Some v →
    v = baseTimeout (config s) ∨
    (v ≤ maxTimeout (config s) ∧
     (minTimeout (config s) ≤ maxTimeout (config s) → minTimeout (config s) ≤ v)).

(** The first attempt whose outcome under its timeout is not a
    [TimeoutError], counting from call [i]. *)
Fixpoint first_decisive (timeouts : list Z) (behaviour : nat → attempt) (i : nat)
    : option (nat * (string + failure)) :=
  match timeouts with
  | [] => None
  | timeout :: timeouts' =>
      match classify timeout (behaviour i) with
      | inr (TimeoutError _) => first_decisive timeouts' behaviour (S i)
      | r => Some (i, r)
      end
  end.

(** One successful request of 119 s (run under a custom timeout). *)
Definition slow_history : list RequestMetrics :=
  [ {| duration := 119000; timestamp := 0; success := true;
       requestType := "search-web" |} ].

End SmartTimeout.

(** ** RequestDeduplicator (requestDeduplicator.ts) *)

Module Deduplicator.

(** [promise] is the handle of the promise that [requestFn()]
    returned. *)
Record PendingRequest := mkPending {
  promise : nat;
  timestamp : Z;
  requestCount : nat;
}.

Record DeduplicatorConfig := mkConfig {
  maxPendingTime : Z;
  cleanupInterval : Z;
  enabled : bool;
}.

(** [pendingRequests] is the [Map] of the class.  [started] lists the
    calls of [requestFn] made so far, each with the key it was made for;
    the promise of the [n]-th call has handle [n].  [settled] holds the
    promises that have ended. *)
Record t := mkState {
  config : DeduplicatorConfig;
  pendingRequests : gmap string PendingRequest;
  started : list string;
  settled : gmap nat outcome;
}.

Definition or_default (x : option Z) (d : Z) : Z :=
  match x with
  | Some 0 | None => d
  | Some z => z
  end.

(** The constructor; [enabled: config.enabled !== false]. *)
Definition new (maxPendingTime' cleanupInterval' : option Z) (enabled' : option bool) : t :=
  {| config := {| maxPendingTime := or_default maxPendingTime' 30000;
                  cleanupInterval := or_default cleanupInterval' 10000;
                  enabled := default true enabled' |};
     pendingRequests := ∅;
     started := [];
     settled := ∅ |}.

(** [requestFn()]: one more physical execution for [key]. *)
Definition call_requestFn (s : t) (key : string) : nat * t :=
  (length (started s),
   {| config := config s; pendingRequests := pendingRequests s;
      started := started s ++ [key]; settled := settled s |}).

Definition with_pending (s : t) (m : gmap string PendingRequest) : t :=
  {| config := config s; pendingRequests := m;
     started := started s; settled := settled s |}.

(** [deduplicate(key, requestFn)] up to its [await]: the promise whose
    outcome the caller receives, and the new state. *)
Definition deduplicate (s : t) (now : Z) (key : string) : nat * t :=
  if negb (enabled (config s)) then call_requestFn s key
  else
    match pendingRequests s !! key with
    | Some existing =>
        if bool_decide (now - timestamp existing < maxPendingTime (config s))
        then (promise existing,
              with_pending s
                (<[key := {| promise := promise existing;
                             timestamp := timestamp existing;
                             requestCount := S (requestCount existing) |}]>
                   (pendingRequests s)))
        else
          let '(p, s1) := call_requestFn (with_pending s (delete key (pendingRequests s))) key in
          (p, with_pending s1
                (<[key := {| promise := p; timestamp := now; requestCount := 1 |}]>
                   (pendingRequests s1)))
    | None =>
        let '(p, s1) := call_requestFn s key in
        (p, with_pending s1
              (<[key := {| promise := p; timestamp := now; requestCount := 1 |}]>
                 (pendingRequests s1)))
    end.

(** Promise [p] ends with [o] and the call of [deduplicate] that
    awaits it resumes: [finally { this.pendingRequests.delete(key) }].
    A promise ends once; a disabled deduplicator awaits nothing. *)
Definition settle (s : t) (p : nat) (o : outcome) : t :=
  match settled s !! p, started s !! p with
  | None, Some key =>
      {| config := config s;
         pendingRequests :=
           if enabled (config s) then delete key (pendingRequests s)
           else pendingRequests s;
         started := started s;
         settled := <[p := o]> (settled s) |}
  | _, _ => s
  end.

(** The periodic [cleanup]. *)
Definition cleanup (s : t) (now : Z) : t :=
  with_pending s
    (filter (λ kv, ¬ (maxPendingTime (config s) < now - timestamp kv.2))
       (pendingRequests s)).

Definition clear (s : t) : t := with_pending s ∅.

(** What happens to a deduplicator, in the order of the event loop. *)
Inductive event :=
| Call (key : string) (now : Z)
| Settle (p : nat) (o : outcome)
| Cleanup (now : Z)
| Clear.

(** One event; for a call, the promise handed to the caller. *)
Definition step (s : t) (ev : event) : option nat * t :=
  match ev with
  | Call key now => let '(p, s') := deduplicate s now key in (Some p, s')
  | Settle p o => (None, settle s p o)
  | Cleanup now => (None, cleanup s now)
  | Clear => (None, clear s)
  end.

Fixpoint run (s : t) (evs : list event) : list (option nat) * t :=
  match evs with
  | [] => ([], s)
  | ev :: evs' =>
      let '(r, s1) := step s ev in
      let '(rs, s2) := run s1 evs' in
      (r :: rs, s2)
  end.

(** The number of physical executions started for [key]. *)
Definition invocations (s : t) (key : string) : nat :=
  length (filter (λ k, k = key) (started s)).

(** What a caller holding promise [p] observes. *)
Definition observe (s : t) (p : nat) : option outcome := settled s !! p.

(** Only promises that were started have ended. *)
Definition wf (s : t) : Prop :=
  ∀ p, is_Some (settled s !! p) → (p < length (started s))%nat.

(** No execution for [key] is in flight. *)
Definition idle (s : t) (key : string) : Prop :=
  pendingRequests s !! key = None ∧
  ∀ p, started s !! p = Some key → is_Some (settled s !! p).

(** An event that can occur while the operation [p] for [key], started
    at [t0], is pending and its entry is younger than [maxPendingTime]:
    anything but the end of [p] and [clear()], at such a time. *)
Definition while_pending (cfg : DeduplicatorConfig) (key : string) (t0 : Z) (p : nat)
    (ev : event) : Prop :=
  match ev with
  | Call key' now => key' = key → now - t0 < maxPendingTime cfg
  | Settle p' _ => p' ≠ p
  | Cleanup now => now - t0 ≤ maxPendingTime cfg
  | Clear => False
  end.

Definition is_call_for (key : string) (ev : event) : Prop :=
  match ev with
  | Call key' _ => key' = key
  | _ => False
  end.

(** The loop invariant of the proof: the entry of [key] is the one of
    promise [p], started at [t0], and [p] is its only pending
    execution. *)
Definition shared (s : t) (key : string) (t0 : Z) (p : nat) : Prop :=
  enabled (config s) = true ∧
  (∃ e, pendingRequests s !! key = Some e ∧ promise e = p ∧ timestamp e = t0) ∧
  started s !! p = Some key ∧
  settled s !! p = None ∧
  ∀ p', started s !! p' = Some key → p' ≠ p → is_Some (settled s !! p').

(** The claim on single flight as it is written, for the calls of a
    trace [evs] run from [s]: a call for [key] made while the operation
    [p], which an earlier call for [key] started at time [t0], is still
    pending, less than [maxPendingTime] after [t0], receives [p], so
    that no other operation is invoked for it. *)
Definition single_flight_as_specified (s : t) (evs : list event) : Prop :=
  ∀ (i j : nat) key t0 t1 (p : nat),
    (i < j)%nat →
    evs !! i = Some (Call key t0) → evs !! j = Some (Call key t1) →
    p = length (started (run s (take i evs)).2) →
    (run s evs).1 !! i = Some (Some p) →
    observe (run s (take j evs)).2 p = None →
    t1 - t0 < maxPendingTime (config s) →
    (run s evs).1 !! j = Some (Some p).

(** A call, [clear()], and a second call for the same key one
    millisecond after the first. *)
Definition cleared_events : list event := [Call "q" 0; Clear; Call "q" 1].

(** A trace: a first call for ["q"] at time 0, then a second call, a
    call for another key and its end, a cleanup, and a third call just
    inside the window of 30 s. *)
Definition example_events : list event :=
  [Call "q" 10; Call "other" 20; Settle 1 (Resolved "x"); Cleanup 100;
   Call "q" 29999].

End Deduplicator.

(** ** ParallelProcessor (parallelProcessor.ts) *)

Module Processor.

(** [task] names the function [() => Promise<T>] of the task. *)
Record ParallelTask := mkTask {
  id : string;
  task : nat;
  priority : option Z;
  timeout : option Z;
}.

Record ProcessorConfig := mkConfig {
  maxConcurrency : nat;
  defaultTimeout : Z;
  retryAttempts : nat;
  retryDelay : Z;
}.

(** Where [runTaskWithRetry] stands: racing call [call] of the task
    function against the timer, sleeping before the next attempt, or
    ended. *)
Inductive phase :=
| Racing (call : nat) (timer : Z)
| Delaying (lastError : string)
| Done (o : outcome).

(** A job is one run of [runTaskWithRetry]; its promise is what
    [activeJobs] stores.  [resumed]: the [executeTask] that created the
    job has passed its [await] and run its [finally]. *)
Record job := mkJob {
  job_task : ParallelTask;
  attempt : nat;
  job_phase : phase;
  resumed : bool;
}.

(** One call of a task function and how its promise ended, if it
    has. *)
Record call := mkCall {
  call_fn : nat;
  call_job : nat;
  call_outcome : option outcome;
}.

Record t := mkState {
  config : ProcessorConfig;
  activeJobs : gmap string nat;
  jobs : list job;
  calls : list call;
}.

Definition or_default_nat (x : option nat) (d : nat) : nat :=
  match x with
  | Some (S n) => S n
  | _ => d
  end.

Definition or_default (x : option Z) (d : Z) : Z :=
  match x with
  | Some 0 | None => d
  | Some z => z
  end.

Definition new (maxConcurrency' : option nat) (defaultTimeout' : option Z)
    (retryAttempts' : option nat) (retryDelay' : option Z) : t :=
  {| config := {| maxConcurrency := or_default_nat maxConcurrency' 5;
                  defaultTimeout := or_default defaultTimeout' 30000;
                  retryAttempts := or_default_nat retryAttempts' 3;
                  retryDelay := or_default retryDelay' 1000 |};
     activeJobs := ∅; jobs := []; calls := [] |}.

(** [globalProcessor] *)
Definition globalProcessor : t :=
  new (Some 8%nat) (Some 30000) (Some 2%nat) (Some 1000).

(** [runTaskWithTimeout] for job [j]: call the task function and race
    it against a timer of [task.timeout || defaultTimeout]. *)
Definition runTaskWithTimeout (s : t) (j : nat) (tk : ParallelTask) : phase * t :=
  (Racing (length (calls s)) (or_default (timeout tk) (defaultTimeout (config s))),
   {| config := config s; activeJobs := activeJobs s; jobs := jobs s;
      calls := calls s ++ [{| call_fn := task tk; call_job := j; call_outcome := None |}] |}).

(** [runTaskWithRetry] up to its first [await]: the handle of the new
    job.  With [retryAttempts = 0] the loop body never runs and the job
    rejects with [lastError = null]. *)
Definition runTaskWithRetry (s : t) (tk : ParallelTask) : nat * t :=
  let j := length (jobs s) in
  match retryAttempts (config s) with
  | O =>
      (j, {| config := config s; activeJobs := activeJobs s;
             jobs := jobs s ++ [{| job_task := tk; attempt := 1;
                                   job_phase := Done (Rejected "null");
                                   resumed := false |}];
             calls := calls s |})
  | S _ =>
      let '(ph, s1) := runTaskWithTimeout s j tk in
      (j, {| config := config s1; activeJobs := activeJobs s1;
             jobs := jobs s1 ++ [{| job_task := tk; attempt := 1; job_phase := ph;
                                    resumed := false |}];
             calls := calls s1 |})
  end.

(** [executeTask] up to its [await]: the job whose promise the caller
    receives the outcome of. *)
Definition executeTask (s : t) (tk : ParallelTask) : nat * t :=
  match activeJobs s !! id tk with
  | Some j => (j, s)
  | None =>
      let '(j, s1) := runTaskWithRetry s tk in
      (j, {| config := config s1; activeJobs := <[id tk := j]> (activeJobs s1);
             jobs := jobs s1; calls := calls s1 |})
  end.

(** [tasks.map(task => this.executeTask(task))]: what [execute] and
    [executeWithResults] do before anything can settle. *)
Fixpoint execute (s : t) (tasks : list ParallelTask) : list nat * t :=
  match tasks with
  | [] => ([], s)
  | tk :: tasks' =>
      let '(j, s1) := executeTask s tk in
      let '(js, s2) := execute s1 tasks' in
      (j :: js, s2)
  end.

Definition set_job (s : t) (j : nat) (jb : job) : t :=
  {| config := config s; activeJobs := activeJobs s;
     jobs := <[j := jb]> (jobs s); calls := calls s |}.

(** The current attempt of job [j] ended with [o]: the [try]/[catch] of
    the retry loop. *)
Definition attempt_ended (s : t) (j : nat) (jb : job) (o : outcome) : t :=
  match o with
  | Resolved v =>
      set_job s j {| job_task := job_task jb; attempt := attempt jb;
                     job_phase := Done (Resolved v); resumed := resumed jb |}
  | Rejected e =>
      set_job s j
        {| job_task := job_task jb; attempt := attempt jb;
           job_phase := if decide (attempt jb < retryAttempts (config s))%nat
                        then Delaying e else Done (Rejected e);
           resumed := resumed jb |}
  end.

(** The promise of call [c] ends with [o]. *)
Definition call_settles (s : t) (c : nat) (o : outcome) : t :=
  match calls s !! c with
  | Some {| call_fn := f; call_job := j; call_outcome := None |} =>
      let s1 := {| config := config s; activeJobs := activeJobs s; jobs := jobs s;
                   calls := <[c := {| call_fn := f; call_job := j;
                                      call_outcome := Some o |}]> (calls s) |} in
      match jobs s !! j with
      | Some jb =>
          match job_phase jb with
          | Racing c' _ => if decide (c' = c) then attempt_ended s1 j jb o else s1
          | _ => s1
          end
      | None => s1
      end
  | _ => s
  end.

(** The timer of the current attempt of job [j] fires; the task
    function it raced keeps running. *)
Definition timer_fires (s : t) (j : nat) : t :=
  match jobs s !! j with
  | Some jb =>
      match job_phase jb with
      | Racing _ timer =>
          attempt_ended s j jb
            (Rejected ("Task " +:+ id (job_task jb) +:+ " timed out after "
                       +:+ pretty timer +:+ "ms"))
      | _ => s
      end
  | None => s
  end.

(** The delay before the next attempt of job [j] is over. *)
Definition delay_ends (s : t) (j : nat) : t :=
  match jobs s !! j with
  | Some jb =>
      match job_phase jb with
      | Delaying _ =>
          let '(ph, s1) := runTaskWithTimeout s j (job_task jb) in
          set_job s1 j {| job_task := job_task jb; attempt := S (attempt jb);
                          job_phase := ph; resumed := resumed jb |}
      | _ => s
      end
  | None => s
  end.

(** The [executeTask] that created job [j] resumes after its [await]:
    [finally { this.activeJobs.delete(task.id) }]. *)
Definition resume (s : t) (j : nat) : t :=
  match jobs s !! j with
  | Some jb =>
      match job_phase jb, resumed jb with
      | Done _, false =>
          {| config := config s;
             activeJobs := delete (id (job_task jb)) (activeJobs s);
             jobs := <[j := {| job_task := job_task jb; attempt := attempt jb;
                               job_phase := job_phase jb; resumed := true |}]> (jobs s);
             calls := calls s |}
      | _, _ => s
      end
  | None => s
  end.

Definition clear (s : t) : t :=
  {| config := config s; activeJobs := ∅; jobs := jobs s; calls := calls s |}.

(** What happens to a processor, in the order of the event loop.
    [Submit]: a call of [executeTask], the one path by which [execute],
    [executeWithResults], [executeBatched] and [executeWithLimit] start
    a task. *)
Inductive event :=
| Submit (tk : ParallelTask)
| CallSettles (c : nat) (o : outcome)
| TimerFires (j : nat)
| DelayEnds (j : nat)
| Resume (j : nat)
| Clear.

Definition step (s : t) (ev : event) : t :=
  match ev with
  | Submit tk => (executeTask s tk).2
  | CallSettles c o => call_settles s c o
  | TimerFires j => timer_fires s j
  | DelayEnds j => delay_ends s j
  | Resume j => resume s j
  | Clear => clear s
  end.

Definition run (s : t) (evs : list event) : t := foldl step s evs.

(** The task functions that have been called and whose promise is
    still pending: the tasks running at this moment. *)
Definition running (s : t) : nat :=
  length (filter (λ c, call_outcome c = None) (calls s)).

(** Job [j] has not ended. *)
Definition executing (s : t) (j : nat) : Prop :=
  ∃ jb, jobs s !! j = Some jb ∧ ∀ o, job_phase jb ≠ Done o.

(** The invariant of the class when [clear()] is not used: a job is
    registered under the id of its task from its creation until its
    [finally], and only then. *)
Definition inv (s : t) : Prop :=
  (∀ i j, activeJobs s !! i = Some j →
     ∃ jb, jobs s !! j = Some jb ∧ id (job_task jb) = i ∧ resumed jb = false) ∧
  (∀ j jb, jobs s !! j = Some jb → resumed jb = false →
     activeJobs s !! id (job_task jb) = Some j) ∧
  (∀ j jb, jobs s !! j = Some jb → resumed jb = true → ∃ o, job_phase jb = Done o).

Definition not_clear (ev : event) : Prop :=
  match ev with
  | Clear => False
  | _ => True
  end.

(** The number of times the task function of job [j] was called. *)
Definition calls_of (s : t) (j : nat) : nat :=
  length (filter (λ c, call_job c = j) (calls s)).

(** What the retry loop keeps true of every job: the function was
    called once per attempt, never more often than [retryAttempts];
    while the job sleeps an attempt is left; and when it has rejected
    none is. *)
Definition retry_inv (s : t) : Prop :=
  ∀ j,
    match jobs s !! j with
    | None => calls_of s j = O
    | Some jb =>
        (calls_of s j ≤ retryAttempts (config s))%nat ∧
        (retryAttempts (config s) = O ∨ calls_of s j = attempt jb) ∧
        (∀ e, job_phase jb = Delaying e → (calls_of s j < retryAttempts (config s))%nat) ∧
        (∀ e, job_phase jb = Done (Rejected e) → calls_of s j = retryAttempts (config s))
    end.

(** *** executeBatched *)

(** [(a, b) => (b.priority || 0) - (a.priority || 0)] is [<= 0]. *)
Definition priority_of (tk : ParallelTask) : Z := or_default (priority tk) 0.

Definition by_priority_desc (a b : ParallelTask) : bool :=
  priority_of b <=? priority_of a.

(** [const sortedTasks = [...tasks].sort(...)] *)
Definition sortedTasks (tasks : list ParallelTask) : list ParallelTask :=
  js_sort by_priority_desc tasks.

(** [for (let i = 0; i < l.length; i += size) {
       const batch = l.slice(i, i + size);
       const batchResults = await this.execute(batch); ... }]:
    the batches handed to [execute], [l] being what is left from index
    [i] on and [k] the number of the batch.  [ok k] tells whether
    [execute] of batch [k] resolves ([execute] of an empty batch always
    does: [Promise.all([])]); when it rejects, the [await] throws, there
    is no [catch], and the loop is left.  The boolean tells whether the
    loop ended without a throw.  With [size = 0] the index never moves;
    [None]: [fuel] iterations were not enough. *)
Fixpoint batches_from {A} (fuel size : nat) (ok : nat → bool) (k : nat) (l : list A)
    : option (list (list A) * bool) :=
  match l with
  | [] => Some ([], true)
  | _ =>
      match fuel with
      | O => None
      | S fuel' =>
          let batch := take size l in
          if match batch with [] => true | _ => ok k end
          then (λ r, (batch :: r.1, r.2)) <$> batches_from fuel' size ok (S k) (drop size l)
          else Some ([batch], false)
      end
  end.

(** [executeBatched(tasks, batchSize)], with
    [size = batchSize || maxConcurrency]: the batches it hands to
    [execute] one after the other (each one when the previous has
    resolved), and whether it resolves ([true]) or throws the error of
    the batch that rejected ([false]). *)
Definition executeBatched (s : t) (tasks : list ParallelTask) (batchSize : option nat)
    (ok : nat → bool) : option (list (list ParallelTask) * bool) :=
  batches_from (length tasks) (or_default_nat batchSize (maxConcurrency (config s)))
    ok 0 (sortedTasks tasks).

(** *** Semaphore *)

(** [waiting] holds the [resolve] functions of the callers of
    [acquire] that wait, named by caller. *)
Record Semaphore := mkSemaphore {
  permits : Z;
  waiting : list nat;
}.

(** [acquire()] by caller [w]: [true] when the permit is granted at
    once. *)
Definition acquire (sem : Semaphore) (w : nat) : bool * Semaphore :=
  if bool_decide (0 < permits sem)
  then (true, {| permits := permits sem - 1; waiting := waiting sem |})
  else (false, {| permits := permits sem; waiting := waiting sem ++ [w] |}).

(** [release()]: the caller that is woken, if one waits. *)
Definition release (sem : Semaphore) : option nat * Semaphore :=
  match waiting sem with
  | next :: rest => (Some next, {| permits := permits sem; waiting := rest |})
  | [] => (None, {| permits := permits sem + 1; waiting := [] |})
  end.

(** [executeWithLimit]: every task first awaits [acquire], runs, and
    calls [release] in its [finally].  [holders] are the tasks between
    the two. *)
Record limiter := mkLimiter {
  sem : Semaphore;
  holders : list nat;
}.

Inductive limiter_event :=
| Arrive (w : nat)      (* task [w] calls [acquire] *)
| Finish (w : nat).     (* [executeTask] of holder [w] has settled *)

Definition remove_first (w : nat) (l : list nat) : list nat :=
  match list_find (λ x, x = w) l with
  | Some (i, _) => delete i l
  | None => l
  end.

Definition limiter_step (st : limiter) (ev : limiter_event) : limiter :=
  match ev with
  | Arrive w =>
      let '(granted, sem') := acquire (sem st) w in
      {| sem := sem'; holders := if granted then holders st ++ [w] else holders st |}
  | Finish w =>
      if decide (w ∈ holders st)
      then let '(woken, sem') := release (sem st) in
           {| sem := sem';
              holders := remove_first w (holders st) ++ option_list woken |}
      else st
  end.

(** [new Semaphore(limit)] and the trace of an [executeWithLimit]. *)
Definition limiter_run (limit : Z) (evs : list limiter_event) : limiter :=
  foldl limiter_step {| sem := {| permits := limit; waiting := [] |}; holders := [] |} evs.

(** What the limiter keeps true: permits are not negative, every
    permit is free or held, and nobody waits while a permit is free. *)
Definition limiter_inv (limit : Z) (st : limiter) : Prop :=
  0 ≤ permits (sem st) ∧
  permits (sem st) + Z.of_nat (length (holders st)) = limit ∧
  (waiting (sem st) ≠ [] → permits (sem st) = 0).

(** A processor in which the first attempt of a task is racing. *)
Definition racing_once : t := (executeTask (new None None None None) (mkTask "search-0" 0 None None)).2.


(** Six tasks with six ids. *)
Definition six_tasks : list ParallelTask :=
  [ mkTask "search-0" 0 (Some 2) None; mkTask "search-1" 1 (Some 1) None;
    mkTask "search-2" 2 (Some 1) None; mkTask "search-3" 3 (Some 1) None;
    mkTask "search-4" 4 (Some 1) None; mkTask "search-5" 5 (Some 1) None ].


Definition example_events : list event :=
  [Submit (mkTask "search-1" 1 None None); TimerFires 0; DelayEnds 0].

End Processor.

(** ** CopilotSearchAgent (copilotSearchAgent.ts) *)

Module Copilot.

(** *** Query generation *)

(** The text of the language model is a JS string: a sequence of UTF-16
    code units. *)
Definition jsstring := list N.

Definition js (s : string) : jsstring :=
  map Ascii.N_of_ascii (String.list_ascii_of_string s).

(** WhiteSpace and LineTerminator of ECMAScript, what [trim] strips. *)
Definition is_space (c : N) : bool :=
  ((9 <=? c) && (c <=? 13) || (c =? 32) || (c =? 160) || (c =? 5760)
   || (8192 <=? c) && (c <=? 8202) || (c =? 8232) || (c =? 8233)
   || (c =? 8239) || (c =? 8287) || (c =? 12288) || (c =? 65279))%N.

Fixpoint trim_start (s : jsstring) : jsstring :=
  match s with
  | c :: s' => if is_space c then trim_start s' else s
  | [] => []
  end.

Definition trim (s : jsstring) : jsstring :=
  reverse (trim_start (reverse (trim_start s))).

(** [s.split('\n')] *)
Fixpoint split_lines (s : jsstring) : list jsstring :=
  match s with
  | [] => [[]]
  | c :: s' =>
      if (c =? 10)%N then [] :: split_lines s'
      else match split_lines s' with
           | line :: lines => (c :: line) :: lines
           | [] => [[c]]
           end
  end.

Fixpoint starts_with (pat s : jsstring) : bool :=
  match pat, s with
  | [], _ => true
  | p :: pat', c :: s' => (p =? c)%N && starts_with pat' s'
  | _ :: _, [] => false
  end.

(** The text after the first occurrence of [pat], and the text before
    it. *)
Fixpoint find_after (pat s : jsstring) : option jsstring :=
  if starts_with pat s then Some (drop (length pat) s)
  else match s with
       | [] => None
       | _ :: s' => find_after pat s'
       end.

Fixpoint find_before (pat s : jsstring) : option jsstring :=
  if starts_with pat s then Some []
  else match s with
       | [] => None
       | c :: s' => (c ::.) <$> find_before pat s'
       end.

(** [response.match(/<queries>([\s\S]*?)<\/queries>/)], the captured
    group: the match starts at the first opening tag, and the lazy group
    ends at the first closing tag after it; without a closing tag after
    the first opening tag no later start can match either. *)
Definition match_queries (response : jsstring) : option jsstring :=
  match find_after (js "<queries>") response with
  | Some rest => find_before (js "</queries>") rest
  | None => None
  end.

Inductive optimizationMode := speed | balanced | quality.

(** [createCopilotChain], line 331. *)
Definition maxQueries_of (mode : optimizationMode) : nat :=
  match mode with
  | speed => 2
  | balanced => 3
  | quality => 4
  end.

(** [generateMultipleQueries] from the response of the model on. *)
Definition generateMultipleQueries (response query : jsstring) (maxQueries : nat)
    : list jsstring :=
  match match_queries response with
  | Some group =>
      take maxQueries
        (filter (λ q, (0 < length q)%nat) (map trim (split_lines (trim group))))
  | None => [query]
  end.

(** *** Reranking *)

Record Document := mkDocument {
  pageContent : string;
  title : string;
  url : string;
}.

Record CopilotConfig := mkConfig {
  maxQueries : nat;
  maxSourcesPerQuery : nat;
  rerankThreshold : Q;
  enablePageExtraction : bool;
}.

(** [l.findIndex(p)]; [None] is [-1]. *)
Fixpoint findIndex {A} (p : A → bool) (l : list A) : option nat :=
  match l with
  | [] => None
  | x :: l' => if p x then Some O else S <$> findIndex p l'
  end.

(** [l.filter((x, index) => p(index, x))], from index [i] on. *)
Fixpoint filter_indexed {A} (p : nat → A → bool) (i : nat) (l : list A) : list A :=
  match l with
  | [] => []
  | x :: l' =>
      if p i x then x :: filter_indexed p (S i) l' else filter_indexed p (S i) l'
  end.

(** [docs.filter((doc, index, self) =>
       index === self.findIndex(d => d.metadata.url === doc.metadata.url))] *)
Definition uniqueDocs (docs : list Document) : list Document :=
  filter_indexed
    (λ index doc,
       bool_decide (findIndex (λ d, bool_decide (url d = url doc)) docs = Some index))
    0 docs.

(** The same list by recursion: a document is kept when no earlier
    document ([seen]) has its URL (lemma [uniqueDocs_first_by_url]). *)
Fixpoint first_by_url (seen l : list Document) : list Document :=
  match l with
  | [] => []
  | d :: l' =>
      if decide (url d ∈ url <$> seen)
      then first_by_url (seen ++ [d]) l'
      else d :: first_by_url (seen ++ [d]) l'
  end.

(** An item [{similarity, doc}] of the array [similarities]. *)
Definition item : Type := Q * Document.

(** [(a, b) => b.similarity - a.similarity] is [<= 0]. *)
Definition by_similarity_desc (a b : item) : bool := Qle_bool b.1 a.1.

(** [item.similarity > this.config.rerankThreshold] *)
Definition above (threshold : Q) (it : item) : bool :=
  negb (Qle_bool it.1 threshold).

(** The ranked items before [.map(item => item.doc)].  [sims] holds
    [computeSimilarity(queryEmbedding, docEmbeddings[i])] for each [i]:
    [embedDocuments] returns one vector for each text it is given. *)
Definition ranked (cfg : CopilotConfig) (unique : list Document) (sims : list Q)
    : list item :=
  take 15
    (js_sort by_similarity_desc
       (filter (λ it, above (rerankThreshold cfg) it = true) (zip sims unique))).

(** [rerankAndDeduplicate]; [similarities = None] when one of the two
    embedding calls rejects (the [catch] branch). *)
Definition rerankAndDeduplicate (cfg : CopilotConfig) (docs : list Document)
    (similarities : option (list Q)) : list Document :=
  match docs with
  | [] => []
  | _ =>
      match similarities with
      | Some sims => snd <$> ranked cfg (uniqueDocs docs) sims
      | None => take 15 (uniqueDocs docs)
      end
  end.

(** The sentence of the specification on reranking, as it is written:
    discard the documents whose score is below the threshold, sort the
    remainder in descending order, keep 15. *)
Definition rerank_as_specified (cfg : CopilotConfig) (docs : list Document)
    (sims : list Q) : list Document :=
  snd <$>
    take 15
      (js_sort by_similarity_desc
         (filter (λ it : item, Qle_bool (rerankThreshold cfg) it.1 = true)
            (zip sims (uniqueDocs docs)))).

(** *** The answer cache in front of the pipeline *)

Record StreamEvent := mkEvent {
  event : string;
  name : string;
  chunk : string;
}.

(** What the emitter sends: ['data'] with a JSON object [{type, data}],
    ['end'], ['error']. *)
Inductive emitted :=
| Data (type data : string)
| End
| Error (e : string).

(** The event stream of one run of the chain (query generation,
    searches, extraction, reranking, synthesis): its events, and the
    error that ends it if it fails. *)
Record stream := mkStream {
  events : list StreamEvent;
  failure : option string;
}.

Definition is_chunk (ev : StreamEvent) : bool :=
  bool_decide (event ev = "on_llm_stream") && bool_decide (name ev = "CopilotResponseGenerator").

(** The body of the [for await] loop: the new [fullResponse] and what
    is emitted. *)
Definition handle_event (fullResponse : string) (ev : StreamEvent)
    : string * list emitted :=
  if is_chunk ev
  then (fullResponse +:+ chunk ev, [Data "response" (chunk ev)])
  else if bool_decide (event ev = "on_llm_start") && bool_decide (name ev = "CopilotSourceRetriever")
  then (fullResponse,
        [Data "thinking" "Generating multiple search queries for comprehensive research..."])
  else if bool_decide (event ev = "on_chain_start") && bool_decide (name ev = "CopilotSourceRetriever")
  then (fullResponse, [Data "status" "Searching multiple sources..."])
  else (fullResponse, []).

Fixpoint consume (fullResponse : string) (evs : list StreamEvent)
    : string * list emitted :=
  match evs with
  | [] => (fullResponse, [])
  | ev :: evs' =>
      let '(r, out) := handle_event fullResponse ev in
      let '(r', out') := consume r evs' in
      (r', out ++ out')
  end.

Definition mode_name (mode : optimizationMode) : string :=
  match mode with
  | speed => "speed"
  | balanced => "balanced"
  | quality => "quality"
  end.

Record run := mkRun {
  emitted_events : list emitted;
  chain_runs : nat;      (* how often the chain was started *)
  cache_after : SearchCache.t string;
}.

Section Agent.
(** [SearchCache.generateKey(query, focusMode, options)]: the SHA-256
    hex digest of the JSON text of the three. *)
Context (generateKey : string → string → string → string).

(** [handleStream]; [now] is the time when the stream has ended.
    [None]: the call to [set] does not return. *)
Definition handleStream (c : SearchCache.t string) (now : Z) (st : stream)
    (query : string) (mode : optimizationMode)
    : option (list emitted * SearchCache.t string) :=
  let '(fullResponse, out) := consume EmptyString (events st) in
  match failure st with
  | Some e => Some (out ++ [Error e], c)
  | None =>
      if bool_decide (fullResponse ≠ EmptyString)
      then c' ← SearchCache.set c now (generateKey query "copilot" (mode_name mode))
                  fullResponse None;
           Some (out ++ [End], c')
      else Some (out ++ [End], c)
  end.

(** [searchAndAnswer] at time [now]; [st] is the stream of the chain if
    it is started, [done] the time when that stream ends. *)
Definition searchAndAnswer (c : SearchCache.t string) (now : Z) (message : string)
    (mode : optimizationMode) (st : stream) (done : Z) : option run :=
  let '(cachedResult, c1) :=
    SearchCache.get c now (generateKey message "copilot" (mode_name mode)) in
  match cachedResult with
  | Some cached =>
      if bool_decide (cached ≠ EmptyString)
      then Some {| emitted_events := [Data "response" cached; End];
                   chain_runs := 0; cache_after := c1 |}
      else '(out, c2) ← handleStream c1 done st message mode;
           Some {| emitted_events := out; chain_runs := 1; cache_after := c2 |}
  | None =>
      '(out, c2) ← handleStream c1 done st message mode;
      Some {| emitted_events := out; chain_runs := 1; cache_after := c2 |}
  end.

End Agent.

(** Three documents, two of them with the same URL, and a
    configuration with the default threshold 0.7. *)
Definition doc_a : Document := mkDocument "alpha" "A" "https://a.example".
Definition doc_a' : Document := mkDocument "alpha again" "A2" "https://a.example".
Definition doc_b : Document := mkDocument "beta" "B" "https://b.example".

Definition default_config : CopilotConfig :=
  {| maxQueries := 3; maxSourcesPerQuery := 5; rerankThreshold := 7 # 10;
     enablePageExtraction := true |}.

(** A key function in the shape of a digest (never empty), a question
    and the stream of a run that answers it. *)
Definition example_key (query focusMode options : string) : string :=
  "#" +:+ query +:+ "/" +:+ focusMode +:+ "/" +:+ options.

Definition example_question : string := "What is photosynthesis?".

Definition example_stream : stream :=
  mkStream [mkEvent "on_chain_start" "CopilotSourceRetriever" EmptyString;
            mkEvent "on_llm_stream" "CopilotResponseGenerator" "Plants ";
            mkEvent "on_llm_stream" "CopilotResponseGenerator" "make sugar."]
           None.

(** The answer that [handleStream] accumulates. *)
Definition answer_of (st : stream) : string := (consume EmptyString (events st)).1.

(** [searchResultCache]: 500 entries, 15 minutes. *)
Definition searchResultCache : SearchCache.t string :=
  SearchCache.new (Some 500%nat) (Some (15 * 60 * 1000)) None.

(** The run of the example: started at time 0, ended at 4 s. *)
Definition example_run : option run :=
  searchAndAnswer example_key searchResultCache 0 example_question balanced
    example_stream 4000.

(** *** The search tasks *)

(** [searchMultipleQueries], lines 170 to 181: one task for each
    query, with the index of the query in its id; [fns] names, for each
    query, the function that searches it. *)
Definition searchTasks (fns : list nat) : list Processor.ParallelTask :=
  imap (λ index fn,
          Processor.mkTask ("search-" +:+ pretty index) fn
            (Some (if decide (index = 0%nat) then 2 else 1)) None) fns.

(** *** What a client of the emitter observes *)

(** The text a client has read when it appends the [data] of every
    [response] message it receives. *)
Definition response_text (out : list emitted) : string :=
  foldr (λ e acc,
           match e with
           | Data type data => if String.eqb type "response" then data +:+ acc else acc
           | _ => acc
           end) EmptyString out.

(** ['end'] and ['error'] end the conversation. *)
Definition terminal (e : emitted) : bool :=
  match e with
  | Data _ _ => false
  | _ => true
  end.

(** The events of a completed run of the chain of [createCopilotChain]
    (lines 333 to 371).  [.withConfig({ runName })] names the run of the
    runnable it is applied to: [CopilotResponseGenerator] is the run of
    the whole [RunnableSequence] and [CopilotSourceRetriever] that of
    the [RunnableLambda], so both names come with [on_chain_start],
    [on_chain_stream] and [on_chain_end]; the events of the model
    ([on_llm_start], [on_llm_stream], [on_llm_end]) carry the name of
    the model. *)
Definition chain_stream : stream :=
  mkStream
    [mkEvent "on_chain_start" "CopilotResponseGenerator" EmptyString;
     mkEvent "on_chain_start" "CopilotSourceRetriever" EmptyString;
     mkEvent "on_llm_start" "ChatOpenAI" EmptyString;
     mkEvent "on_llm_end" "ChatOpenAI" EmptyString;
     mkEvent "on_chain_end" "CopilotSourceRetriever" EmptyString;
     mkEvent "on_llm_start" "ChatOpenAI" EmptyString;
     mkEvent "on_llm_stream" "ChatOpenAI" "Plants ";
     mkEvent "on_chain_stream" "CopilotResponseGenerator" "Plants ";
     mkEvent "on_llm_stream" "ChatOpenAI" "make sugar.";
     mkEvent "on_chain_stream" "CopilotResponseGenerator" "make sugar.";
     mkEvent "on_llm_end" "ChatOpenAI" EmptyString;
     mkEvent "on_chain_end" "CopilotResponseGenerator" EmptyString]
    None.

(** A stream that breaks after the first chunk of the answer, and the
    run it gives on the empty answer cache. *)
Definition failing_stream : stream :=
  mkStream [mkEvent "on_llm_stream" "CopilotResponseGenerator" "Plants "]
           (Some "socket hang up").

Definition failed_run : run :=
  {| emitted_events := [Data "response" "Plants "; Error "socket hang up"];
     chain_runs := 1; cache_after := searchResultCache |}.

(** An answer of the model with two queries. *)
Definition example_response : jsstring :=
  js "Sure. <queries>
 rust ownership
borrow checker
</queries>".

End Copilot.

(** * Properties *)

(** ** SearchCache *)

Module SearchCacheFacts.
Import SearchCache.
Section WithValue.
Context {T : Type}.
Implicit Types (c : t T) (key k : string) (e : CacheEntry T).

Lemma elem_of_set_delete k key (s : list string) :
  k ∈ set_delete key s ↔ k ∈ s ∧ k ≠ key.
Proof. unfold set_delete. rewrite list_elem_of_filter. tauto. Qed.

Lemma NoDup_set_delete key (s : list string) : NoDup s → NoDup (set_delete key s).
Proof. apply NoDup_filter. Qed.

Lemma set_delete_absent key (s : list string) : key ∉ s → set_delete key s = s.
Proof.
  unfold set_delete. induction s as [|x s IH]; intros Hn; [done|].
  apply not_elem_of_cons in Hn as [Hx Hs].
  rewrite filter_cons_True by congruence. by rewrite IH.
Qed.

Lemma set_delete_head key (s : list string) :
  NoDup (key :: s) → set_delete key (key :: s) = s.
Proof.
  intros [Hn _]%NoDup_cons. unfold set_delete.
  rewrite filter_cons_False by naive_solver.
  by apply set_delete_absent.
Qed.

Lemma set_add_fresh key (s : list string) :
  set_add key (set_delete key s) = set_delete key s ++ [key].
Proof.
  unfold set_add. case_decide as H; [|done].
  apply elem_of_set_delete in H as [_ ?]. done.
Qed.

Lemma accessOrder_updateAccessOrder key c :
  accessOrder (updateAccessOrder key c) = set_delete key (accessOrder c) ++ [key].
Proof. apply set_add_fresh. Qed.

Lemma mru_updateAccessOrder key c : mru (updateAccessOrder key c) = Some key.
Proof. unfold mru. rewrite accessOrder_updateAccessOrder. apply last_snoc. Qed.

(** *** The eviction loop *)

Lemma evict_while_more_fuel fuel fuel' c c' :
  evict_while fuel c = Some c' → (fuel ≤ fuel')%nat → evict_while fuel' c = Some c'.
Proof.
  revert fuel' c. induction fuel as [|fuel IH]; intros fuel' c; simpl.
  - case_decide; [done|]. intros [= <-] _. destruct fuel'; simpl; by case_decide.
  - case_decide as Hfull.
    + intros Hrun Hle. destruct fuel' as [|fuel']; [lia|]. simpl.
      rewrite decide_True by done. apply IH; [done|lia].
    + intros [= <-] _. destruct fuel'; simpl; by case_decide.
Qed.

Lemma evict_while_fixpoint c :
  (maxSize (config c) ≤ size (cache c))%nat → evictLRU c = c →
  ∀ fuel, evict_while fuel c = None.
Proof.
  intros Hfull Hfix fuel. induction fuel as [|fuel IH]; simpl;
    rewrite decide_True by done; [done|]. by rewrite Hfix.
Qed.

Lemma evictLRU_cases c :
  evictLRU c = c ∨
  ∃ k, head (accessOrder c) = Some k ∧ k ≠ EmptyString ∧
       evictLRU c = {| cache := delete k (cache c);
                       accessOrder := set_delete k (accessOrder c);
                       config := config c |}.
Proof.
  unfold evictLRU. destruct (head (accessOrder c)) as [k|] eqn:Hh; [|by left].
  unfold truthy. case_bool_decide; [|by left]. right. by exists k.
Qed.

Lemma length_set_delete_head k (s : list string) :
  head s = Some k → (length (set_delete k s) < length s)%nat.
Proof.
  destruct s as [|x s]; [done|]. intros [= ->]. unfold set_delete.
  rewrite filter_cons_False by naive_solver.
  simpl. pose proof (length_filter (λ x, x ≠ k) s). lia.
Qed.

(** A loop that has not exited after [length accessOrder + 1] iterations
    never exits. *)
Lemma evict_while_stuck c :
  evict_while (S (length (accessOrder c))) c = None →
  ∀ fuel, evict_while fuel c = None.
Proof.
  remember (length (accessOrder c)) as n eqn:Hn.
  revert c Hn. induction n as [n IH] using lt_wf_ind. intros c Hn Hrun.
  simpl in Hrun. case_decide as Hfull; [|done].
  destruct (evictLRU_cases c) as [Hfix|(k & Hh & Hk & Hev)].
  { by apply evict_while_fixpoint. }
  assert (length (accessOrder (evictLRU c)) < n)%nat as Hlt.
  { rewrite Hev, Hn. simpl. by apply length_set_delete_head. }
  assert (∀ fuel, evict_while fuel (evictLRU c) = None) as Hnone.
  { apply (IH _ Hlt _ eq_refl).
    destruct (evict_while (S _) (evictLRU c)) as [c'|] eqn:Hsome; [|done].
    rewrite (evict_while_more_fuel _ n _ _ Hsome) in Hrun; [done|lia]. }
  intros [|fuel]; simpl; rewrite decide_True by done; [done|apply Hnone].
Qed.

Lemma set_fuel_more fuel fuel' c now key (d : T) ttl c' :
  set_fuel fuel c now key d ttl = Some c' → (fuel ≤ fuel')%nat →
  set_fuel fuel' c now key d ttl = Some c'.
Proof.
  unfold set_fuel. intros Hrun Hle.
  destruct (evict_while fuel _) as [c2|] eqn:Hev; [|done].
  by rewrite (evict_while_more_fuel _ _ _ _ Hev Hle).
Qed.

(** [set] returns [None] exactly when no number of iterations lets the
    loop exit. *)
Lemma set_None_diverges c now key (d : T) ttl :
  set c now key d ttl = None → ∀ fuel, set_fuel fuel c now key d ttl = None.
Proof.
  unfold set, set_fuel. set (c1 := if decide _ then _ else c).
  intros Hrun fuel.
  destruct (evict_while (S (length (accessOrder c))) c1) as [c2|] eqn:Hev; [done|].
  rewrite evict_while_stuck; [done|].
  destruct (evict_while (S (length (accessOrder c1))) c1) as [c2|] eqn:Hev1; [|done].
  rewrite (evict_while_more_fuel _ (S (length (accessOrder c))) _ _ Hev1) in Hev; [done|].
  subst c1. case_decide; simpl; [|lia].
  pose proof (length_filter (λ x, x ≠ key) (accessOrder c)). unfold set_delete. lia.
Qed.

(** *** The representation invariant *)

Lemma length_set_delete_elem key (s : list string) :
  NoDup s → key ∈ s → (length (set_delete key s) + 1 = length s)%nat.
Proof.
  unfold set_delete. induction 1 as [|x s Hx Hs IH]; [by intros ?%elem_of_nil|].
  intros [<-|Hin]%elem_of_cons.
  - rewrite filter_cons_False by naive_solver.
    fold (set_delete key s). rewrite set_delete_absent by done. simpl. lia.
  - rewrite filter_cons_True by (intros ->; done). simpl. rewrite <- IH by done. lia.
Qed.

Lemma wf_size c : wf c → size (cache c) = length (accessOrder c).
Proof.
  intros (Hnd & Hkeys & _).
  rewrite <- size_dom, <- (size_list_to_set (C := gset string)) by done.
  f_equal. apply set_eq. intros k.
  by rewrite elem_of_dom, elem_of_list_to_set, Hkeys.
Qed.

Lemma wf_new ms ttl (mem : option Z) : wf (new (T := T) ms ttl mem).
Proof.
  split_and!; simpl; [constructor | | by intros ?%elem_of_nil].
  intros k. rewrite lookup_empty. split; [by intros ?%elem_of_nil|by intros [? ?]].
Qed.

Lemma wf_remove c key :
  wf c →
  wf {| cache := delete key (cache c);
        accessOrder := set_delete key (accessOrder c);
        config := config c |}.
Proof.
  intros (Hnd & Hkeys & Hne). split_and!; simpl.
  - by apply NoDup_set_delete.
  - intros k. rewrite elem_of_set_delete, Hkeys, lookup_delete.
    case_decide; subst; [|naive_solver]. split; [naive_solver|by intros [? ?]].
  - rewrite elem_of_set_delete. naive_solver.
Qed.

Lemma wf_touch c key e :
  wf c → is_Some (cache c !! key) →
  wf (updateAccessOrder key
        {| cache := <[key := e]> (cache c);
           accessOrder := accessOrder c;
           config := config c |}).
Proof.
  intros (Hnd & Hkeys & Hne) Hin. unfold wf.
  rewrite accessOrder_updateAccessOrder. simpl. split_and!.
  - apply NoDup_app. split_and!; [by apply NoDup_set_delete| |apply NoDup_singleton].
    intros k [_ ?]%elem_of_set_delete ?%list_elem_of_singleton. done.
  - intros k. rewrite elem_of_app, elem_of_set_delete, list_elem_of_singleton, Hkeys.
    rewrite lookup_insert. case_decide; subst; naive_solver.
  - rewrite elem_of_app, elem_of_set_delete, list_elem_of_singleton.
    intros [[? ?]|<-]; [done|]. apply Hne, Hkeys, Hin.
Qed.

Lemma wf_get c now key : wf c → wf (get c now key).2.
Proof.
  intros Hwf. unfold get. destruct (cache c !! key) as [e|] eqn:He; [|done].
  destruct (isExpired now e); simpl; [by apply wf_remove|].
  apply wf_touch; [done|by rewrite He].
Qed.

Lemma wf_has c now key : wf c → wf (has c now key).2.
Proof.
  intros Hwf. unfold has. destruct (cache c !! key) as [e|]; [|done].
  destruct (isExpired now e); simpl; [by apply wf_remove|done].
Qed.

Lemma wf_delete_key c key : wf c → wf (delete_key c key).2.
Proof.
  intros Hwf. unfold delete_key. destruct (cache c !! key); [|done].
  by apply wf_remove.
Qed.

Lemma wf_clear c : wf (clear c).
Proof. apply (wf_new None None None). Qed.

Lemma wf_cleanup c now : wf c → wf (cleanup c now).2.
Proof.
  intros (Hnd & Hkeys & Hne). unfold cleanup. split_and!; simpl.
  - by apply NoDup_filter.
  - intros k. rewrite list_elem_of_filter, Hkeys, map_lookup_filter_None.
    split.
    + intros [Hlive [e He]]. exists e. apply map_lookup_filter_Some. split; [done|].
      simpl. destruct Hlive as [Hnone|Hlive]; [congruence|].
      specialize (Hlive _ He). simpl in Hlive. by destruct (isExpired now e).
    + intros [e [He Hlive]%map_lookup_filter_Some]. simpl in Hlive. split; [|by exists e].
      right. intros e' He'. simpl. congruence.
  - rewrite list_elem_of_filter. naive_solver.
Qed.

Lemma set_inv_enter c key :
  wf c →
  let c1 := if decide (is_Some (cache c !! key))
            then {| cache := cache c;
                    accessOrder := set_delete key (accessOrder c);
                    config := config c |}
            else c in
  set_inv key (if decide (is_Some (cache c !! key)) then 1 else 0)%nat c1 ∧
  config c1 = config c ∧ cache c1 = cache c.
Proof.
  intros Hwf. pose proof (wf_size _ Hwf) as Hsize.
  destruct Hwf as (Hnd & Hkeys & Hne). simpl.
  case_decide as Hin; (split; [|done]); unfold set_inv; simpl.
  - split_and!.
    + by apply NoDup_set_delete.
    + rewrite elem_of_set_delete. naive_solver.
    + rewrite elem_of_set_delete. naive_solver.
    + intros k [? _]%elem_of_set_delete. by apply Hkeys.
    + intros k Hk. destruct (decide (k = key)); [by right|left].
      apply elem_of_set_delete. split; [by apply Hkeys|done].
    + rewrite Hsize. symmetry. apply length_set_delete_elem; [done|by apply Hkeys].
  - split_and!; try done.
    + by rewrite Hkeys.
    + intros k. by rewrite Hkeys.
    + intros k Hk. left. by apply Hkeys.
    + lia.
Qed.

Lemma set_inv_evict key δ c :
  set_inv key δ c → (0 < length (accessOrder c))%nat →
  ∃ k rest, accessOrder c = k :: rest ∧
    evictLRU c = {| cache := delete k (cache c); accessOrder := rest;
                    config := config c |} ∧
    set_inv key δ (evictLRU c) ∧
    size (cache (evictLRU c)) = pred (size (cache c)).
Proof.
  intros (Hnd & Hne & Hkey & Hsub & Hsup & Hsize) Hlen.
  destruct (accessOrder c) as [|k rest] eqn:Horder; [simpl in Hlen; lia|].
  exists k, rest. split; [done|].
  assert (evictLRU c = {| cache := delete k (cache c); accessOrder := rest;
                          config := config c |}) as Hev.
  { unfold evictLRU. rewrite Horder. simpl. unfold truthy.
    rewrite bool_decide_eq_true_2.
    - by rewrite set_delete_head.
    - intros ->. apply Hne. by left. }
  split; [done|]. rewrite Hev. simpl.
  apply NoDup_cons in Hnd as [Hk Hnd].
  assert (is_Some (cache c !! k)) as [e He] by (apply Hsub; by left).
  split.
  - unfold set_inv. simpl. split_and!; try done.
    + intros ?. apply Hne. by right.
    + intros ?. apply Hkey. by right.
    + intros k' Hk'. rewrite lookup_delete_ne by (intros ->; done).
      apply Hsub. by right.
    + intros k' [e' He']. rewrite lookup_delete in He'. case_decide; [done|].
      destruct (Hsup k') as [[->|?]%elem_of_cons|?]; [by exists e'|done|by left|by right].
    + erewrite map_size_delete_Some by done. rewrite Hsize. simpl. lia.
  - by erewrite map_size_delete_Some.
Qed.

(** With the invariant the loop exits, within [length accessOrder]
    iterations, in a state below capacity. *)
Lemma evict_while_exits key δ fuel c :
  set_inv key δ c → (δ < maxSize (config c))%nat →
  (length (accessOrder c) ≤ fuel)%nat →
  ∃ c', evict_while fuel c = Some c' ∧ set_inv key δ c' ∧
        config c' = config c ∧
        (size (cache c') < maxSize (config c))%nat ∧
        (size (cache c') ≤ size (cache c))%nat ∧
        cache c' !! key = cache c !! key.
Proof.
  revert c. induction fuel as [|fuel IH]; intros c Hinv Hδ Hlen.
  - simpl. pose proof Hinv as (_ & _ & _ & _ & _ & Hsize).
    rewrite decide_False by lia. exists c. split_and!; try done. lia.
  - simpl. case_decide as Hfull; [|exists c; split_and!; try done; lia].
    pose proof Hinv as (_ & _ & Hkey & _ & _ & Hsize).
    destruct (set_inv_evict _ _ _ Hinv) as (k & rest & Horder & Hev & Hinv' & Hsz); [lia|].
    destruct (IH (evictLRU c) Hinv') as (c' & Hrun & Hinv'' & Hcfg & Hlt & Hle & Hk).
    { by rewrite Hev. }
    { rewrite Hev. simpl. rewrite Horder in Hlen. simpl in Hlen. lia. }
    exists c'. split_and!; try done.
    + by rewrite Hcfg, Hev.
    + by rewrite Hev in Hlt.
    + lia.
    + rewrite Hk, Hev. simpl. apply lookup_delete_ne. intros ->.
      apply Hkey. rewrite Horder. by left.
Qed.

Lemma wf_after_insert key δ c e :
  set_inv key δ c → key ≠ EmptyString →
  wf (updateAccessOrder key
        {| cache := <[key := e]> (cache c);
           accessOrder := accessOrder c;
           config := config c |}).
Proof.
  intros (Hnd & Hne & Hkey & Hsub & Hsup & _) Hk. unfold wf.
  rewrite accessOrder_updateAccessOrder. simpl.
  rewrite set_delete_absent by done. split_and!.
  - apply NoDup_app. split_and!; [done| |apply NoDup_singleton].
    intros k ? ->%list_elem_of_singleton. done.
  - intros k. rewrite elem_of_app, list_elem_of_singleton, lookup_insert.
    case_decide; subst; naive_solver.
  - rewrite elem_of_app, list_elem_of_singleton. naive_solver.
Qed.

(** [set] returns when the cache can hold two entries, or one and the
    key is new; the result keeps the invariant and the capacity bound
    and holds the new entry at the most recently used position. *)
Lemma set_returns c now key (d : T) ttl :
  wf c → key ≠ EmptyString →
  (2 ≤ maxSize (config c) ∨ (1 ≤ maxSize (config c) ∧ cache c !! key = None))%nat →
  ∃ c', set c now key d ttl = Some c' ∧ wf c' ∧ config c' = config c ∧
        (size (cache c') ≤ maxSize (config c))%nat ∧
        mru c' = Some key ∧
        cache c' !! key =
          Some {| data := d; timestamp := now;
                  expiresAt := now + default (defaultTTL (config c)) ttl;
                  hits := 0 |}.
Proof.
  intros Hwf Hkey Hcap. unfold set, set_fuel.
  destruct (set_inv_enter c key Hwf) as (Hinv & Hcfg & Hcache).
  set (c1 := if decide _ then _ else c) in *.
  set (δ := (if decide (is_Some (cache c !! key)) then 1 else 0)%nat) in *.
  destruct (evict_while_exits key δ (S (length (accessOrder c))) c1 Hinv)
    as (c2 & Hrun & Hinv2 & Hcfg2 & Hlt & _ & _).
  { rewrite Hcfg. subst δ. case_decide as Hin; [|lia].
    destruct Hcap as [?|[_ Hnone]]; [lia|]. rewrite Hnone in Hin. by destruct Hin. }
  { subst c1. case_decide; simpl; [|lia].
    pose proof (length_filter (λ x, x ≠ key) (accessOrder c)). unfold set_delete. lia. }
  rewrite Hrun. eexists. split; [done|]. split_and!.
  - by eapply wf_after_insert.
  - simpl. congruence.
  - simpl. rewrite map_size_insert, <- Hcfg. destruct (cache c2 !! key); unfold id; lia.
  - apply mru_updateAccessOrder.
  - simpl. apply lookup_insert_eq.
Qed.

(** *** Expiry *)

(** C3 (as amended).  For every entry [e] stored under [key], whatever
    its hit count: [get] returns the stored value as long as
    [now <= expiresAt] (the instant [expiresAt] included), and once
    [now > expiresAt] it returns absent and removes the entry from the
    map and from the access order. *)
Theorem get_respects_expiry c now key e :
  cache c !! key = Some e →
  (now ≤ expiresAt e → (get c now key).1 = Some (data e)) ∧
  (expiresAt e < now →
     (get c now key).1 = None ∧
     cache (get c now key).2 !! key = None ∧
     key ∉ accessOrder (get c now key).2).
Proof.
  intros He. unfold get, isExpired. rewrite He. split; intros Hnow.
  - by rewrite bool_decide_eq_false_2 by lia.
  - rewrite bool_decide_eq_true_2 by lia. simpl. split_and!; [done| |].
    + apply lookup_delete_eq.
    + rewrite elem_of_set_delete. naive_solver.
Qed.

(** *** [has] *)

(** C10.  [has] on an expired entry deletes the entry and its
    access-order record and returns [false]; on a live entry it returns
    [true] and leaves the whole cache as it was, in particular the hit
    count of the entry and the access order, whereas [get] on the same
    live entry adds one hit and moves the key to the most recently used
    position. *)
Theorem has_deletes_expired_only c now key e :
  cache c !! key = Some e →
  (expiresAt e < now →
     (has c now key).1 = false ∧
     cache (has c now key).2 = delete key (cache c) ∧
     accessOrder (has c now key).2 = set_delete key (accessOrder c) ∧
     cache (has c now key).2 !! key = None ∧
     key ∉ accessOrder (has c now key).2) ∧
  (now ≤ expiresAt e →
     has c now key = (true, c) ∧
     (hits <$> cache (has c now key).2 !! key) = Some (hits e) ∧
     accessOrder (has c now key).2 = accessOrder c ∧
     (hits <$> cache (get c now key).2 !! key) = Some (hits e + 1) ∧
     mru (get c now key).2 = Some key).
Proof.
  intros He. unfold has, get, isExpired. rewrite He. split; intros Hnow.
  - rewrite bool_decide_eq_true_2 by lia. simpl. split_and!; try done.
    + apply lookup_delete_eq.
    + rewrite elem_of_set_delete. naive_solver.
  - rewrite bool_decide_eq_false_2 by lia. simpl. split_and!; try done.
    + by rewrite He.
    + by rewrite lookup_insert_eq.
    + apply mru_updateAccessOrder.
Qed.

(** *** Eviction *)

(** Inserting a new key into a full cache evicts the least recently
    used entry and nothing else. *)
Lemma set_new_key_evicts_lru c now key (d : T) ttl :
  wf c → key ≠ EmptyString → cache c !! key = None →
  size (cache c) = maxSize (config c) → (1 ≤ maxSize (config c))%nat →
  ∃ oldest rest e,
    accessOrder c = oldest :: rest ∧
    set c now key d ttl =
      Some {| cache := <[key := e]> (delete oldest (cache c));
              accessOrder := rest ++ [key];
              config := config c |} ∧
    data e = d ∧ hits e = 0.
Proof.
  intros Hwf Hkey Hnew Hfull Hcap.
  pose proof (wf_size _ Hwf) as Hsize. pose proof Hwf as (Hnd & Hkeys & Hne).
  destruct (accessOrder c) as [|oldest rest] eqn:Horder; [simpl in *; lia|].
  assert (is_Some (cache c !! oldest)) as [eo Heo] by (apply Hkeys; by left).
  assert (oldest ≠ EmptyString) as Hold by (intros ->; apply Hne; by left).
  assert (key ∉ rest) as Hrest.
  { intros Hin. assert (is_Some (cache c !! key)) as [? ?]; [|congruence].
    apply Hkeys. by right. }
  assert (evictLRU c = {| cache := delete oldest (cache c); accessOrder := rest;
                          config := config c |}) as Hev.
  { unfold evictLRU. rewrite Horder. simpl. unfold truthy.
    rewrite bool_decide_eq_true_2 by done. by rewrite set_delete_head. }
  exists oldest, rest. eexists. split; [done|].
  unfold set, set_fuel.
  rewrite decide_False by (rewrite Hnew; by intros [? ?]).
  assert (evict_while (S (length (accessOrder c))) c = Some (evictLRU c)) as ->.
  { simpl. rewrite decide_True by lia.
    destruct (length (accessOrder c)); simpl;
      (rewrite decide_False; [done|]); rewrite Hev; simpl;
      erewrite map_size_delete_Some by done; lia. }
  rewrite Hev. unfold updateAccessOrder. simpl.
  by rewrite set_add_fresh, set_delete_absent.
Qed.

(** Overwriting a key of a full cache also evicts the least recently
    used of the other entries (for a capacity of at least two). *)
Lemma set_existing_key_evicts_another c now key (d : T) ttl :
  wf c → is_Some (cache c !! key) →
  size (cache c) = maxSize (config c) → (2 ≤ maxSize (config c))%nat →
  ∃ other c',
    head (set_delete key (accessOrder c)) = Some other ∧ other ≠ key ∧
    set c now key d ttl = Some c' ∧
    cache c' !! other = None ∧ (size (cache c') < maxSize (config c))%nat.
Proof.
  intros Hwf Hin Hfull Hcap.
  destruct (set_inv_enter c key Hwf) as (Hinv & Hcfg & Hcache).
  set (c1 := if decide _ then _ else c) in *.
  rewrite decide_True in Hinv by done.
  pose proof Hinv as (_ & _ & Hkey & _ & _ & Hsize).
  destruct (set_inv_evict _ _ _ Hinv) as (k & rest & Horder & Hev & Hinv' & Hsz).
  { rewrite Hcache in Hsize. lia. }
  assert (accessOrder c1 = set_delete key (accessOrder c)) as Hc1.
  { subst c1. by rewrite decide_True. }
  assert (k ≠ key) as Hk.
  { intros ->. apply Hkey. rewrite Horder. by left. }
  exists k. unfold set, set_fuel. fold c1. simpl.
  rewrite decide_True by (rewrite Hcfg, Hcache; lia).
  assert (evict_while (length (accessOrder c)) (evictLRU c1) = Some (evictLRU c1)) as ->.
  { destruct (length (accessOrder c)); simpl;
      (rewrite decide_False; [done|]); rewrite Hsz, Hev; simpl;
      rewrite Hcfg, Hcache; lia. }
  eexists. split_and!; [by rewrite <- Hc1, Horder|done|done| |].
  - simpl. rewrite lookup_insert_ne by done. rewrite Hev. simpl. apply lookup_delete_eq.
  - simpl. rewrite map_size_insert, Hev. simpl.
    destruct Hin as [x Hx].
    assert (delete k (cache c1) !! key = Some x) as ->.
    { rewrite lookup_delete_ne by done. by rewrite Hcache. }
    pose proof Hinv as (_ & _ & _ & Hsub & _).
    destruct (Hsub k) as [ek Hek]; [rewrite Horder; by left|].
    unfold id. erewrite map_size_delete_Some by done.
    assert (size (cache c1) = size (cache c)) as -> by (by rewrite Hcache). lia.
Qed.

End WithValue.
(** One entry stored at time 0 with a time to live of 1000 ms is the
    state [one_entry]. *)
Lemma set_builds_one_entry :
  set (new None None None) 0 "k" "v" (Some 1000) = Some one_entry.
Proof. reflexivity. Qed.

(** C3, counterexample.  At the instant [now = expiresAt = 1000] the
    entry is still served, where the sentence of the specification
    wants it absent. *)
Lemma get_at_expiry_instant_still_served :
  ¬ get_as_specified one_entry 1000 "k".
Proof.
  intros Hspec.
  destruct (Hspec (mkEntry "v" 0 1000 0)) as [_ Hexpired]; [reflexivity|].
  destruct Hexpired as [Habsent _]; [simpl; lia|]. vm_compute in Habsent. discriminate.
Qed.

Lemma get_respects_expiry_witness :
  cache one_entry !! "k" = Some (mkEntry "v" 0 1000 0) ∧
  (1000 ≤ 1000 → (get one_entry 1000 "k").1 = Some "v") ∧
  (1000 < 1001 →
     (get one_entry 1001 "k").1 = None ∧
     cache (get one_entry 1001 "k").2 !! "k" = None ∧
     "k" ∉ accessOrder (get one_entry 1001 "k").2).
Proof.
  split; [reflexivity|]. split.
  - apply (get_respects_expiry one_entry 1000 "k" (mkEntry "v" 0 1000 0)).
    reflexivity.
  - apply (get_respects_expiry one_entry 1001 "k" (mkEntry "v" 0 1000 0)).
    reflexivity.
Defined.

Lemma has_deletes_expired_only_witness :
  cache one_entry !! "k" = Some (mkEntry "v" 0 1000 0) ∧
  (has one_entry 1001 "k").1 = false ∧
  has one_entry 1000 "k" = (true, one_entry).
Proof.
  split; [reflexivity|].
  destruct (has_deletes_expired_only one_entry 1001 "k" (mkEntry "v" 0 1000 0))
    as [Hexpired _]; [reflexivity|].
  destruct (has_deletes_expired_only one_entry 1000 "k" (mkEntry "v" 0 1000 0))
    as [_ Hlive]; [reflexivity|].
  split; [apply Hexpired; simpl; lia | apply Hlive; simpl; lia].
Defined.

(** C7, the failing input.  A cache of capacity one accepts a first
    [set] of key ["k"]; a second [set] of the same key never returns:
    the key has left [accessOrder] but not [cache], so [evictLRU] finds
    nothing to evict while [cache.size >= maxSize] stays true. *)
Theorem set_same_key_capacity_one_never_returns :
  ∃ c1 : t string,
    set (new (Some 1%nat) None None) 0 "k" "v" None = Some c1 ∧
    is_Some (cache c1 !! "k") ∧
    set c1 1 "k" "w" None = None ∧
    ∀ fuel, set_fuel fuel c1 1 "k" "w" None = None.
Proof.
  eexists. split; [reflexivity|]. split; [by eexists|].
  assert (set {| cache := <["k" := mkEntry "v" 0 (0 + 30 * 60 * 1000) 0]> ∅;
                 accessOrder := ["k"];
                 config := mkConfig 1 (30 * 60 * 1000) (100 * 1024 * 1024) |}
              1 "k" "w" None = None) as Hnone by reflexivity.
  split; [exact Hnone|]. exact (set_None_diverges _ _ _ _ _ Hnone).
Qed.

End SearchCacheFacts.

(** ** Sorting *)

Section SortFacts.
Context {A : Type} (before : A → A → bool).

Lemma sort_insert_Permutation (x : A) l : sort_insert before x l ≡ₚ x :: l.
Proof.
  induction l as [|y l IH]; simpl; [done|].
  destruct (before x y); [done|]. rewrite IH. apply Permutation_swap.
Qed.

Lemma js_sort_Permutation (l : list A) : js_sort before l ≡ₚ l.
Proof.
  induction l as [|x l IH]; simpl; [done|].
  by rewrite sort_insert_Permutation, IH.
Qed.

Lemma length_js_sort (l : list A) : length (js_sort before l) = length l.
Proof. by rewrite js_sort_Permutation. Qed.

(** For a comparison that is total and transitive the result is
    sorted: every element comes before all later ones. *)
Context (before_total : ∀ x y, before x y = true ∨ before y x = true).
Context (before_trans : ∀ x y z, before x y = true → before y z = true → before x z = true).

Lemma sort_insert_sorted (x : A) l :
  StronglySorted (λ a b, before a b = true) l →
  StronglySorted (λ a b, before a b = true) (sort_insert before x l).
Proof.
  induction 1 as [|y l Hl IH Hy]; simpl; [repeat constructor|].
  destruct (before x y) eqn:Hxy.
  - constructor; [by constructor|]. constructor; [done|].
    eapply Forall_impl; [exact Hy|]. intros z Hz. by eapply before_trans.
  - constructor; [done|]. rewrite sort_insert_Permutation. constructor; [|done].
    destruct (before_total x y); congruence.
Qed.

Lemma js_sort_sorted (l : list A) :
  StronglySorted (λ a b, before a b = true) (js_sort before l).
Proof.
  induction l as [|x l IH]; simpl; [constructor|]. by apply sort_insert_sorted.
Qed.

End SortFacts.

Lemma StronglySorted_weaken {A} (R R' : A → A → Prop) (l : list A) :
  (∀ a b, R a b → R' a b) → StronglySorted R l → StronglySorted R' l.
Proof.
  intros Himpl. induction 1 as [|x l Hl IH Hx]; constructor; [done|].
  eapply Forall_impl; [exact Hx|]. intros y. apply Himpl.
Qed.

(** ** SmartTimeout *)

Module SmartTimeoutFacts.
Import SmartTimeout.

Example p95Index_of_20 : p95Index 20 = 18.
Proof. reflexivity. Qed.

Example p95Index_of_19 : p95Index 19 = 18.
Proof. reflexivity. Qed.

(** Three successes of 1, 2 and 9 seconds: the percentile is 9000, the
    buffer 2000, the timeout 11000. *)
Example calculateAdaptiveTimeout_three :
  calculateAdaptiveTimeout default_config
    [mkMetrics 2000 0 true "t"; mkMetrics 9000 1 true "t";
     mkMetrics 50000 2 false "t"; mkMetrics 1000 3 true "t"] = 11000.
Proof. reflexivity. Qed.

Example calculateAdaptiveTimeout_failures_only :
  calculateAdaptiveTimeout default_config [mkMetrics 30000 0 false "t"] = 30000.
Proof. reflexivity. Qed.

Lemma p95Index_range (n : nat) : (0 < n)%nat → 0 ≤ p95Index n < Z.of_nat n.
Proof.
  intros Hn. unfold p95Index.
  set (q := (inject_Z (Z.of_nat n) * (95 # 100))%Q).
  assert (q <= inject_Z (Z.of_nat n))%Q as Hle.
  { unfold q, Qle, Qmult, inject_Z. simpl. lia. }
  assert (0 < q)%Q as Hpos.
  { unfold q, Qlt, Qmult, inject_Z. simpl. lia. }
  pose proof (Qceiling_resp_le _ _ Hle) as Hup. rewrite Qceiling_Z in Hup.
  pose proof (Qle_ceiling q) as Hq.
  assert (0 < inject_Z (Qceiling q))%Q as Hc by (eapply Qlt_le_trans; eauto).
  unfold Qlt, inject_Z in Hc. simpl in Hc. lia.
Qed.

Lemma percentile95_is_Some (sample : list Z) :
  sample ≠ [] → is_Some (percentile95 sample).
Proof.
  intros Hne. unfold percentile95. apply lookup_lt_is_Some.
  rewrite length_js_sort.
  assert (0 < length sample)%nat as Hlen by (destruct sample; [done|simpl; lia]).
  pose proof (p95Index_range _ Hlen). lia.
Qed.

Lemma max_list_ge d (l : list Z) x : x ∈ l → x ≤ max_list d l.
Proof.
  unfold max_list. induction l as [|y l IH]; [by intros ?%elem_of_nil|].
  intros [->|Hin]%elem_of_cons; simpl; [lia|]. specialize (IH Hin). lia.
Qed.

Lemma percentile95_elem (sample : list Z) p95 :
  percentile95 sample = Some p95 → p95 ∈ sample.
Proof.
  unfold percentile95. intros Hp%list_elem_of_lookup_2.
  by rewrite js_sort_Permutation in Hp.
Qed.

Lemma ceiling_with_buffer (p : Z) (b : Q) :
  (inject_Z 2000 <= b)%Q → p + 2000 ≤ Qceiling (inject_Z p + b).
Proof.
  intros Hb. rewrite <- (Qceiling_Z (p + 2000)). apply Qceiling_resp_le.
  rewrite inject_Z_plus. by apply Qplus_le_r.
Qed.

(** C4 (as amended).  With no successful duration among the recent
    records the adaptive timeout is the base timeout.  Otherwise, with
    [p95] the nearest-rank 95th percentile of the (at most 20) most
    recent successful durations: when [p95] is not zero the timeout is
    [ceil(p95 + max(avg * 0.5, 2000))] clamped to
    [[minTimeout, maxTimeout]]; it never exceeds [maxTimeout]; it is at
    least [minTimeout] when [minTimeout <= maxTimeout]; and it is at
    least [p95 + 2000] or else equal to the cap [maxTimeout]. *)
Theorem calculateAdaptiveTimeout_clamped cfg history :
  let sample := map duration (recentSuccessful cfg history) in
  let timeout := calculateAdaptiveTimeout cfg history in
  (sample = [] → timeout = baseTimeout cfg) ∧
  (sample ≠ [] →
     ∃ p95,
       percentile95 sample = Some p95 ∧
       (p95 ≠ 0 →
          timeout = clamp (minTimeout cfg) (maxTimeout cfg)
            (Qceiling (inject_Z p95 +
                       Qmax (average sample * (5 # 10)) (inject_Z 2000)))) ∧
       Z.min (maxTimeout cfg) (p95 + 2000) ≤ timeout ∧
       timeout ≤ maxTimeout cfg ∧
       (minTimeout cfg ≤ maxTimeout cfg → minTimeout cfg ≤ timeout)).
Proof.
  intros sample timeout. subst timeout.
  assert (history = [] → sample = []) as Hnil.
  { intros ->. subst sample. unfold recentSuccessful, slice_last.
    by destruct (Nat.min _ _). }
  unfold calculateAdaptiveTimeout. fold sample. clearbody sample. split.
  - intros ->. by destruct history.
  - intros Hne.
    destruct (percentile95_is_Some sample Hne) as [p95 Hp]. exists p95.
    split; [done|].
    destruct history as [|m history']; [by destruct Hne; apply Hnil|]. clear Hnil.
    destruct sample as [|d0 rest] eqn:Hs; [done|]. rewrite <- Hs in *.
    fold (average sample). unfold percentile95 in Hp. rewrite Hp.
    set (buffer := Qmax (average sample * (5 # 10)) (inject_Z 2000)).
    assert (inject_Z 2000 <= buffer)%Q as Hbuf by apply Q.le_max_r.
    pose proof (percentile95_elem sample p95 Hp) as Hin.
    pose proof (max_list_ge d0 sample p95 Hin) as Hmax.
    pose proof (ceiling_with_buffer p95 buffer Hbuf) as H1.
    pose proof (ceiling_with_buffer (max_list d0 sample) buffer Hbuf) as H2.
    split_and!.
    + intros Hnz. unfold clamp. by destruct p95.
    + destruct p95; lia.
    + lia.
    + destruct p95; lia.
Qed.

(** C4, counterexample.  After one successful request of 119000 ms the
    timeout under the default configuration is the cap, 120000 ms, which
    is less than the percentile plus the minimum buffer, 121000 ms. *)
Lemma adaptive_timeout_capped_below_p95_plus_buffer :
  ¬ adaptive_timeout_as_specified default_config slow_history.
Proof.
  intros [_ Hspec].
  destruct Hspec as (p95 & buffer & Hp & _ & _ & Hlow & _); [done|].
  vm_compute in Hp. injection Hp as <-.
  vm_compute in Hlow. by apply Hlow.
Qed.

Lemma calculateAdaptiveTimeout_clamped_witness :
  ∃ p95,
    percentile95 (map duration (recentSuccessful default_config slow_history)) = Some p95 ∧
    Z.min 120000 (p95 + 2000) ≤ calculateAdaptiveTimeout default_config slow_history ∧
    calculateAdaptiveTimeout default_config slow_history ≤ 120000.
Proof.
  destruct (calculateAdaptiveTimeout_clamped default_config slow_history) as [_ Hsome].
  destruct Hsome as (p95 & Hp & _ & Hlow & Hcap & _); [done|].
  exists p95. split_and!; [exact Hp|exact Hlow|exact Hcap].
Defined.

Lemma calculateAdaptiveTimeout_slow_history :
  calculateAdaptiveTimeout default_config slow_history = 120000.
Proof. reflexivity. Qed.

End SmartTimeoutFacts.

(** ** CopilotSearchAgent *)

Module CopilotFacts.
Import Copilot.

(** *** Query generation *)

Lemma generateMultipleQueries_no_match response query n :
  match_queries response = None →
  generateMultipleQueries response query n = [query].
Proof. unfold generateMultipleQueries. by intros ->. Qed.

Lemma generateMultipleQueries_at_most response query n :
  is_Some (match_queries response) →
  (length (generateMultipleQueries response query n) ≤ n)%nat.
Proof.
  unfold generateMultipleQueries. intros [group ->]. rewrite length_take. lia.
Qed.

Example trim_both_ends : trim (js "  a b	 ") = js "a b".
Proof. reflexivity. Qed.

Example split_lines_trailing : split_lines (js "a

b") = [js "a"; []; js "b"].
Proof. reflexivity. Qed.

(** Without both tags the regular expression does not match. *)
Example generateMultipleQueries_no_opening_tag :
  generateMultipleQueries (js "rust ownership
</queries>") (js "rust") 3 = [js "rust"].
Proof. reflexivity. Qed.

Lemma generateMultipleQueries_two_lines :
  generateMultipleQueries
    (js "Sure. <queries>
 rust ownership
borrow checker
</queries>") (js "rust") (maxQueries_of balanced)
  = [js "rust ownership"; js "borrow checker"].
Proof. reflexivity. Qed.

(** C5, the failing input.  When the model answers with an empty
    [<queries>] block the regular expression matches, the block holds no
    usable line, and the result is the empty list: neither one
    sub-query nor the original query. *)
Theorem generateMultipleQueries_empty_block :
  generateMultipleQueries (js "<queries></queries>") (js "what is rust")
    (maxQueries_of balanced) = [] ∧
  generateMultipleQueries (js "<queries>
   
</queries>") (js "what is rust") (maxQueries_of quality) = [].
Proof. split; reflexivity. Qed.

(** *** Deduplication by URL *)

Lemma findIndex_Some {A} (p : A → bool) (l : list A) i :
  findIndex p l = Some i ↔
  (∃ x, l !! i = Some x ∧ p x = true) ∧
  (∀ j y, (j < i)%nat → l !! j = Some y → p y = false).
Proof.
  revert i. induction l as [|x l IH]; intros i; simpl.
  - split; [done|]. by intros [(? & ? & _) _].
  - destruct (p x) eqn:Hx.
    + split.
      * intros [= <-]. split; [by exists x|]. intros; lia.
      * intros [_ Hmin]. destruct i as [|i]; [done|].
        specialize (Hmin O x). simpl in Hmin. rewrite Hmin in Hx; [done|lia|done].
    + rewrite fmap_Some. split.
      * intros (i' & Hi' & ->). apply IH in Hi' as [Hex Hmin]. split; [done|].
        intros [|j] y Hj; simpl; [by intros [= <-]|]. apply Hmin. lia.
      * intros [(y & Hy & Hpy) Hmin]. destruct i as [|i]; simpl in Hy.
        { injection Hy as <-. congruence. }
        exists i. split; [|done]. apply IH. split; [by exists y|].
        intros j z Hj Hz. apply (Hmin (S j) z); [lia|done].
Qed.

Lemma findIndex_first_occurrence (seen : list Document) d l :
  findIndex (λ d', bool_decide (url d' = url d)) (seen ++ d :: l) = Some (length seen)
  ↔ url d ∉ url <$> seen.
Proof.
  rewrite findIndex_Some. split.
  - intros [_ Hmin] (d' & Hurl & Hin)%list_elem_of_fmap.
    apply list_elem_of_lookup in Hin as [j Hj].
    pose proof (lookup_lt_Some _ _ _ Hj) as Hlt.
    specialize (Hmin j d' Hlt). rewrite lookup_app_l in Hmin by done.
    specialize (Hmin Hj). apply bool_decide_eq_false in Hmin. congruence.
  - intros Hnew. split.
    + exists d. rewrite list_lookup_middle by done. split; [done|].
      by apply bool_decide_eq_true.
    + intros j y Hj Hy. rewrite lookup_app_l in Hy by done.
      apply bool_decide_eq_false. intros Hurl. apply Hnew.
      apply list_elem_of_fmap. exists y. split; [done|].
      by eapply list_elem_of_lookup_2.
Qed.

Lemma filter_indexed_first_by_url (seen l : list Document) :
  filter_indexed
    (λ index doc,
       bool_decide (findIndex (λ d, bool_decide (url d = url doc)) (seen ++ l)
                    = Some index))
    (length seen) l
  = first_by_url seen l.
Proof.
  revert seen. induction l as [|d l IH]; intros seen; simpl; [done|].
  specialize (IH (seen ++ [d])). rewrite <- app_assoc, length_app in IH.
  simpl in IH. replace (length seen + 1)%nat with (S (length seen)) in IH by lia.
  rewrite IH. pose proof (findIndex_first_occurrence seen d l) as Hfirst.
  case_bool_decide as Hidx; case_decide as Hseen; naive_solver.
Qed.

Lemma uniqueDocs_first_by_url docs : uniqueDocs docs = first_by_url [] docs.
Proof. apply (filter_indexed_first_by_url [] docs). Qed.

Lemma first_by_url_elem seen l d :
  d ∈ first_by_url seen l → d ∈ l ∧ url d ∉ url <$> seen.
Proof.
  revert seen d. induction l as [|x l IH]; intros seen d; simpl; [by intros ?%elem_of_nil|].
  assert (∀ d, d ∈ first_by_url (seen ++ [x]) l → d ∈ x :: l ∧ url d ∉ url <$> seen) as Hrec.
  { intros d' [Hin Hnew]%IH. split; [by right|].
    intros ?. apply Hnew. rewrite fmap_app. apply elem_of_app. by left. }
  case_decide as Hseen; [apply Hrec|].
  intros [->|Hin]%elem_of_cons; [split; [by left|done]|by apply Hrec].
Qed.

Lemma first_by_url_NoDup seen l : NoDup (url <$> first_by_url seen l).
Proof.
  revert seen. induction l as [|x l IH]; intros seen; simpl; [constructor|].
  case_decide as Hseen; [apply IH|].
  rewrite fmap_cons. constructor; [|apply IH].
  intros (d & Hurl & [_ Hnew]%first_by_url_elem)%list_elem_of_fmap.
  apply Hnew. rewrite fmap_app, <- Hurl. apply elem_of_app. right. simpl. by left.
Qed.

Lemma first_by_url_sublist seen l : first_by_url seen l `sublist_of` l.
Proof.
  revert seen. induction l as [|x l IH]; intros seen; simpl; [constructor|].
  case_decide; [by apply sublist_cons|by apply sublist_skip].
Qed.

Lemma first_by_url_covers seen l d :
  d ∈ l →
  url d ∈ url <$> seen ∨ ∃ d', d' ∈ first_by_url seen l ∧ url d' = url d.
Proof.
  revert seen. induction l as [|x l IH]; intros seen; [by intros ?%elem_of_nil|].
  intros [->|Hin]%elem_of_cons; simpl.
  - case_decide; [by left|]. right. exists x. split; [by left|done].
  - destruct (IH (seen ++ [x]) Hin) as [Hseen|(d' & Hd' & Hurl)].
    + rewrite fmap_app in Hseen. apply elem_of_app in Hseen as [?|Hx]; [by left|].
      simpl in Hx. apply list_elem_of_singleton in Hx.
      case_decide as Hsx; [left; congruence|].
      right. exists x. split; [by left|done].
    + right. exists d'. split; [|done]. case_decide; [done|by right].
Qed.

(** *** Ranking *)

Lemma above_iff threshold (it : item) :
  above threshold it = true ↔ (threshold < it.1)%Q.
Proof.
  unfold above. rewrite negb_true_iff, <- not_true_iff_false, Qle_bool_iff.
  split; [apply Qnot_le_lt|apply Qlt_not_le].
Qed.

Lemma by_similarity_desc_total (a b : item) :
  by_similarity_desc a b = true ∨ by_similarity_desc b a = true.
Proof.
  unfold by_similarity_desc. rewrite !Qle_bool_iff.
  destruct (Qlt_le_dec a.1 b.1); [right; by apply Qlt_le_weak|by left].
Qed.

Lemma by_similarity_desc_trans (a b c : item) :
  by_similarity_desc a b = true → by_similarity_desc b c = true →
  by_similarity_desc a c = true.
Proof.
  unfold by_similarity_desc. rewrite !Qle_bool_iff. intros ? ?. by eapply Qle_trans.
Qed.

(** C6 (as amended).  For a non-empty list of documents: the
    deduplicated list [unique] keeps the first document of every URL,
    in order; if the embedding call fails the result is the first 15 of
    [unique]; otherwise the result is the first 15 documents of [kept],
    where [kept] holds exactly the scored documents whose similarity is
    strictly greater than the threshold (a score equal to the threshold
    is discarded too), in descending order of similarity. *)
Theorem rerankAndDeduplicate_keeps_strictly_above cfg docs :
  docs ≠ [] →
  let unique := uniqueDocs docs in
  NoDup (url <$> unique) ∧
  unique `sublist_of` docs ∧
  (∀ d, d ∈ docs → ∃ d', d' ∈ unique ∧ url d' = url d) ∧
  rerankAndDeduplicate cfg docs None = take 15 unique ∧
  ∀ sims, length sims = length unique →
    ∃ kept : list item,
      kept ≡ₚ filter (λ it, above (rerankThreshold cfg) it = true) (zip sims unique) ∧
      (∀ it, it ∈ kept ↔ it ∈ zip sims unique ∧ (rerankThreshold cfg < it.1)%Q) ∧
      StronglySorted (λ a b : item, (b.1 <= a.1)%Q) kept ∧
      rerankAndDeduplicate cfg docs (Some sims) = snd <$> take 15 kept ∧
      (length (rerankAndDeduplicate cfg docs (Some sims)) ≤ 15)%nat.
Proof.
  intros Hne unique. subst unique. rewrite uniqueDocs_first_by_url.
  split_and!.
  - apply first_by_url_NoDup.
  - apply first_by_url_sublist.
  - intros d Hd. destruct (first_by_url_covers [] docs d Hd) as [Hin|?]; [|done].
    by apply elem_of_nil in Hin.
  - destruct docs; [done|]. unfold rerankAndDeduplicate.
    by rewrite uniqueDocs_first_by_url.
  - intros sims Hlen.
    set (above_thr := filter (λ it, above (rerankThreshold cfg) it = true)
                        (zip sims (first_by_url [] docs))).
    exists (js_sort by_similarity_desc above_thr). split_and!.
    + apply js_sort_Permutation.
    + intros it. rewrite js_sort_Permutation. unfold above_thr.
      by rewrite list_elem_of_filter, above_iff, (comm and).
    + eapply StronglySorted_weaken;
        [|apply js_sort_sorted;
          [apply by_similarity_desc_total|apply by_similarity_desc_trans]].
      intros a b. unfold by_similarity_desc. by rewrite Qle_bool_iff.
    + destruct docs; [done|]. unfold rerankAndDeduplicate, ranked.
      by rewrite uniqueDocs_first_by_url.
    + destruct docs; [done|]. unfold rerankAndDeduplicate, ranked.
      rewrite length_fmap, length_take. lia.
Qed.

Lemma rerankAndDeduplicate_keeps_strictly_above_witness :
  [doc_a; doc_a'; doc_b] ≠ [] ∧
  rerankAndDeduplicate default_config [doc_a; doc_a'; doc_b] None = [doc_a; doc_b] ∧
  rerankAndDeduplicate default_config [doc_a; doc_a'; doc_b] (Some [8 # 10; 9 # 10])
    = [doc_b; doc_a].
Proof.
  split; [done|].
  destruct (rerankAndDeduplicate_keeps_strictly_above default_config
              [doc_a; doc_a'; doc_b]) as (_ & _ & _ & Hfail & _); [done|].
  split; [exact Hfail|reflexivity].
Defined.

(** C6, counterexample.  A document whose similarity equals the
    threshold is not below it, so the specification keeps it; the code
    discards it. *)
Lemma rerank_discards_score_equal_to_threshold :
  rerank_as_specified default_config [doc_a] [7 # 10] = [doc_a] ∧
  rerankAndDeduplicate default_config [doc_a] (Some [7 # 10]) = [] ∧
  rerankAndDeduplicate default_config [doc_a] (Some [7 # 10])
    ≠ rerank_as_specified default_config [doc_a] [7 # 10].
Proof. split_and!; [reflexivity|reflexivity|discriminate]. Qed.

(** *** The answer cache *)

Lemma config_get {T} (c : SearchCache.t T) now key :
  SearchCache.config (SearchCache.get c now key).2 = SearchCache.config c.
Proof.
  unfold SearchCache.get. destruct (SearchCache.cache c !! key) as [e|]; [|done].
  by destruct (SearchCache.isExpired now e).
Qed.

Lemma get_miss_absent {T} (c : SearchCache.t T) now key :
  (SearchCache.get c now key).1 = None →
  SearchCache.cache (SearchCache.get c now key).2 !! key = None.
Proof.
  unfold SearchCache.get. destruct (SearchCache.cache c !! key) as [e|] eqn:He; [|done].
  destruct (SearchCache.isExpired now e); [|done]. intros _. apply lookup_delete_eq.
Qed.

Lemma consume_answer evs : (consume EmptyString evs).1 = answer_of (mkStream evs None).
Proof. done. Qed.

(** The cache in front of the pipeline, for a stream from which
    [handleStream] accumulates an answer (events [on_llm_stream] named
    [CopilotResponseGenerator]).  Let the first call for
    [(message, mode)] find nothing in the cache and let its stream end
    normally with a non-empty accumulated answer.
    Then the call returns, has started the chain once, ends with the
    [end] event and leaves the answer in the cache under the key of
    [(message, "copilot", mode)]; and every next call for the same
    [(message, mode)] made no later than [defaultTTL] after the answer
    was stored emits exactly the cached answer and [end] and does not
    start the chain (no query generation, no search). *)
Theorem repeated_query_served_from_cache
    (generateKey : string → string → string → string)
    (c : SearchCache.t string) (now done : Z) (message : string)
    (mode : optimizationMode) (st : stream) :
  (∀ q f o, generateKey q f o ≠ EmptyString) →
  SearchCache.wf c → (1 ≤ SearchCache.maxSize (SearchCache.config c))%nat →
  let key := generateKey message "copilot" (mode_name mode) in
  (SearchCache.get c now key).1 = None →
  failure st = None → answer_of st ≠ EmptyString →
  ∃ r1,
    searchAndAnswer generateKey c now message mode st done = Some r1 ∧
    chain_runs r1 = 1%nat ∧
    last (emitted_events r1) = Some End ∧
    (SearchCache.data <$> SearchCache.cache (cache_after r1) !! key)
      = Some (answer_of st) ∧
    ∀ now' st' done',
      now' ≤ done + SearchCache.defaultTTL (SearchCache.config c) →
      ∃ r2,
        searchAndAnswer generateKey (cache_after r1) now' message mode st' done'
          = Some r2 ∧
        emitted_events r2 = [Data "response" (answer_of st); End] ∧
        chain_runs r2 = 0%nat.
Proof.
  intros Hdigest Hwf Hcap key Hmiss Hok Hanswer.
  unfold searchAndAnswer. fold key.
  pose proof (SearchCacheFacts.wf_get c now key Hwf) as Hwf1.
  pose proof (config_get c now key) as Hcfg1.
  pose proof (get_miss_absent c now key Hmiss) as Habsent.
  destruct (SearchCache.get c now key) as [cached c1]. simpl in *. subst cached.
  unfold handleStream. rewrite Hok. unfold answer_of in *.
  destruct (consume EmptyString (events st)) as [answer out]. simpl in *.
  rewrite bool_decide_eq_true_2 by done. fold key.
  destruct (SearchCacheFacts.set_returns c1 done key answer None Hwf1 (Hdigest _ _ _))
    as (c2 & Hset & Hwf2 & Hcfg2 & _ & _ & Hentry).
  { right. by rewrite Hcfg1. }
  rewrite Hset. simpl. eexists. split; [done|]. simpl. split_and!.
  - done.
  - apply last_snoc.
  - by rewrite Hentry.
  - intros now' st' done' Hnow. unfold SearchCache.get. rewrite Hentry.
    unfold SearchCache.isExpired. simpl.
    rewrite bool_decide_eq_false_2 by (rewrite Hcfg1; lia).
    rewrite bool_decide_eq_true_2 by done. by eexists.
Qed.

Lemma repeated_query_served_from_cache_witness :
  ∃ r1,
    example_run = Some r1 ∧
    emitted_events r1 =
      [Data "status" "Searching multiple sources..."; Data "response" "Plants ";
       Data "response" "make sugar."; End] ∧
    ∃ r2,
      searchAndAnswer example_key (cache_after r1) 5000 example_question balanced
        example_stream 9000 = Some r2 ∧
      emitted_events r2 = [Data "response" "Plants make sugar."; End] ∧
      chain_runs r2 = 0%nat.
Proof.
  destruct (repeated_query_served_from_cache example_key searchResultCache 0 4000
              example_question balanced example_stream)
    as (r1 & Hrun & _ & _ & _ & Hnext).
  - intros q f o. discriminate.
  - apply (SearchCacheFacts.wf_new (Some 500%nat) (Some (15 * 60 * 1000)) None).
  - simpl. lia.
  - reflexivity.
  - reflexivity.
  - discriminate.
  - exists r1. split; [exact Hrun|]. split.
    + vm_compute in Hrun. injection Hrun as <-. reflexivity.
    + apply (Hnext 5000 example_stream 9000). simpl. lia.
Defined.

(** [handleStream] accumulates nothing from a stream that has no
    [on_llm_stream] event named [CopilotResponseGenerator]. *)
Lemma consume_without_chunks r evs :
  Forall (λ ev, is_chunk ev = false) evs → (consume r evs).1 = r.
Proof.
  revert r. induction evs as [|ev evs IH]; intros r Hevs; [done|].
  apply Forall_cons in Hevs as [Hev Hevs]. simpl. unfold handle_event. rewrite Hev.
  specialize (IH r Hevs).
  repeat (match goal with |- context [if ?b then _ else _] => destruct b end);
    by destruct (consume r evs).
Qed.

(** C8, the failing input.  A run of the pipeline that completes:
    the chain streams its answer in [on_chain_stream] events named
    [CopilotResponseGenerator] and the model in [on_llm_stream] events
    named after the model.  [handleStream] looks for [on_llm_stream]
    events named [CopilotResponseGenerator], finds none, and its
    [fullResponse] stays empty: the client receives the status message
    and [end] but no answer, nothing is stored in the cache, and the
    next identical call, five seconds later, runs the chain again. *)
Theorem completed_run_is_not_cached :
  Forall (λ ev, is_chunk ev = false) (events chain_stream) ∧
  answer_of chain_stream = EmptyString ∧
  ∃ r1,
    searchAndAnswer example_key searchResultCache 0 example_question balanced
      chain_stream 4000 = Some r1 ∧
    emitted_events r1 = [Data "status" "Searching multiple sources..."; End] ∧
    cache_after r1 = searchResultCache ∧
    ∃ r2,
      searchAndAnswer example_key (cache_after r1) 5000 example_question balanced
        chain_stream 9000 = Some r2 ∧
      emitted_events r2 = [Data "status" "Searching multiple sources..."; End] ∧
      chain_runs r2 = 1%nat.
Proof.
  split; [by repeat constructor|]. split; [reflexivity|].
  eexists. split; [reflexivity|]. split; [reflexivity|]. split; [reflexivity|].
  eexists. split; [reflexivity|]. split; reflexivity.
Qed.

End CopilotFacts.


(** ** RequestDeduplicator *)

Module DeduplicatorFacts.
Import Deduplicator.

Lemma wf_new_deduplicator mpt ci en : wf (new mpt ci en).
Proof. intros p [o Ho]. simpl in Ho. by rewrite lookup_empty in Ho. Qed.

Lemma wf_with_pending s m : wf s → wf (with_pending s m).
Proof. intros Hwf p Hp. by apply Hwf. Qed.

Lemma wf_call_requestFn s key : wf s → wf (call_requestFn s key).2.
Proof.
  intros Hwf p Hp. simpl. rewrite length_app. specialize (Hwf p Hp). simpl. lia.
Qed.

Lemma wf_deduplicate s now key : wf s → wf (deduplicate s now key).2.
Proof.
  intros Hwf. unfold deduplicate.
  destruct (enabled (config s)); simpl; [|by apply wf_call_requestFn].
  destruct (pendingRequests s !! key) as [e|]; [case_bool_decide|]; simpl.
  - by apply wf_with_pending.
  - apply wf_with_pending.
    by apply (wf_call_requestFn (with_pending s _) key), wf_with_pending.
  - by apply wf_with_pending, (wf_call_requestFn s key).
Qed.

Lemma wf_step s ev : wf s → wf (step s ev).2.
Proof.
  intros Hwf. destruct ev as [key now|p o|now|]; simpl; try done.
  - pose proof (wf_deduplicate s now key Hwf). by destruct (deduplicate s now key).
  - unfold settle. destruct (settled s !! p) eqn:Hp; [done|].
    destruct (started s !! p) as [key|] eqn:Hk; [|done].
    intros p' Hp'. simpl in *. rewrite lookup_insert in Hp'.
    case_decide; [subst; by eapply lookup_lt_Some|by apply Hwf].
Qed.

Lemma count_key_snoc (l : list string) key k :
  length (filter (λ k', k' = key) (l ++ [k]))
  = (length (filter (λ k', k' = key) l) + (if decide (k = key) then 1 else 0))%nat.
Proof.
  rewrite filter_app, length_app. f_equal.
  rewrite filter_cons, filter_nil. by case_decide.
Qed.

(** A call that finds an entry younger than [maxPendingTime] joins it:
    it receives the promise of the entry and starts nothing. *)
Lemma deduplicate_joins_pending s now key e :
  enabled (config s) = true →
  pendingRequests s !! key = Some e →
  now - timestamp e < maxPendingTime (config s) →
  (deduplicate s now key).1 = promise e ∧
  started (deduplicate s now key).2 = started s ∧
  (requestCount <$> pendingRequests (deduplicate s now key).2 !! key)
    = Some (S (requestCount e)).
Proof.
  intros Hen He Hyoung. unfold deduplicate. rewrite Hen, He. simpl.
  rewrite bool_decide_eq_true_2 by done. simpl. by rewrite lookup_insert_eq.
Qed.

(** A disabled deduplicator never registers anything, so an entry in
    [pendingRequests] is the entry of an enabled one. *)
Lemma disabled_never_registers s ev :
  enabled (config s) = false → pendingRequests s = ∅ →
  enabled (config (step s ev).2) = false ∧ pendingRequests (step s ev).2 = ∅.
Proof.
  intros Hoff Hempty. destruct ev as [key now|p o|now|]; simpl.
  - unfold deduplicate. by rewrite Hoff.
  - unfold settle. destruct (settled s !! p); [done|].
    destruct (started s !! p); [|done]. simpl. by rewrite Hoff.
  - split; [done|]. rewrite Hempty. apply map_filter_empty.
  - done.
Qed.

(** The first call for an idle key starts the operation and registers
    it. *)
Lemma deduplicate_first_call s key t0 :
  wf s → enabled (config s) = true → idle s key →
  ∃ s1, deduplicate s t0 key = (length (started s), s1) ∧
        shared s1 key t0 (length (started s)) ∧
        config s1 = config s ∧
        invocations s1 key = S (invocations s key).
Proof.
  intros Hwf Hen [Hnone Hidle]. unfold deduplicate. rewrite Hen, Hnone. simpl.
  eexists. split; [done|]. unfold shared. split_and!; simpl.
  - done.
  - eexists. split; [apply lookup_insert_eq|done].
  - by apply list_lookup_middle.
  - destruct (settled s !! length (started s)) as [o|] eqn:Hs; [|done].
    assert (length (started s) < length (started s))%nat; [|lia].
    apply Hwf. by rewrite Hs.
  - intros p' Hp' Hne. apply Hidle.
    apply lookup_app_Some in Hp' as [?|[Hge Hp']]; [done|].
    apply list_lookup_singleton_Some in Hp' as [? _].
    assert (p' = length (started s)) by lia. done.
  - done.
  - unfold invocations. simpl. rewrite count_key_snoc, decide_True by done. lia.
Qed.

(** While the operation is pending every event keeps its registration,
    starts no other execution for the key, and hands the shared promise
    to every caller of the key. *)
Lemma shared_step s key t0 p ev :
  shared s key t0 p → while_pending (config s) key t0 p ev →
  shared (step s ev).2 key t0 p ∧
  config (step s ev).2 = config s ∧
  invocations (step s ev).2 key = invocations s key ∧
  (is_call_for key ev → (step s ev).1 = Some p).
Proof.
  intros (Hen & (e & He & Hp & Ht) & Hstarted & Hpending & Hothers) Hev.
  destruct ev as [key' now|p' o|now|]; simpl in *; [| | |done].
  - unfold deduplicate. rewrite Hen. simpl.
    destruct (decide (key' = key)) as [->|Hne].
    + rewrite He. rewrite bool_decide_eq_true_2 by (rewrite Ht; by apply Hev).
      simpl. unfold shared. split_and!; simpl; try done.
      * eexists. split; [apply lookup_insert_eq|done].
      * by rewrite Hp.
    + assert (∀ m, m !! key = Some e →
        let s' := {| config := config s; pendingRequests := m;
                     started := started s ++ [key']; settled := settled s |} in
        shared s' key t0 p ∧ invocations s' key = invocations s key) as Hmiss.
      { intros m Hm. unfold shared, invocations. simpl. split_and!.
        - done.
        - by exists e.
        - by apply lookup_app_l_Some.
        - done.
        - intros q Hq Hqp. apply Hothers; [|done].
          apply lookup_app_Some in Hq as [?|[_ Hq]]; [done|].
          apply list_lookup_singleton_Some in Hq as [_ ?]. done.
        - rewrite count_key_snoc, decide_False by done. lia. }
      destruct (pendingRequests s !! key') as [e'|] eqn:He'.
      * case_bool_decide; simpl.
        -- unfold shared. split_and!; simpl; try done.
           exists e. by rewrite lookup_insert_ne.
        -- destruct (Hmiss (<[key' := {| promise := length (started s);
                                         timestamp := now; requestCount := 1 |}]>
                              (delete key' (pendingRequests s)))) as [H1 H3].
           { rewrite lookup_insert_ne by done. by rewrite lookup_delete_ne. }
           split_and!; [exact H1|done|exact H3|done].
      * destruct (Hmiss (<[key' := {| promise := length (started s);
                                      timestamp := now; requestCount := 1 |}]>
                           (pendingRequests s))) as [H1 H3].
        { by rewrite lookup_insert_ne. }
        split_and!; [exact H1|done|exact H3|done].
  - unfold settle.
    assert (shared s key t0 p) as Hsh by (unfold shared; eauto 10).
    destruct (settled s !! p') as [o'|] eqn:Hs'; [done|].
    destruct (started s !! p') as [key'|] eqn:Hk'; [|done].
    rewrite Hen. simpl.
    assert (key' ≠ key) as Hne.
    { intros ->. destruct (Hothers p' Hk' Hev) as [? ?]. congruence. }
    unfold shared. split_and!; simpl; try done.
    + exists e. by rewrite lookup_delete_ne.
    + by rewrite lookup_insert_ne.
    + intros q Hq Hqp. destruct (Hothers q Hq Hqp) as [oq Hoq].
      rewrite lookup_insert. case_decide; eauto.
  - unfold shared. split_and!; simpl; try done. exists e. split; [|done].
    apply map_lookup_filter_Some. split; [done|]. simpl. lia.
Qed.

Lemma shared_run s key t0 p evs :
  shared s key t0 p → Forall (while_pending (config s) key t0 p) evs →
  shared (run s evs).2 key t0 p ∧
  config (run s evs).2 = config s ∧
  invocations (run s evs).2 key = invocations s key ∧
  Forall2 (λ ev r, is_call_for key ev → r = Some p) evs (run s evs).1.
Proof.
  revert s. induction evs as [|ev evs IH]; intros s Hsh Hevs; simpl.
  { by split_and!. }
  apply Forall_cons in Hevs as [Hev Hevs].
  destruct (shared_step s key t0 p ev Hsh Hev) as (Hsh1 & Hcfg1 & Hinv1 & Hret1).
  destruct (step s ev) as [r s1]. simpl in *.
  destruct (IH s1 Hsh1) as (Hsh2 & Hcfg2 & Hinv2 & Hret2); [by rewrite Hcfg1|].
  destruct (run s1 evs) as [rs s2]. simpl in *.
  split_and!; [done|congruence|congruence|by constructor].
Qed.

Lemma Forall2_zip_elem {A B} (P : A → B → Prop) (l : list A) (k : list B) x y :
  Forall2 P l k → (x, y) ∈ zip l k → P x y.
Proof.
  induction 1 as [|a b l k Hab Hlk IH]; simpl; [by intros ?%elem_of_nil|].
  intros [[= -> ->]|Hin]%elem_of_cons; [done|by apply IH].
Qed.

(** C2 (as amended).  Let no execution for [key] be in flight in an
    enabled deduplicator, and let a first call [deduplicate(key, op)]
    at time [t0] be followed by any events but [clear()] that can occur
    while its operation is pending and its entry is younger than
    [maxPendingTime]: further calls for [key] (at times [now] with
    [now - t0 < maxPendingTime]), calls for other keys, ends of other
    operations, periodic cleanups.
    Then [op] is invoked exactly once, and every caller of [key] (the
    first one included) receives the same promise [p], hence observes
    the same value or the same error when [p] ends; at that moment the
    registration of [key] is removed. *)
Theorem deduplicate_single_flight s key t0 evs :
  wf s → enabled (config s) = true → idle s key →
  let p := length (started s) in
  Forall (while_pending (config s) key t0 p) evs →
  let rets := (run s (Call key t0 :: evs)).1 in
  let s' := (run s (Call key t0 :: evs)).2 in
  invocations s' key = S (invocations s key) ∧
  Forall2 (λ ev r, is_call_for key ev → r = Some p) (Call key t0 :: evs) rets ∧
  observe s' p = None ∧
  ∀ o, (∀ ev r, (ev, r) ∈ zip (Call key t0 :: evs) rets → is_call_for key ev →
          ∃ q, r = Some q ∧ observe (settle s' p o) q = Some o) ∧
       pendingRequests (settle s' p o) !! key = None.
Proof.
  intros Hwf Hen Hidle p Hevs. simpl.
  destruct (deduplicate_first_call s key t0 Hwf Hen Hidle)
    as (s1 & Hfirst & Hsh & Hcfg & Hinv).
  rewrite Hfirst. fold p in Hsh |- *.
  destruct (shared_run s1 key t0 p evs Hsh) as (Hsh' & Hcfg' & Hinv' & Hrets).
  { by rewrite Hcfg. }
  destruct (run s1 evs) as [rs s2]. simpl in *.
  destruct Hsh' as (Hen2 & _ & Hst2 & Hse2 & _).
  assert (Forall2 (λ ev r, is_call_for key ev → r = Some p)
            (Call key t0 :: evs) (Some p :: rs)) as Hall by (by constructor).
  split_and!; [congruence|done|done|]. intros o.
  assert (settle s2 p o =
            {| config := config s2;
               pendingRequests := delete key (pendingRequests s2);
               started := started s2;
               settled := <[p := o]> (settled s2) |}) as ->.
  { unfold settle. by rewrite Hse2, Hst2, Hen2. }
  split; [|apply lookup_delete_eq].
  intros ev r Hin Hcall. exists p. unfold observe. simpl.
  rewrite lookup_insert_eq. split; [|done].
  by apply (Forall2_zip_elem _ _ _ _ _ Hall Hin).
Qed.

Lemma deduplicate_single_flight_witness :
  (run (new None None None) (Call "q" 0 :: example_events)).1
    = [Some 0; Some 0; Some 1; None; None; Some 0]%nat ∧
  invocations (run (new None None None) (Call "q" 0 :: example_events)).2 "q" = 1%nat.
Proof.
  destruct (deduplicate_single_flight (new None None None) "q" 0 example_events)
    as (Hinv & _).
  - apply wf_new_deduplicator.
  - reflexivity.
  - split; [reflexivity|]. intros p Hp. simpl in Hp. by rewrite lookup_nil in Hp.
  - repeat constructor; simpl; try lia; discriminate.
  - split; [reflexivity|exact Hinv].
Defined.

(** C2, counterexample.  [clear()] empties the table of pending
    operations while they run: the second call for ["q"], made one
    millisecond after the first while the operation of the first is
    still pending, starts a second operation and receives another
    promise. *)
Lemma clear_restarts_pending_key :
  (run (new None None None) cleared_events).1 = [Some 0; None; Some 1]%nat ∧
  invocations (run (new None None None) cleared_events).2 "q" = 2%nat ∧
  observe (run (new None None None) cleared_events).2 0 = None ∧
  ¬ single_flight_as_specified (new None None None) cleared_events.
Proof.
  split_and!; [reflexivity|reflexivity|reflexivity|].
  intros Hspec.
  specialize (Hspec 0%nat 2%nat "q" 0 1 0%nat).
  assert ((run (new None None None) cleared_events).1 !! 2%nat = Some (Some 0%nat))
    as Hsecond.
  { apply Hspec; [lia|reflexivity|reflexivity|reflexivity|reflexivity|reflexivity|].
    simpl. lia. }
  vm_compute in Hsecond. discriminate.
Qed.

End DeduplicatorFacts.

(** ** ParallelProcessor *)

Module ProcessorFacts.
Import Processor.

(** *** The invariant *)

Lemma inv_new mc dt ra rd : inv (new mc dt ra rd).
Proof.
  unfold inv. simpl. split_and!.
  - intros i j Hij. by rewrite lookup_empty in Hij.
  - intros j jb Hj. by rewrite lookup_nil in Hj.
  - intros j jb Hj. by rewrite lookup_nil in Hj.
Qed.

(** A submission under an id that is not registered creates a job and
    registers it. *)
Lemma executeTask_miss s tk :
  activeJobs s !! id tk = None →
  ∃ jb cs,
    executeTask s tk =
      (length (jobs s),
       {| config := config s;
          activeJobs := <[id tk := length (jobs s)]> (activeJobs s);
          jobs := jobs s ++ [jb];
          calls := calls s ++ cs |}) ∧
    job_task jb = tk ∧ resumed jb = false ∧
    (∀ n, retryAttempts (config s) = S n →
       cs = [{| call_fn := task tk; call_job := length (jobs s);
                call_outcome := None |}] ∧
       ∃ timer, job_phase jb = Racing (length (calls s)) timer).
Proof.
  intros Hnone. unfold executeTask, runTaskWithRetry. rewrite Hnone.
  destruct (retryAttempts (config s)) as [|n]; simpl.
  - eexists _, []. rewrite app_nil_r. split; [done|]. by split_and!.
  - eexists _, [_]. split; [done|]. split_and!; [done|done|].
    intros ? _. split; [done|by eexists].
Qed.

Lemma executeTask_hit s tk j :
  activeJobs s !! id tk = Some j → executeTask s tk = (j, s).
Proof. intros Hj. unfold executeTask. by rewrite Hj. Qed.

Lemma inv_executeTask s tk : inv s → inv (executeTask s tk).2.
Proof.
  intros Hinv. destruct (activeJobs s !! id tk) as [j|] eqn:Hj.
  { by rewrite (executeTask_hit _ _ _ Hj). }
  destruct (executeTask_miss s tk Hj) as (jb & cs & -> & Htask & Hres & _).
  destruct Hinv as (Ha & Hb & Hc). unfold inv. simpl. split_and!.
  - intros i j'. rewrite lookup_insert. case_decide as Hi.
    + intros [= <-]. exists jb. subst i.
      rewrite list_lookup_middle by done. by rewrite Htask.
    + intros Hij. destruct (Ha i j' Hij) as (jb' & Hjb' & ? & ?).
      exists jb'. split_and!; try done. by apply lookup_app_l_Some.
  - intros j' jb' Hj' Hres'.
    apply lookup_app_Some in Hj' as [Hold|[Hge Hnew]].
    + specialize (Hb j' jb' Hold Hres'). rewrite lookup_insert_ne; [done|].
      intros Heq. rewrite <- Heq in Hb. congruence.
    + apply list_lookup_singleton_Some in Hnew as [Hidx <-].
      rewrite Htask, lookup_insert_eq. f_equal. lia.
  - intros j' jb' Hj' Hres'.
    apply lookup_app_Some in Hj' as [Hold|[Hge Hnew]]; [by eapply Hc|].
    apply list_lookup_singleton_Some in Hnew as [_ <-]. congruence.
Qed.

(** Replacing a job by one with the same task and the same [resumed]
    flag keeps the invariant. *)
Lemma inv_set_job s j jb jb' cs :
  inv s → jobs s !! j = Some jb →
  job_task jb' = job_task jb → resumed jb' = resumed jb →
  (resumed jb' = true → ∃ o, job_phase jb' = Done o) →
  inv {| config := config s; activeJobs := activeJobs s;
         jobs := <[j := jb']> (jobs s); calls := cs |}.
Proof.
  intros (Ha & Hb & Hc) Hj Htask Hres Hdone.
  pose proof (lookup_lt_Some _ _ _ Hj) as Hlt.
  unfold inv. simpl. split_and!.
  - intros i j' Hij. destruct (Ha i j' Hij) as (jb0 & Hjb0 & Hid & Hr).
    destruct (decide (j' = j)) as [->|Hne].
    + exists jb'. rewrite list_lookup_insert_eq by done. split; [done|].
      assert (jb0 = jb) as -> by congruence. by rewrite Htask, Hres.
    + exists jb0. by rewrite list_lookup_insert_ne.
  - intros j' jb0 Hj' Hr. destruct (decide (j' = j)) as [->|Hne].
    + rewrite list_lookup_insert_eq in Hj' by done. injection Hj' as <-.
      rewrite Htask. apply Hb; [done|congruence].
    + rewrite list_lookup_insert_ne in Hj' by done. by apply Hb.
  - intros j' jb0 Hj' Hr. destruct (decide (j' = j)) as [->|Hne].
    + rewrite list_lookup_insert_eq in Hj' by done. injection Hj' as <-. by apply Hdone.
    + rewrite list_lookup_insert_ne in Hj' by done. by eapply Hc.
Qed.

Lemma inv_calls s cs :
  inv s →
  inv {| config := config s; activeJobs := activeJobs s; jobs := jobs s; calls := cs |}.
Proof. done. Qed.

Lemma inv_attempt_ended s j jb o :
  inv s → jobs s !! j = Some jb → (∀ o', job_phase jb ≠ Done o') →
  inv (attempt_ended s j jb o).
Proof.
  intros Hinv Hj Hrun. pose proof Hinv as (_ & _ & Hc).
  assert (resumed jb = false) as Hres.
  { destruct (resumed jb) eqn:Hr; [|done]. destruct (Hc j jb Hj Hr) as [o' ?].
    by destruct (Hrun o'). }
  unfold attempt_ended, set_job. destruct o as [v|e];
    (eapply inv_set_job; [done|done|done|done|]); simpl; congruence.
Qed.

Lemma inv_call_settles s c o : inv s → inv (call_settles s c o).
Proof.
  intros Hinv. unfold call_settles.
  destruct (calls s !! c) as [[f j [o'|]]|]; try done.
  set (s1 := {| config := config s; activeJobs := activeJobs s; jobs := jobs s;
                calls := _ |}).
  assert (inv s1) as Hinv1 by done.
  destruct (jobs s !! j) as [jb|] eqn:Hj; [|done].
  destruct (job_phase jb) as [c' tm|e|o'] eqn:Hph; try done.
  case_decide; [|done].
  apply inv_attempt_ended; [done|done|]. intros o'. congruence.
Qed.

Lemma inv_timer_fires s j : inv s → inv (timer_fires s j).
Proof.
  intros Hinv. unfold timer_fires.
  destruct (jobs s !! j) as [jb|] eqn:Hj; [|done].
  destruct (job_phase jb) as [c' tm|e|o'] eqn:Hph; try done.
  apply inv_attempt_ended; [done|done|]. intros o'. congruence.
Qed.

Lemma inv_delay_ends s j : inv s → inv (delay_ends s j).
Proof.
  intros Hinv. unfold delay_ends.
  destruct (jobs s !! j) as [jb|] eqn:Hj; [|done].
  destruct (job_phase jb) as [c' tm|e|o'] eqn:Hph; try done.
  pose proof Hinv as (_ & _ & Hc).
  assert (resumed jb = false) as Hres.
  { destruct (resumed jb) eqn:Hr; [|done]. destruct (Hc j jb Hj Hr) as [o' ?].
    congruence. }
  unfold runTaskWithTimeout, set_job. simpl.
  eapply inv_set_job; [done|done|done|done|]. simpl. congruence.
Qed.

Lemma inv_resume s j : inv s → inv (resume s j).
Proof.
  intros Hinv. unfold resume.
  destruct (jobs s !! j) as [jb|] eqn:Hj; [|done].
  destruct (job_phase jb) as [c' tm|e|o'] eqn:Hph; try done.
  destruct (resumed jb) eqn:Hres; [done|].
  destruct Hinv as (Ha & Hb & Hc).
  pose proof (lookup_lt_Some _ _ _ Hj) as Hlt.
  pose proof (Hb j jb Hj Hres) as Hreg.
  unfold inv. simpl. split_and!.
  - intros i j' Hij. rewrite lookup_delete in Hij. case_decide as Hi; [done|].
    destruct (Ha i j' Hij) as (jb0 & Hjb0 & Hid & Hr).
    exists jb0. rewrite list_lookup_insert_ne; [done|].
    intros <-. assert (jb0 = jb) by congruence. congruence.
  - intros j' jb0 Hj' Hr. destruct (decide (j' = j)) as [->|Hne].
    + rewrite list_lookup_insert_eq in Hj' by done. by injection Hj' as <-.
    + rewrite list_lookup_insert_ne in Hj' by done.
      pose proof (Hb j' jb0 Hj' Hr) as Hreg'.
      rewrite lookup_delete_ne; [done|]. intros Heq. congruence.
  - intros j' jb0 Hj' Hr. destruct (decide (j' = j)) as [->|Hne].
    + rewrite list_lookup_insert_eq in Hj' by done. injection Hj' as <-. simpl. eauto.
    + rewrite list_lookup_insert_ne in Hj' by done. by eapply Hc.
Qed.

Lemma inv_step s ev : inv s → not_clear ev → inv (step s ev).
Proof.
  intros Hinv Hev. destruct ev; simpl; [| | | | |done].
  - by apply inv_executeTask.
  - by apply inv_call_settles.
  - by apply inv_timer_fires.
  - by apply inv_delay_ends.
  - by apply inv_resume.
Qed.

Lemma inv_run s evs : inv s → Forall not_clear evs → inv (run s evs).
Proof.
  revert s. induction evs as [|ev evs IH]; intros s Hinv Hevs; [done|].
  apply Forall_cons in Hevs as [Hev Hevs]. simpl. apply IH; [|done].
  by apply inv_step.
Qed.

(** *** Jobs keep their task *)

Lemma insert_keeps_task (l : list job) j0 jb0 jb0' j jb :
  l !! j0 = Some jb0 → job_task jb0' = job_task jb0 →
  l !! j = Some jb →
  ∃ jb', <[j0 := jb0']> l !! j = Some jb' ∧ job_task jb' = job_task jb.
Proof.
  intros Hj0 Htask Hj. pose proof (lookup_lt_Some _ _ _ Hj0).
  destruct (decide (j = j0)) as [->|Hne].
  - exists jb0'. rewrite list_lookup_insert_eq by done. split; [done|]. congruence.
  - exists jb. by rewrite list_lookup_insert_ne.
Qed.

Lemma attempt_ended_keeps_task s j0 jb0 o j jb :
  jobs s !! j0 = Some jb0 → jobs s !! j = Some jb →
  ∃ jb', jobs (attempt_ended s j0 jb0 o) !! j = Some jb' ∧
         job_task jb' = job_task jb.
Proof.
  intros Hj0 Hj. unfold attempt_ended, set_job.
  destruct o; simpl; by eapply insert_keeps_task.
Qed.

Lemma step_keeps_task s ev j jb :
  jobs s !! j = Some jb →
  ∃ jb', jobs (step s ev) !! j = Some jb' ∧ job_task jb' = job_task jb.
Proof.
  intros Hj. destruct ev as [tk|c o|j0|j0|j0|]; simpl.
  - destruct (activeJobs s !! id tk) as [j'|] eqn:Hreg.
    + rewrite (executeTask_hit _ _ _ Hreg). by exists jb.
    + destruct (executeTask_miss s tk Hreg) as (jb0 & cs & -> & _). simpl.
      exists jb. split; [|done]. by apply lookup_app_l_Some.
  - unfold call_settles.
    destruct (calls s !! c) as [[f j0 [o'|]]|]; try by exists jb.
    destruct (jobs s !! j0) as [jb0|] eqn:Hj0; [|by exists jb].
    destruct (job_phase jb0); try by exists jb.
    case_decide; [|by exists jb]. by apply attempt_ended_keeps_task.
  - unfold timer_fires.
    destruct (jobs s !! j0) as [jb0|] eqn:Hj0; [|by exists jb].
    destruct (job_phase jb0); try by exists jb.
    by apply attempt_ended_keeps_task.
  - unfold delay_ends.
    destruct (jobs s !! j0) as [jb0|] eqn:Hj0; [|by exists jb].
    destruct (job_phase jb0); try by exists jb.
    simpl. by eapply insert_keeps_task.
  - unfold resume.
    destruct (jobs s !! j0) as [jb0|] eqn:Hj0; [|by exists jb].
    destruct (job_phase jb0); try by exists jb.
    destruct (resumed jb0); [by exists jb|]. simpl. by eapply insert_keeps_task.
  - by exists jb.
Qed.

Lemma run_keeps_task s evs j jb :
  jobs s !! j = Some jb →
  ∃ jb', jobs (run s evs) !! j = Some jb' ∧ job_task jb' = job_task jb.
Proof.
  revert s jb. induction evs as [|ev evs IH]; intros s jb Hj; [by exists jb|].
  destruct (step_keeps_task s ev j jb Hj) as (jb1 & Hj1 & Ht1).
  destruct (IH _ _ Hj1) as (jb2 & Hj2 & Ht2). exists jb2. split; [done|]. congruence.
Qed.


(** A job that has not ended is registered under the id of its task. *)
Lemma executing_registered s j :
  inv s → executing s j →
  ∃ jb, jobs s !! j = Some jb ∧ activeJobs s !! id (job_task jb) = Some j.
Proof.
  intros (_ & Hb & Hc) (jb & Hj & Hrun). exists jb. split; [done|].
  apply Hb; [done|]. destruct (resumed jb) eqn:Hr; [|done].
  destruct (Hc j jb Hj Hr) as [o Ho]. by destruct (Hrun o).
Qed.

(** *** Deduplication by task id *)



(** *** Concurrency *)

Lemma running_snoc (cs : list call) c :
  length (filter (λ c, call_outcome c = None) (cs ++ [c]))
  = (length (filter (λ c, call_outcome c = None) cs)
     + (if decide (call_outcome c = None) then 1 else 0))%nat.
Proof.
  rewrite filter_app, length_app. f_equal.
  rewrite filter_cons, filter_nil. by case_decide.
Qed.

(** [execute] calls the function of every task at once, however many
    there are: on tasks with distinct ids, none of them registered, the
    number of running task functions grows by the number of tasks. *)
Lemma execute_starts_all s tasks :
  (1 ≤ retryAttempts (config s))%nat →
  NoDup (id <$> tasks) →
  (∀ tk, tk ∈ tasks → activeJobs s !! id tk = None) →
  running (execute s tasks).2 = (running s + length tasks)%nat ∧
  config (execute s tasks).2 = config s.
Proof.
  revert s. induction tasks as [|tk tasks IH]; intros s Hretry Hnd Hfree; simpl.
  { split; [lia|done]. }
  rewrite fmap_cons in Hnd. apply NoDup_cons in Hnd as [Hnew Hnd].
  destruct (executeTask_miss s tk) as (jb & cs & Hrun & _ & _ & Hcall).
  { apply Hfree. by left. }
  destruct (retryAttempts (config s)) as [|n] eqn:Hn; [lia|].
  destruct (Hcall n eq_refl) as [-> _]. rewrite Hrun.
  set (s1 := {| config := config s; activeJobs := _; jobs := _; calls := _ |}).
  destruct (IH s1) as [Hrun1 Hcfg1]; [simpl; lia|done| |].
  { intros tk' Hin. simpl. rewrite lookup_insert_ne; [apply Hfree; by right|].
    intros Heq. apply Hnew. rewrite Heq. apply list_elem_of_fmap. by exists tk'. }
  destruct (execute s1 tasks) as [js s2]. simpl in *. split; [|done].
  rewrite Hrun1. unfold running. simpl. rewrite running_snoc. simpl. lia.
Qed.

(** C1, the failing input.  A processor built with the default
    configuration ([maxConcurrency = 5]) and given six tasks with six
    ids has, when [execute] has mapped over them and before any of them
    can end, six task functions running. *)
Theorem execute_exceeds_maxConcurrency :
  let s := (execute (new None None None None) six_tasks).2 in
  maxConcurrency (config s) = 5%nat ∧ running s = 6%nat ∧
  (maxConcurrency (config s) < running s)%nat.
Proof. vm_compute. split_and!; [done|done|lia]. Qed.


End ProcessorFacts.

(** ** SearchCache: round trips, capacity, eviction order, cleanup *)

Module SearchCacheExtra.
Import SearchCache SearchCacheFacts.
Section WithValue.
Context {T : Type}.
Implicit Types (c : t T) (key k : string) (e : CacheEntry T).

(** A value stored with [set] is read back by [get] until its time to
    live has passed (the last instant included), with a hit count of
    one after the first read; once the time to live has passed it is
    absent and removed. *)
Theorem set_then_get c now key (d : T) ttl now' :
  wf c → key ≠ EmptyString →
  (2 ≤ maxSize (config c) ∨ (1 ≤ maxSize (config c) ∧ cache c !! key = None))%nat →
  ∃ c', set c now key d ttl = Some c' ∧
    (now' ≤ now + default (defaultTTL (config c)) ttl →
       (get c' now' key).1 = Some d ∧
       (hits <$> cache (get c' now' key).2 !! key) = Some 1) ∧
    (now + default (defaultTTL (config c)) ttl < now' →
       (get c' now' key).1 = None ∧ cache (get c' now' key).2 !! key = None).
Proof.
  intros Hwf Hkey Hcap.
  destruct (set_returns c now key d ttl Hwf Hkey Hcap)
    as (c' & Hset & _ & _ & _ & _ & Hentry).
  exists c'. split; [done|]. unfold get, isExpired. rewrite Hentry. simpl.
  split; intros Hnow.
  - rewrite bool_decide_eq_false_2 by lia. simpl. by rewrite lookup_insert_eq.
  - rewrite bool_decide_eq_true_2 by lia. simpl. split; [done|apply lookup_delete_eq].
Qed.

Lemma length_set_delete_le key (s : list string) :
  (length (set_delete key s) ≤ length s)%nat.
Proof. apply length_filter. Qed.

Lemma bounded_of_wf c c' :
  wf c' → config c' = config c →
  (length (accessOrder c') ≤ length (accessOrder c))%nat →
  bounded c → bounded c'.
Proof.
  intros Hwf' Hcfg Hlen [Hwf Hsize]. split; [done|].
  rewrite (wf_size _ Hwf'), Hcfg. rewrite (wf_size _ Hwf) in Hsize. lia.
Qed.

(** The capacity is an invariant of the class: a cache that is
    consistent and holds at most [maxSize] entries stays so under [get],
    [has], [delete], [cleanup] and [clear], and under every [set] when
    [maxSize] is at least two (then [set] also returns). *)
Theorem operations_keep_capacity c now key :
  bounded c →
  bounded (get c now key).2 ∧
  bounded (has c now key).2 ∧
  bounded (delete_key c key).2 ∧
  bounded (cleanup c now).2 ∧
  bounded (clear c) ∧
  ∀ (d : T) ttl, key ≠ EmptyString → (2 ≤ maxSize (config c))%nat →
    ∃ c', set c now key d ttl = Some c' ∧ bounded c'.
Proof.
  intros Hb. pose proof Hb as [Hwf Hsize]. split_and!.
  - apply (bounded_of_wf c); [by apply wf_get|apply CopilotFacts.config_get| |done].
    unfold get. destruct (cache c !! key) as [e|] eqn:He; [|done].
    destruct (isExpired now e); simpl; [apply length_set_delete_le|].
    rewrite set_add_fresh, length_app. simpl.
    assert (key ∈ accessOrder c) as Hin by (apply Hwf; by rewrite He).
    pose proof (length_set_delete_elem key _ (proj1 Hwf) Hin). lia.
  - apply (bounded_of_wf c); [by apply wf_has| | |done];
      unfold has; destruct (cache c !! key) as [e|]; try done;
      destruct (isExpired now e); simpl; try done. apply length_set_delete_le.
  - apply (bounded_of_wf c); [by apply wf_delete_key| | |done];
      unfold delete_key; destruct (cache c !! key); simpl; try done.
    apply length_set_delete_le.
  - apply (bounded_of_wf c); [by apply wf_cleanup|done| |done].
    simpl. apply length_filter.
  - split; [apply wf_clear|]. simpl. rewrite map_size_empty. lia.
  - intros d ttl Hkey Hcap.
    destruct (set_returns c now key d ttl Hwf Hkey) as (c' & Hset & Hwf' & Hcfg & Hle & _).
    { by left. }
    exists c'. split; [done|]. split; [done|]. by rewrite Hcfg.
Qed.

(** Inserting a new key into a full cache removes the least recently
    used entry and no other: every other entry is as before, and the
    cache is full again. *)
Theorem set_at_capacity_drops_only_lru c now key (d : T) ttl :
  wf c → key ≠ EmptyString → cache c !! key = None →
  size (cache c) = maxSize (config c) → (1 ≤ maxSize (config c))%nat →
  ∃ oldest c',
    lru c = Some oldest ∧ set c now key d ttl = Some c' ∧
    cache c' !! oldest = None ∧
    (data <$> cache c' !! key) = Some d ∧
    (∀ k, k ≠ oldest → k ≠ key → cache c' !! k = cache c !! k) ∧
    size (cache c') = maxSize (config c).
Proof.
  intros Hwf Hkey Hnew Hfull Hcap.
  destruct (set_new_key_evicts_lru c now key d ttl Hwf Hkey Hnew Hfull Hcap)
    as (oldest & rest & e & Horder & Hset & Hd & _).
  assert (is_Some (cache c !! oldest)) as [eo Heo].
  { apply Hwf. rewrite Horder. by left. }
  assert (oldest ≠ key) as Hne by (intros ->; congruence).
  exists oldest. eexists. split; [by unfold lru; rewrite Horder|].
  split; [exact Hset|]. simpl. split_and!.
  - rewrite lookup_insert_ne by done. apply lookup_delete_eq.
  - by rewrite lookup_insert_eq, <- Hd.
  - intros k Hk1 Hk2. rewrite lookup_insert_ne by done. by apply lookup_delete_ne.
  - rewrite map_size_insert, lookup_delete_ne, Hnew by done.
    erewrite map_size_delete_Some by done. lia.
Qed.

(** The order of eviction follows the reads: an entry that was just
    read by [get] is not the one evicted by the next insertion into the
    full cache (of capacity at least two). *)
Theorem read_key_survives_next_eviction c now k e now' key (d : T) ttl :
  wf c → cache c !! k = Some e → now ≤ expiresAt e →
  size (cache c) = maxSize (config c) → (2 ≤ maxSize (config c))%nat →
  key ≠ EmptyString → cache c !! key = None →
  ∃ c', set (get c now k).2 now' key d ttl = Some c' ∧
        (data <$> cache c' !! k) = Some (data e) ∧
        (data <$> cache c' !! key) = Some d.
Proof.
  intros Hwf He Hlive Hfull Hcap Hkey Hnew.
  pose proof (wf_get c now k Hwf) as Hwf1.
  pose proof (wf_size _ Hwf) as Hsize.
  assert (k ≠ key) as Hkk by (intros ->; congruence).
  assert (k ∈ accessOrder c) as Hin by (apply Hwf; by rewrite He).
  pose proof (length_set_delete_elem k _ (proj1 Hwf) Hin) as Hlen.
  revert Hwf1. unfold get, isExpired. rewrite He.
  rewrite bool_decide_eq_false_2 by lia. simpl. intros Hwf1.
  set (c1 := updateAccessOrder k _) in *.
  assert (cache c1 !! key = None) as Hnew1.
  { subst c1. simpl. by rewrite lookup_insert_ne. }
  assert (size (cache c1) = maxSize (config c1)) as Hfull1.
  { subst c1. simpl. rewrite map_size_insert, He. done. }
  destruct (set_new_key_evicts_lru c1 now' key d ttl Hwf1 Hkey Hnew1 Hfull1)
    as (oldest & rest & e' & Horder & Hset & Hd & _); [subst c1; simpl; lia|].
  assert (oldest ≠ k) as Hok.
  { subst c1. rewrite accessOrder_updateAccessOrder in Horder. simpl in Horder.
    destruct (set_delete k (accessOrder c)) as [|x xs] eqn:Hdel; [simpl in Hlen; lia|].
    injection Horder as <- _.
    assert (x ∈ set_delete k (accessOrder c)) as Hx by (rewrite Hdel; by left).
    apply elem_of_set_delete in Hx. tauto. }
  eexists. split; [exact Hset|]. simpl. split.
  - rewrite lookup_insert_ne by done. rewrite lookup_delete_ne by done.
    subst c1. simpl. by rewrite lookup_insert_eq.
  - by rewrite lookup_insert_eq, <- Hd.
Qed.

(** [cleanup] removes exactly the expired entries: what is left are the
    entries with [now <= expiresAt], unchanged; the number it returns is
    the number of entries removed; the cache stays consistent. *)
Theorem cleanup_removes_exactly_expired c now :
  wf c →
  (∀ k e, cache (cleanup c now).2 !! k = Some e ↔
          cache c !! k = Some e ∧ now ≤ expiresAt e) ∧
  ((cleanup c now).1 + size (cache (cleanup c now).2) = size (cache c))%nat ∧
  wf (cleanup c now).2.
Proof.
  intros Hwf. split_and!; [| |by apply wf_cleanup].
  - intros k e. unfold cleanup. simpl. rewrite map_lookup_filter_Some. simpl.
    unfold isExpired. rewrite bool_decide_eq_false. split; intros [? ?]; split; (done || lia).
  - unfold cleanup. simpl.
    set (P := λ kv : string * CacheEntry T, isExpired now kv.2 = true).
    assert (filter (λ kv : string * CacheEntry T, isExpired now kv.2 = false) (cache c)
            = filter (λ kv, ¬ P kv) (cache c)) as ->.
    { apply map_filter_ext. intros k e _. unfold P. simpl.
      by destruct (isExpired now e). }
    rewrite <- map_size_disj_union by apply map_disjoint_filter_complement.
    by rewrite map_filter_union_complement.
Qed.

End WithValue.
Lemma wf_by_dom {T} (c : t T) :
  NoDup (accessOrder c) →
  dom (cache c) = list_to_set (C := gset string) (accessOrder c) →
  EmptyString ∉ accessOrder c →
  wf c.
Proof.
  intros Hnd Hdom Hne. split_and!; [done| |done].
  intros k. by rewrite <- elem_of_dom, Hdom, elem_of_list_to_set.
Qed.

Lemma wf_full_pair : wf full_pair.
Proof.
  apply wf_by_dom; simpl.
  - apply (bool_decide_unpack _). by vm_compute.
  - apply (bool_decide_unpack _). by vm_compute.
  - apply (bool_decide_unpack _). by vm_compute.
Qed.

Lemma set_then_get_witness :
  ∃ c', set (new None None None) 0 "k" "v" (Some 1000) = Some c' ∧
        (get c' 1000 "k").1 = Some "v".
Proof.
  destruct (set_then_get (new None None None) 0 "k" "v" (Some 1000) 1000)
    as (c' & Hset & Hlive & _).
  - apply wf_new.
  - discriminate.
  - left. simpl. lia.
  - exists c'. split; [exact Hset|]. apply Hlive. simpl. lia.
Defined.

Lemma operations_keep_capacity_witness :
  bounded (get full_pair 10 "a").2 ∧ bounded (cleanup full_pair 600).2.
Proof.
  destruct (operations_keep_capacity full_pair 10 "a") as (Hget & _).
  { split; [apply wf_full_pair|]. vm_compute. lia. }
  destruct (operations_keep_capacity full_pair 600 "a") as (_ & _ & _ & Hclean & _).
  { split; [apply wf_full_pair|]. vm_compute. lia. }
  split; [exact Hget|exact Hclean].
Defined.

Lemma set_at_capacity_drops_only_lru_witness :
  ∃ c', set full_pair 20 "c" "vc" None = Some c' ∧
        cache c' !! "a" = None ∧ cache c' !! "b" = cache full_pair !! "b".
Proof.
  destruct (set_at_capacity_drops_only_lru full_pair 20 "c" "vc" None)
    as (oldest & c' & Hlru & Hset & Hgone & _ & Hkept & _).
  - apply wf_full_pair.
  - discriminate.
  - reflexivity.
  - reflexivity.
  - simpl. lia.
  - injection Hlru as <-. exists c'. split; [exact Hset|]. split; [exact Hgone|].
    apply Hkept; discriminate.
Defined.

Lemma read_key_survives_next_eviction_witness :
  ∃ c', set (get full_pair 10 "a").2 20 "c" "vc" None = Some c' ∧
        (data <$> cache c' !! "a") = Some "va".
Proof.
  destruct (read_key_survives_next_eviction full_pair 10 "a" (mkEntry "va" 0 1000 0)
              20 "c" "vc" None) as (c' & Hset & Hkept & _).
  - apply wf_full_pair.
  - reflexivity.
  - simpl. lia.
  - reflexivity.
  - simpl. lia.
  - discriminate.
  - reflexivity.
  - exists c'. split; [exact Hset|exact Hkept].
Defined.

Lemma cleanup_removes_exactly_expired_witness :
  (cleanup full_pair 600).1 = 1%nat ∧
  cache (cleanup full_pair 600).2 !! "b" = None ∧
  cache (cleanup full_pair 600).2 !! "a" = Some (mkEntry "va" 0 1000 0).
Proof.
  destruct (cleanup_removes_exactly_expired full_pair 600) as (Hkept & _ & _).
  - apply wf_full_pair.
  - split; [reflexivity|]. split; [reflexivity|].
    apply Hkept. split; [reflexivity|simpl; lia].
Defined.

End SearchCacheExtra.

(** ** SmartTimeout: history, cached timeouts, progressive timeouts *)

Module SmartTimeoutExtra.
Import SmartTimeout.

Lemma history_of_recordMetrics s now type d ok :
  history_of (recordMetrics s now type d ok) type
  = trim_history (config s)
      (history_of s type ++
       [{| duration := d; timestamp := now; success := ok; requestType := type |}]).
Proof. unfold history_of at 1, recordMetrics. simpl. by rewrite lookup_insert_eq. Qed.

Lemma length_trim_history cfg (h : list RequestMetrics) :
  length (trim_history cfg h) = Nat.min (length h) (historySize cfg).
Proof. unfold trim_history. case_decide; [rewrite length_drop|]; lia. Qed.

(** [recordMetrics] appends the record to the history of its type and
    keeps the [historySize] most recent ones: the new length is
    [min(length + 1, historySize)], the history is the end of the old
    one followed by the new record, and the histories of the other
    types are untouched. *)
Theorem recordMetrics_bounds_history s now type d ok :
  let record := {| duration := d; timestamp := now; success := ok;
                   requestType := type |} in
  let s' := recordMetrics s now type d ok in
  length (history_of s' type)
    = Nat.min (S (length (history_of s type))) (historySize (config s)) ∧
  history_of s' type `suffix_of` history_of s type ++ [record] ∧
  ((1 ≤ historySize (config s))%nat → last (history_of s' type) = Some record) ∧
  config s' = config s ∧
  ∀ type', type' ≠ type → history_of s' type' = history_of s type'.
Proof.
  intros record s'. subst s'. rewrite history_of_recordMetrics. fold record.
  split_and!.
  - rewrite length_trim_history, length_app. simpl length. lia.
  - unfold trim_history. case_decide; [apply suffix_drop|done].
  - intros Hhs. unfold trim_history. case_decide as Hlong; [|apply last_snoc].
    rewrite length_app in *. simpl in *.
    replace (length (history_of s type) + 1 - historySize (config s))%nat
      with (length (history_of s type) - (historySize (config s) - 1))%nat by lia.
    rewrite drop_app_le by lia. apply last_snoc.
  - done.
  - intros type' Hne. unfold history_of, recordMetrics. simpl.
    by rewrite lookup_insert_ne.
Qed.

Lemma recordMetrics_full s now type d ok :
  adaptiveEnabled (config s) = true →
  length (history_of s type) = historySize (config s) →
  let s' := recordMetrics s now type d ok in
  config s' = config s ∧
  length (history_of s' type) = historySize (config s) ∧
  ((historySize (config s) `mod` 10 ≠ 0)%nat → currentTimeouts s' = currentTimeouts s) ∧
  ((historySize (config s) `mod` 10 = 0)%nat →
     currentTimeouts s' !! type
     = Some (calculateAdaptiveTimeout (config s) (history_of s' type))).
Proof.
  intros Hon Hfull s'.
  assert (length (history_of s' type) = historySize (config s)) as Hlen.
  { subst s'. rewrite history_of_recordMetrics, length_trim_history, length_app.
    simpl. lia. }
  split; [done|]. split; [done|].
  pose proof (history_of_recordMetrics s now type d ok) as Hh. fold s' in Hh.
  rewrite Hh in Hlen |- *. subst s'. unfold recordMetrics. simpl. rewrite Hon. simpl.
  split; intros Hmod.
  - by rewrite bool_decide_eq_false_2 by (rewrite Hlen; done).
  - rewrite bool_decide_eq_true_2 by (rewrite Hlen; done). by rewrite lookup_insert_eq.
Qed.

(** Once the history of a type is full, the cached timeout of the type
    is recomputed at every record when [historySize] is a multiple of
    10 (as in the default and the search configuration), and never
    again by a record when it is not: the length of the history then
    stays at [historySize], and only lengths that are multiples of 10
    trigger the recomputation. *)
Theorem full_history_recompute_schedule s type rs :
  adaptiveEnabled (config s) = true →
  length (history_of s type) = historySize (config s) →
  let s' := record_many s type rs in
  length (history_of s' type) = historySize (config s) ∧
  ((historySize (config s) `mod` 10 ≠ 0)%nat → currentTimeouts s' = currentTimeouts s) ∧
  ((historySize (config s) `mod` 10 = 0)%nat → rs ≠ [] →
     currentTimeouts s' !! type
     = Some (calculateAdaptiveTimeout (config s) (history_of s' type))).
Proof.
  revert s. induction rs as [|r rs IH]; intros s Hon Hfull; simpl; [by split_and!|].
  destruct (recordMetrics_full s r.1.1 type r.1.2 r.2 Hon Hfull)
    as (Hcfg & Hfull1 & Hkeep & Hnew).
  set (s1 := recordMetrics s r.1.1 type r.1.2 r.2) in *.
  destruct (IH s1) as (Hlen & Hkeep' & Hnew'); [by rewrite Hcfg|by rewrite Hcfg|].
  rewrite Hcfg in *. split_and!; [done| |].
  - intros Hmod. rewrite Hkeep' by done. by apply Hkeep.
  - intros Hmod _. destruct rs as [|r' rs']; [by apply Hnew|]. by apply Hnew'.
Qed.

Lemma full_history_recompute_schedule_witness :
  currentTimeouts (record_many three_slots "web" [(3, 60000, true); (4, 70000, true)])
  = currentTimeouts three_slots.
Proof.
  destruct (full_history_recompute_schedule three_slots "web"
              [(3, 60000, true); (4, 70000, true)]) as (_ & Hkeep & _).
  - reflexivity.
  - reflexivity.
  - apply Hkeep. simpl. lia.
Defined.

(** *** Bounds of the timeouts handed out *)

Lemma calculateAdaptiveTimeout_range cfg history :
  let v := calculateAdaptiveTimeout cfg history in
  v = baseTimeout cfg ∨
  (v ≤ maxTimeout cfg ∧ (minTimeout cfg ≤ maxTimeout cfg → minTimeout cfg ≤ v)).
Proof.
  unfold calculateAdaptiveTimeout. destruct history; [by left|].
  destruct (map duration _); [by left|]. right. lia.
Qed.

Lemma timeouts_bounded_insert s type history :
  timeouts_bounded s →
  timeouts_bounded
    {| config := config s; metrics := metrics s;
       currentTimeouts := <[type := calculateAdaptiveTimeout (config s) history]>
                            (currentTimeouts s) |}.
Proof.
  intros Hb type' v. simpl. rewrite lookup_insert. case_decide; [|apply Hb].
  intros [= <-]. apply calculateAdaptiveTimeout_range.
Qed.

Lemma timeouts_bounded_metrics s m :
  timeouts_bounded s →
  timeouts_bounded {| config := config s; metrics := m;
                      currentTimeouts := currentTimeouts s |}.
Proof. done. Qed.

Lemma timeouts_bounded_recordMetrics s now type d ok :
  timeouts_bounded s →
  timeouts_bounded (recordMetrics s now type d ok) ∧
  config (recordMetrics s now type d ok) = config s.
Proof.
  intros Hb. split; [|done]. unfold recordMetrics.
  destruct (adaptiveEnabled (config s) && _).
  - apply (timeouts_bounded_insert
             {| config := config s; metrics := _; currentTimeouts := currentTimeouts s |}).
    by apply timeouts_bounded_metrics.
  - by apply timeouts_bounded_metrics.
Qed.

Lemma getTimeoutForType_bounded s type :
  timeouts_bounded s →
  timeouts_bounded (getTimeoutForType s type).2 ∧
  config (getTimeoutForType s type).2 = config s ∧
  let v := (getTimeoutForType s type).1 in
  v = baseTimeout (config s) ∨
  (v ≤ maxTimeout (config s) ∧
   (minTimeout (config s) ≤ maxTimeout (config s) → minTimeout (config s) ≤ v)).
Proof.
  intros Hb. unfold getTimeoutForType.
  destruct (adaptiveEnabled (config s)); simpl; [|by split_and!; [| |left]].
  destruct (currentTimeouts s !! type) as [v|] eqn:Hv.
  - destruct v; simpl; (split_and!; [| done |]);
      try (by apply timeouts_bounded_insert);
      try (apply calculateAdaptiveTimeout_range); try done; by eapply Hb.
  - simpl. split_and!; [by apply timeouts_bounded_insert|done|].
    apply calculateAdaptiveTimeout_range.
Qed.

Lemma timeouts_bounded_apply_op s o :
  timeouts_bounded s →
  timeouts_bounded (apply_op s o) ∧ config (apply_op s o) = config s.
Proof.
  intros Hb. destruct o as [now type d ok|type|start type a custom|type]; simpl.
  - by apply timeouts_bounded_recordMetrics.
  - destruct (getTimeoutForType_bounded s type Hb) as (? & ? & _). done.
  - unfold executeWithTimeout.
    destruct (getTimeoutForType_bounded s type Hb) as (Hb1 & Hc1 & _).
    assert (∀ p : Z * t, timeouts_bounded p.2 → config p.2 = config s →
              timeouts_bounded
                (let '(timeout, s1) := p in
                 (classify timeout a,
                  recordMetrics s1 (start + elapsed a) type (elapsed a) (succeeded a))).2 ∧
              config
                (let '(timeout, s1) := p in
                 (classify timeout a,
                  recordMetrics s1 (start + elapsed a) type (elapsed a) (succeeded a))).2
              = config s) as Hrec.
    { intros [tm s1] Hbp Hcp. simpl in *.
      destruct (timeouts_bounded_recordMetrics s1 (start + elapsed a) type (elapsed a)
                  (succeeded a) Hbp) as [? ?]. split; [done|congruence]. }
    destruct custom as [[|c|c]|];
      [by apply (Hrec (getTimeoutForType s type))
      |by apply (Hrec (Z.pos c, s))
      |by apply (Hrec (Z.neg c, s))
      |by apply (Hrec (getTimeoutForType s type))].
  - unfold clearMetrics.
    assert (timeouts_bounded (init (config s))) as Hinit.
    { intros ty v Hv. simpl in Hv. by rewrite lookup_empty in Hv. }
    destruct type as [ty|]; [|done]. case_bool_decide; [|done]. split; [|done].
    intros ty' v. simpl. rewrite lookup_delete. case_decide; [done|apply Hb].
Qed.

Lemma timeouts_bounded_run ops s :
  timeouts_bounded s →
  timeouts_bounded (foldl apply_op s ops) ∧ config (foldl apply_op s ops) = config s.
Proof.
  revert s. induction ops as [|o ops IH]; intros s Hb; simpl; [done|].
  destruct (timeouts_bounded_apply_op s o Hb) as [Hb1 Hc1].
  destruct (IH _ Hb1) as [Hb2 Hc2]. split; [done|congruence].
Qed.

(** Whatever was recorded, asked, executed or cleared before, the
    timeout that [getTimeoutForType] hands out for a type is the base
    timeout or a value that is at most [maxTimeout] (and at least
    [minTimeout] when [minTimeout <= maxTimeout]). *)
Theorem timeout_always_bounded cfg ops type :
  let s := foldl apply_op (init cfg) ops in
  let timeout := (getTimeoutForType s type).1 in
  timeout = baseTimeout cfg ∨
  (timeout ≤ maxTimeout cfg ∧ (minTimeout cfg ≤ maxTimeout cfg → minTimeout cfg ≤ timeout)).
Proof.
  intros s timeout.
  destruct (timeouts_bounded_run ops (init cfg)) as [Hb Hcfg].
  { intros ty v Hv. simpl in Hv. by rewrite lookup_empty in Hv. }
  destruct (getTimeoutForType_bounded s type Hb) as (_ & _ & Hv).
  subst s. by rewrite Hcfg in Hv.
Qed.

(** *** Progressive timeouts *)

Lemma executeWithTimeout_custom s start type a custom :
  custom ≠ 0 →
  executeWithTimeout s start type a (Some custom)
  = (classify custom a,
     recordMetrics s (start + elapsed a) type (elapsed a) (succeeded a)).
Proof. intros Hc. unfold executeWithTimeout. by destruct custom. Qed.

Lemma progressive_loop_decides s start type timeouts behaviour i lastError :
  Forall (λ tm, tm ≠ 0) timeouts →
  let run := progressive_loop s start type timeouts behaviour i lastError in
  match first_decisive timeouts behaviour i with
  | Some (k, outcome) =>
      run.2 = S k ∧ (i ≤ k < i + length timeouts)%nat ∧
      run.1.1 = match outcome with inl v => inl v | inr e => inr (Some e) end
  | None =>
      run.2 = (i + length timeouts)%nat ∧
      ∃ e, run.1.1 = inr e ∧ (timeouts = [] → e = lastError) ∧
           (timeouts ≠ [] → ∃ tm, e = Some (TimeoutError tm))
  end.
Proof.
  revert s start i lastError.
  induction timeouts as [|tm timeouts IH]; intros s start i lastError Hnz; simpl.
  { split; [lia|]. exists lastError. by split_and!. }
  apply Forall_cons in Hnz as [Htm Hnz].
  rewrite executeWithTimeout_custom by done.
  destruct (classify tm (behaviour i)) as [v|[tm'|e]] eqn:Hc.
  - split_and!; (done || lia).
  - specialize (IH (recordMetrics s (start + elapsed (behaviour i)) type
                      (elapsed (behaviour i)) (succeeded (behaviour i)))
                   (start + elapsed (behaviour i)) (S i) (Some (TimeoutError tm')) Hnz).
    simpl in IH. destruct (first_decisive timeouts behaviour (S i)) as [[k outcome]|].
    + destruct IH as (? & ? & ?). split_and!; (done || lia).
    + destruct IH as (Hcalls & e & Hr & Hlast & Hsome). split; [lia|].
      exists e. split_and!; [done|done|]. intros _.
      destruct timeouts as [|tm2 timeouts2]; [exists tm'; by apply Hlast|by apply Hsome].
  - split_and!; (done || lia).
Qed.

(** [executeWithProgressiveTimeout] calls the operation once for each
    timeout of the list (each different from 0), in order, until a call
    ends otherwise than by a [TimeoutError]: it returns the value or
    rethrows the error of that call and makes no further call.  When
    every call ends by a [TimeoutError] it has made one call per
    timeout and throws a [TimeoutError]; with an empty list it makes no
    call and throws [null]. *)
Theorem progressive_stops_at_first_decisive s start type timeouts behaviour :
  Forall (λ tm, tm ≠ 0) timeouts →
  let run := executeWithProgressiveTimeout s start type (Some timeouts) behaviour in
  match first_decisive timeouts behaviour 0 with
  | Some (k, outcome) =>
      run.2 = S k ∧ (k < length timeouts)%nat ∧
      run.1.1 = match outcome with inl v => inl v | inr e => inr (Some e) end
  | None =>
      run.2 = length timeouts ∧
      (timeouts = [] → run.1.1 = inr None) ∧
      (timeouts ≠ [] → ∃ tm, run.1.1 = inr (Some (TimeoutError tm)))
  end.
Proof.
  intros Hnz run. subst run. unfold executeWithProgressiveTimeout. simpl.
  pose proof (progressive_loop_decides s start type timeouts behaviour 0 None Hnz) as H.
  simpl in H. destruct (first_decisive timeouts behaviour 0) as [[k outcome]|].
  - destruct H as (? & ? & ?). split_and!; [done|lia|done].
  - destruct H as (? & e & Hr & Hnil & Hsome). split_and!; [done| |].
    + intros Hl. by rewrite Hr, (Hnil Hl).
    + intros Hl. destruct (Hsome Hl) as [tm ->]. by exists tm.
Qed.

Lemma progressive_stops_at_first_decisive_witness :
  (executeWithProgressiveTimeout (init default_config) 0 "web" None slow_operation).2
    = 2%nat ∧
  (executeWithProgressiveTimeout (init default_config) 0 "web" None slow_operation).1.1
    = inl "done".
Proof.
  pose proof (progressive_stops_at_first_decisive (init default_config) 0 "web"
                [5000; 15000; 30000] slow_operation) as H.
  simpl in H. destruct H as (Hcalls & _ & Hr).
  - repeat constructor; lia.
  - split; [exact Hcalls|exact Hr].
Defined.

End SmartTimeoutExtra.

(** ** RequestDeduplicator: what it does outside the shared window *)

Module DeduplicatorExtra.
Import Deduplicator DeduplicatorFacts.

Lemma run_cons s ev evs :
  run s (ev :: evs)
  = ((step s ev).1 :: (run (step s ev).2 evs).1, (run (step s ev).2 evs).2).
Proof. simpl. destruct (step s ev). by destruct (run _ _). Qed.

(** The registration of a key is removed by the [finally] of whichever
    call started an execution for it.  So when an execution outlives
    [maxPendingTime], a second call starts a second execution, the end
    of the first one removes the entry of the second, and a third call,
    made while the second execution is pending and young, starts a
    third execution instead of joining it. *)
Theorem stale_finally_unregisters_newer s key t0 t1 t2 o :
  wf s → enabled (config s) = true → idle s key →
  maxPendingTime (config s) ≤ t1 - t0 →
  let p := length (started s) in
  let r := run s [Call key t0; Call key t1; Settle p o; Call key t2] in
  r.1 = [Some p; Some (S p); None; Some (S (S p))] ∧
  invocations r.2 key = (invocations s key + 3)%nat ∧
  observe r.2 (S p) = None.
Proof.
  intros Hwf Hen [Hnone Hidle] Hold p r. subst r.
  assert (∀ q, (p ≤ q)%nat → settled s !! q = None) as Hfresh.
  { intros q Hq. destruct (settled s !! q) eqn:Hs; [|done].
    assert (q < length (started s))%nat; [apply Hwf; by rewrite Hs|]. subst p. lia. }
  rewrite !run_cons. simpl step.
  set (s1 := {| config := config s;
                pendingRequests := <[key := mkPending p t0 1]> (pendingRequests s);
                started := started s ++ [key]; settled := settled s |}).
  assert (deduplicate s t0 key = (p, s1)) as ->.
  { unfold deduplicate. by rewrite Hen, Hnone. }
  simpl fst. simpl snd.
  set (s2 := {| config := config s;
                pendingRequests :=
                  <[key := mkPending (S p) t1 1]> (delete key (pendingRequests s1));
                started := started s1 ++ [key]; settled := settled s |}).
  assert (deduplicate s1 t1 key = (S p, s2)) as ->.
  { unfold deduplicate. simpl. rewrite Hen. simpl. rewrite lookup_insert_eq. simpl.
    rewrite bool_decide_eq_false_2 by lia. simpl.
    unfold s2. simpl. rewrite length_app. simpl.
    replace (length (started s) + 1)%nat with (S p) by (subst p; lia). done. }
  simpl fst. simpl snd.
  set (s3 := {| config := config s;
                pendingRequests := delete key (pendingRequests s2);
                started := started s2; settled := <[p := o]> (settled s) |}).
  assert (settle s2 p o = s3) as ->.
  { assert (started s2 !! p = Some key) as Hst.
    { simpl. rewrite <- app_assoc. by apply list_lookup_middle. }
    unfold settle. rewrite Hst. simpl. rewrite (Hfresh p) by lia.
    by rewrite Hen. }
  set (s4 := {| config := config s;
                pendingRequests :=
                  <[key := mkPending (S (S p)) t2 1]> (pendingRequests s3);
                started := started s3 ++ [key]; settled := settled s3 |}).
  assert (deduplicate s3 t2 key = (S (S p), s4)) as ->.
  { unfold deduplicate. simpl. rewrite Hen. simpl. rewrite lookup_delete_eq.
    unfold s4. simpl. rewrite !length_app. simpl.
    replace (length (started s) + 1 + 1)%nat with (S (S p)) by (subst p; lia). done. }
  simpl. split_and!; [done| |].
  - unfold invocations. simpl. rewrite !count_key_snoc, !decide_True by done. lia.
  - unfold observe. simpl. rewrite lookup_insert_ne by lia. apply Hfresh. lia.
Qed.

Lemma stale_finally_unregisters_newer_witness :
  (run (new None None None)
     [Call "q" 0; Call "q" 30000; Settle 0 (Resolved "late"); Call "q" 30500]).1
  = [Some 0; Some 1; None; Some 2]%nat.
Proof.
  destruct (stale_finally_unregisters_newer (new None None None) "q" 0 30000 30500
              (Resolved "late")) as (Hr & _).
  - apply wf_new_deduplicator.
  - reflexivity.
  - split; [reflexivity|]. intros p Hp. simpl in Hp. by rewrite lookup_nil in Hp.
  - simpl. lia.
  - exact Hr.
Defined.

(** With [enabled: false] nothing is shared: every call runs its own
    operation and receives its own promise, and nothing is ever
    registered. *)
Theorem disabled_runs_every_call s (cs : list (string * Z)) :
  enabled (config s) = false →
  let r := run s ((λ c, Call c.1 c.2) <$> cs) in
  r.1 = Some <$> seq (length (started s)) (length cs) ∧
  started r.2 = started s ++ cs.*1 ∧
  pendingRequests r.2 = pendingRequests s.
Proof.
  revert s. induction cs as [|[k now] cs IH]; intros s Hoff; simpl.
  { by rewrite app_nil_r. }
  unfold deduplicate. rewrite Hoff. simpl.
  specialize (IH {| config := config s; pendingRequests := pendingRequests s;
                    started := started s ++ [k]; settled := settled s |} Hoff).
  simpl in IH. destruct (run _ _) as [rs s2]. simpl in *.
  destruct IH as (-> & -> & ->). rewrite length_app, <- app_assoc. simpl.
  split_and!; [|done|done]. do 3 f_equal. lia.
Qed.

Lemma disabled_runs_every_call_witness :
  (run (new None None (Some false)) [Call "q" 0; Call "q" 1; Call "q" 2]).1
  = [Some 0; Some 1; Some 2]%nat.
Proof.
  destruct (disabled_runs_every_call (new None None (Some false))
              [("q", 0); ("q", 1); ("q", 2)]) as (Hr & _).
  - reflexivity.
  - exact Hr.
Defined.

(** The deduplicator keeps no result: when the shared execution of a
    key has ended, the key is idle again, and the next call for it
    starts a new execution. *)
Theorem settled_key_is_idle_again s key t0 p o now :
  wf s → shared s key t0 p →
  wf (settle s p o) ∧ idle (settle s p o) key ∧
  observe (settle s p o) p = Some o ∧
  (deduplicate (settle s p o) now key).1 = length (started s) ∧
  invocations (deduplicate (settle s p o) now key).2 key = S (invocations s key).
Proof.
  intros Hwf Hsh. pose proof Hsh as (Hen & _ & Hst & Hse & Hothers).
  pose proof (wf_step s (Settle p o) Hwf) as Hwf'. simpl in Hwf'.
  assert (settle s p o =
            {| config := config s; pendingRequests := delete key (pendingRequests s);
               started := started s; settled := <[p := o]> (settled s) |}) as Heq.
  { unfold settle. by rewrite Hse, Hst, Hen. }
  assert (idle (settle s p o) key) as Hidle.
  { rewrite Heq. split; simpl; [apply lookup_delete_eq|].
    intros q Hq. rewrite lookup_insert. case_decide; [by eexists|]. by apply Hothers. }
  split; [done|]. split; [done|]. split.
  { rewrite Heq. unfold observe. simpl. apply lookup_insert_eq. }
  destruct (deduplicate_first_call (settle s p o) key now Hwf') as (s1 & Hd & _ & _ & Hinv);
    [by rewrite Heq|done|].
  rewrite Hd. simpl. rewrite Hinv, Heq. done.
Qed.

Lemma settled_key_is_idle_again_witness :
  (deduplicate (settle (deduplicate (new None None None) 0 "q").2 0 (Resolved "x")) 5 "q").1
  = 1%nat.
Proof.
  destruct (settled_key_is_idle_again (deduplicate (new None None None) 0 "q").2
              "q" 0 0 (Resolved "x") 5) as (_ & _ & _ & Hp & _).
  - apply (wf_deduplicate (new None None None) 0 "q"), wf_new_deduplicator.
  - unfold shared. simpl. split_and!; try reflexivity.
    + eexists. split; [reflexivity|]. split; reflexivity.
    + intros q Hq Hne. destruct q as [|q]; [done|]. vm_compute in Hq. discriminate.
  - exact Hp.
Defined.

End DeduplicatorExtra.

(** ** ParallelProcessor: retries, timeouts, batches, the semaphore *)

Module ProcessorExtra.
Import Processor ProcessorFacts.

(** *** Retries *)

Lemma count_insert_same {A} (P : A → Prop) `{!∀ x, Decision (P x)}
    (l : list A) c x y :
  l !! c = Some y → (P x ↔ P y) →
  length (filter P (<[c := x]> l)) = length (filter P l).
Proof.
  revert c. induction l as [|z l IH]; intros c Hc Hxy; [done|].
  destruct c as [|c]; simpl in *.
  - injection Hc as ->. rewrite !filter_cons.
    destruct (decide (P x)), (decide (P y)); simpl; tauto || done.
  - rewrite !filter_cons. destruct (decide (P z)); simpl; by rewrite (IH c).
Qed.

Lemma calls_of_snoc s j c cfg aj js :
  calls_of {| config := cfg; activeJobs := aj; jobs := js; calls := calls s ++ [c] |} j
  = (calls_of s j + (if decide (call_job c = j) then 1 else 0))%nat.
Proof.
  unfold calls_of. simpl. rewrite filter_app, length_app. f_equal.
  rewrite filter_cons, filter_nil. by case_decide.
Qed.

Lemma retry_inv_new mc dt ra rd : retry_inv (new mc dt ra rd).
Proof. intros j. by destruct j. Qed.

(** Changing only [activeJobs] or the [resumed] flags changes nothing
    for the retries. *)
Lemma retry_inv_update_job s j jb jb' aj :
  retry_inv s → jobs s !! j = Some jb →
  (retryAttempts (config s) = O ∨ calls_of s j = attempt jb') →
  (∀ e, job_phase jb' = Delaying e → (calls_of s j < retryAttempts (config s))%nat) →
  (∀ e, job_phase jb' = Done (Rejected e) → calls_of s j = retryAttempts (config s)) →
  retry_inv {| config := config s; activeJobs := aj;
               jobs := <[j := jb']> (jobs s); calls := calls s |}.
Proof.
  intros Hinv Hj Hatt Hdel Hrej j'. specialize (Hinv j'). simpl.
  pose proof (lookup_lt_Some _ _ _ Hj) as Hlt.
  change (calls_of {| config := config s; activeJobs := aj;
                      jobs := <[j := jb']> (jobs s); calls := calls s |} j')
    with (calls_of s j').
  destruct (decide (j' = j)) as [->|Hne].
  - rewrite list_lookup_insert_eq by done. rewrite Hj in Hinv.
    destruct Hinv as (Hle & _). by split_and!.
  - by rewrite list_lookup_insert_ne.
Qed.

Lemma retry_inv_attempt_ended s j jb o :
  retry_inv s → jobs s !! j = Some jb →
  retry_inv (attempt_ended s j jb o).
Proof.
  intros Hinv Hj. pose proof (Hinv j) as Hjinv. rewrite Hj in Hjinv.
  destruct Hjinv as (Hle & Hatt & _ & _).
  unfold attempt_ended, set_job. destruct o as [v|e].
  - apply (retry_inv_update_job s j jb); simpl; try done.
  - apply (retry_inv_update_job s j jb); simpl; [done|done|done| |].
    + intros e'. case_decide; [|done]. intros _. destruct Hatt; lia.
    + intros e'. case_decide; [done|]. intros _. destruct Hatt; lia.
Qed.

Lemma retry_inv_calls s cs :
  retry_inv s →
  (∀ j, length (filter (λ c, call_job c = j) cs) = calls_of s j) →
  retry_inv {| config := config s; activeJobs := activeJobs s;
               jobs := jobs s; calls := cs |}.
Proof.
  intros Hinv Hcs j. specialize (Hinv j). simpl.
  change (calls_of {| config := config s; activeJobs := activeJobs s;
                      jobs := jobs s; calls := cs |} j)
    with (length (filter (λ c, call_job c = j) cs)).
  by rewrite Hcs.
Qed.

Lemma retry_inv_step s ev : retry_inv s → retry_inv (step s ev).
Proof.
  intros Hinv. destruct ev as [tk|c o|j|j|j|]; simpl.
  - (* a submission *)
    unfold executeTask. destruct (activeJobs s !! id tk) as [j|]; [done|].
    unfold runTaskWithRetry.
    destruct (retryAttempts (config s)) as [|n] eqn:Hn; simpl; intros j; simpl.
    + pose proof (Hinv j) as Hj.
      change (calls_of _ j) with (calls_of s j).
      destruct (jobs s !! j) as [jb|] eqn:Hjb.
      * by rewrite (lookup_app_l_Some _ _ _ _ Hjb).
      * apply lookup_ge_None in Hjb.
        destruct (decide (j = length (jobs s))) as [->|Hne].
        -- rewrite list_lookup_middle by done. simpl. rewrite Hj, Hn.
           split_and!; [lia|by left|done|done].
        -- rewrite lookup_ge_None_2; [done|]. rewrite length_app. simpl. lia.
    + pose proof (Hinv j) as Hj.
      rewrite (calls_of_snoc s j). simpl.
      destruct (jobs s !! j) as [jb|] eqn:Hjb.
      * rewrite (lookup_app_l_Some _ _ _ _ Hjb).
        pose proof (lookup_lt_Some _ _ _ Hjb).
        rewrite decide_False by lia. rewrite Nat.add_0_r. done.
      * apply lookup_ge_None in Hjb.
        destruct (decide (j = length (jobs s))) as [->|Hne].
        -- rewrite list_lookup_middle by done. simpl.
           rewrite decide_True by done. rewrite Hj, Hn.
           split_and!; [lia|by right|done|done].
        -- rewrite lookup_ge_None_2 by (rewrite length_app; simpl; lia).
           rewrite decide_False by done. lia.
  - (* the promise of a call settles *)
    unfold call_settles.
    destruct (calls s !! c) as [[f j [o'|]]|] eqn:Hc; try done.
    set (s1 := {| config := config s; activeJobs := activeJobs s; jobs := jobs s;
                  calls := _ |}).
    assert (retry_inv s1) as Hinv1.
    { apply retry_inv_calls; [done|]. intros j'. unfold calls_of.
      by apply (count_insert_same _ _ _ _ _ Hc). }
    destruct (jobs s !! j) as [jb|] eqn:Hj; [|done].
    destruct (job_phase jb); try done. case_decide; [|done].
    by apply retry_inv_attempt_ended.
  - (* a timer fires *)
    unfold timer_fires. destruct (jobs s !! j) as [jb|] eqn:Hj; [|done].
    destruct (job_phase jb); try done. by apply retry_inv_attempt_ended.
  - (* the next attempt starts *)
    unfold delay_ends. destruct (jobs s !! j) as [jb|] eqn:Hj; [|done].
    destruct (job_phase jb) as [| e |] eqn:Hph; try done.
    pose proof (Hinv j) as Hjinv. rewrite Hj in Hjinv.
    destruct Hjinv as (Hle & Hatt & Hdel & _). specialize (Hdel e Hph).
    pose proof (lookup_lt_Some _ _ _ Hj) as Hlt.
    unfold runTaskWithTimeout, set_job. simpl. intros j'. simpl.
    rewrite (calls_of_snoc s j'). simpl. pose proof (Hinv j') as Hj'.
    destruct (decide (j' = j)) as [->|Hne].
    + rewrite list_lookup_insert_eq by done. simpl. rewrite decide_True by done.
      split_and!; [lia|right; destruct Hatt; lia|done|done].
    + rewrite list_lookup_insert_ne by done. rewrite decide_False by done.
      rewrite Nat.add_0_r. done.
  - (* [executeTask] resumes *)
    unfold resume. destruct (jobs s !! j) as [jb|] eqn:Hj; [|done].
    destruct (job_phase jb) as [| |o] eqn:Hph; try done.
    destruct (resumed jb); [done|].
    pose proof (Hinv j) as Hjinv. rewrite Hj in Hjinv.
    destruct Hjinv as (Hle & Hatt & Hdel & Hrej).
    apply (retry_inv_update_job s j jb); simpl; try done.
    + intros e He. apply (Hrej e). congruence.
  - done.
Qed.

Lemma config_step s ev : config (step s ev) = config s.
Proof.
  destruct ev as [tk|c o|j|j|j|]; simpl; try done.
  - unfold executeTask. destruct (activeJobs s !! id tk); [done|].
    unfold runTaskWithRetry. by destruct (retryAttempts (config s)).
  - unfold call_settles. destruct (calls s !! c) as [[f j [o'|]]|]; try done.
    destruct (jobs s !! j) as [jb|]; [|done].
    destruct (job_phase jb); try done. case_decide; [|done].
    unfold attempt_ended. by destruct o.
  - unfold timer_fires. destruct (jobs s !! j) as [jb|]; [|done].
    by destruct (job_phase jb).
  - unfold delay_ends. destruct (jobs s !! j) as [jb|]; [|done].
    by destruct (job_phase jb).
  - unfold resume. destruct (jobs s !! j) as [jb|]; [|done].
    destruct (job_phase jb); try done. by destruct (resumed jb).
Qed.

Lemma retry_inv_run s evs :
  retry_inv s → retry_inv (run s evs) ∧ config (run s evs) = config s.
Proof.
  revert s. induction evs as [|ev evs IH]; intros s Hinv; simpl; [done|].
  destruct (IH (step s ev)) as [Hinv' Hcfg]; [by apply retry_inv_step|].
  split; [done|]. by rewrite Hcfg, config_step.
Qed.

(** Whatever happens to a processor, the function of a task is called
    at most [retryAttempts] times for one job, and a job rejects only
    when it has been called exactly [retryAttempts] times. *)
Theorem retries_are_bounded mc dt ra rd evs j :
  let s := run (new mc dt ra rd) evs in
  (calls_of s j ≤ or_default_nat ra 3)%nat ∧
  ∀ jb e, jobs s !! j = Some jb → job_phase jb = Done (Rejected e) →
          calls_of s j = or_default_nat ra 3.
Proof.
  intros s.
  destruct (retry_inv_run (new mc dt ra rd) evs (retry_inv_new mc dt ra rd))
    as [Hinv Hcfg].
  fold s in Hinv, Hcfg. specialize (Hinv j). rewrite Hcfg in Hinv. simpl in Hinv.
  destruct (jobs s !! j) as [jb|] eqn:Hj.
  - destruct Hinv as (Hle & _ & _ & Hrej). split; [done|].
    intros jb' e [= <-] He. by apply (Hrej e).
  - split; [lia|done].
Qed.

(** *** Timeouts *)

(** A timeout does not stop the task: when the timer of an attempt
    fires and the retry delay is over, the function of the task is
    called again while the earlier call has not been touched, so one
    more task function is running than before. *)
Theorem timeout_does_not_stop_the_task s j jb c tm :
  jobs s !! j = Some jb → job_phase jb = Racing c tm →
  (attempt jb < retryAttempts (config s))%nat →
  let s' := run s [TimerFires j; DelayEnds j] in
  calls s' = calls s ++ [{| call_fn := task (job_task jb); call_job := j;
                            call_outcome := None |}] ∧
  running s' = S (running s) ∧
  ∃ jb', jobs s' !! j = Some jb' ∧ attempt jb' = S (attempt jb) ∧
         ∃ tm', job_phase jb' = Racing (length (calls s)) tm'.
Proof.
  intros Hj Hph Hleft s'. subst s'. pose proof (lookup_lt_Some _ _ _ Hj) as Hlt.
  unfold run. simpl. unfold timer_fires. rewrite Hj, Hph.
  unfold attempt_ended. rewrite decide_True by done.
  unfold delay_ends, set_job. simpl. rewrite list_lookup_insert_eq by done. simpl.
  split_and!.
  - done.
  - unfold running. simpl. rewrite running_snoc. simpl. lia.
  - eexists. rewrite list_lookup_insert_eq by (by rewrite length_insert).
    split; [done|]. simpl. split; [done|by eexists].
Qed.

Lemma timeout_does_not_stop_the_task_witness :
  running (run racing_once [TimerFires 0; DelayEnds 0]) = 2%nat.
Proof.
  destruct (timeout_does_not_stop_the_task racing_once 0
              (mkJob (mkTask "search-0" 0 None None) 1 (Racing 0 30000) false) 0 30000)
    as (_ & Hrun & _).
  - reflexivity.
  - reflexivity.
  - vm_compute. lia.
  - exact Hrun.
Defined.

(** *** Batches *)

Lemma batches_from_spec {A} (fuel size : nat) (ok : nat → bool) (k : nat) (l : list A) :
  (1 ≤ size)%nat → (length l ≤ fuel)%nat →
  ∃ bs r, batches_from fuel size ok k l = Some (bs, r) ∧
    concat bs `prefix_of` l ∧
    Forall (λ b, (1 ≤ length b ≤ size)%nat) bs ∧
    (∀ i, (S i < length bs)%nat → ok (k + i)%nat = true) ∧
    (r = true → concat bs = l ∧ ∀ i, (i < length bs)%nat → ok (k + i)%nat = true) ∧
    (r = false → ∃ bs' b, bs = bs' ++ [b] ∧ ok (k + length bs')%nat = false).
Proof.
  intros Hsize. revert k l. induction fuel as [|fuel IH]; intros k l Hlen.
  { destruct l; [|simpl in Hlen; lia]. exists [], true. simpl.
    split_and!; [done|done|done|intros; lia| |done]. intros _. split; [done|intros; lia]. }
  destruct l as [|x l].
  { exists [], true. simpl.
    split_and!; [done|done|done|intros; lia| |done]. intros _. split; [done|intros; lia]. }
  destruct size as [|n]; [lia|].
  change (batches_from (S fuel) (S n) ok k (x :: l))
    with (if ok k
          then (λ r, (take (S n) (x :: l) :: r.1, r.2))
                 <$> batches_from fuel (S n) ok (S k) (drop (S n) (x :: l))
          else Some ([take (S n) (x :: l)], false)).
  assert (1 ≤ length (take (S n) (x :: l)) ≤ S n)%nat as Hbatch.
  { rewrite length_take. simpl length. lia. }
  destruct (ok k) eqn:Hok.
  - destruct (IH (S k) (drop (S n) (x :: l))) as (bs & r & Hrun & Hpre & Hall & Hoks & Hyes & Hno).
    { rewrite length_drop. simpl in *. lia. }
    rewrite Hrun. exists (take (S n) (x :: l) :: bs), r. split_and!.
    + done.
    + destruct Hpre as [rest Hrest]. exists rest.
      transitivity (take (S n) (x :: l) ++ drop (S n) (x :: l)); [by rewrite take_drop|].
      by rewrite Hrest, concat_cons, app_assoc.
    + by constructor.
    + intros [|i] Hi; [by rewrite Nat.add_0_r|].
      replace (k + S i)%nat with (S k + i)%nat by lia. apply Hoks. simpl in Hi. lia.
    + intros Hr. destruct (Hyes Hr) as [Hcat Hallok]. split.
      * rewrite concat_cons, Hcat. apply take_drop.
      * intros [|i] Hi; [by rewrite Nat.add_0_r|].
        replace (k + S i)%nat with (S k + i)%nat by lia. apply Hallok. simpl in Hi. lia.
    + intros Hr. destruct (Hno Hr) as (bs' & b & -> & Hbad).
      exists (take (S n) (x :: l) :: bs'), b. split; [done|].
      simpl length. by replace (k + S (length bs'))%nat with (S k + length bs')%nat by lia.
  - exists [take (S n) (x :: l)], false. split_and!.
    + done.
    + rewrite concat_cons. simpl concat. rewrite app_nil_r. apply prefix_take.
    + by apply Forall_singleton.
    + intros i Hi. simpl in Hi. lia.
    + done.
    + intros _. exists [], (take (S n) (x :: l)). split; [done|].
      simpl length. by rewrite Nat.add_0_r.
Qed.

Lemma by_priority_desc_total a b :
  by_priority_desc a b = true ∨ by_priority_desc b a = true.
Proof. unfold by_priority_desc. rewrite !Z.leb_le. lia. Qed.

Lemma by_priority_desc_trans a b c :
  by_priority_desc a b = true → by_priority_desc b c = true →
  by_priority_desc a c = true.
Proof. unfold by_priority_desc. rewrite !Z.leb_le. lia. Qed.

(** [executeBatched] with a batch size of at least one.  The tasks
    are sorted in descending order of priority (a missing priority
    counts as 0) and handed to [execute] in consecutive batches of
    between one and [batchSize || maxConcurrency] tasks, each batch when
    all earlier ones have resolved.  When no batch rejects, the call
    resolves and the batches hold, taken together, exactly the tasks it
    was given.  When a batch rejects, the call throws: that batch is the
    last one handed over, and the tasks after it are never started. *)
Theorem executeBatched_stops_at_first_rejection s tasks batchSize ok :
  (1 ≤ or_default_nat batchSize (maxConcurrency (config s)))%nat →
  ∃ bs r, executeBatched s tasks batchSize ok = Some (bs, r) ∧
    concat bs `prefix_of` sortedTasks tasks ∧
    sortedTasks tasks ≡ₚ tasks ∧
    StronglySorted (λ a b, priority_of b ≤ priority_of a) (sortedTasks tasks) ∧
    Forall (λ b, (1 ≤ length b ≤ or_default_nat batchSize (maxConcurrency (config s)))%nat) bs ∧
    (∀ i, (S i < length bs)%nat → ok i = true) ∧
    (r = true → concat bs ≡ₚ tasks ∧ ∀ i, (i < length bs)%nat → ok i = true) ∧
    (r = false → ∃ bs' b, bs = bs' ++ [b] ∧ ok (length bs') = false).
Proof.
  intros Hsize. unfold executeBatched.
  destruct (batches_from_spec (length tasks) _ ok 0 (sortedTasks tasks) Hsize)
    as (bs & r & Hrun & Hpre & Hall & Hoks & Hyes & Hno).
  { unfold sortedTasks. by rewrite length_js_sort. }
  exists bs, r. split_and!; [done|done| | |done|done| |done].
  - apply js_sort_Permutation.
  - eapply StronglySorted_weaken;
      [|apply js_sort_sorted; [apply by_priority_desc_total|apply by_priority_desc_trans]].
    intros a b. unfold by_priority_desc. by rewrite Z.leb_le.
  - intros Hr. destruct (Hyes Hr) as [Hcat Hallok]. split; [|done].
    rewrite Hcat. apply js_sort_Permutation.
Qed.

Lemma executeBatched_stops_at_first_rejection_witness :
  executeBatched (new (Some 4%nat) None None None) six_tasks None (λ _, false)
  = Some ([take 4 six_tasks], false).
Proof.
  destruct (executeBatched_stops_at_first_rejection (new (Some 4%nat) None None None)
              six_tasks None (λ _, false)) as (bs & r & Hrun & _).
  - simpl. lia.
  - rewrite Hrun. vm_compute in Hrun. injection Hrun as <- <-. reflexivity.
Defined.

(** *** The semaphore of [executeWithLimit] *)

Lemma length_remove_first w (l : list nat) :
  w ∈ l → S (length (remove_first w l)) = length l.
Proof.
  intros Hin. unfold remove_first.
  destruct (list_find (λ x, x = w) l) as [[i x]|] eqn:Hfind.
  - apply list_find_Some in Hfind as (Hi & _ & _).
    pose proof (lookup_lt_Some _ _ _ Hi). rewrite length_delete by eauto. lia.
  - apply list_find_None in Hfind. rewrite Forall_forall in Hfind.
    by destruct (Hfind w Hin).
Qed.

Lemma limiter_inv_step limit st ev :
  limiter_inv limit st → limiter_inv limit (limiter_step st ev).
Proof.
  intros (Hpos & Hsum & Hwait). destruct ev as [w|w]; simpl.
  - unfold acquire. case_bool_decide as Hfree; simpl; unfold limiter_inv; simpl.
    + split_and!; [lia|rewrite length_app; simpl; lia|].
      intros Hw. specialize (Hwait Hw). lia.
    + split_and!; [done|done|]. intros _. lia.
  - case_decide as Hin; [|done]. pose proof (length_remove_first w _ Hin) as Hlen.
    unfold release. destruct (waiting (sem st)) as [|next rest] eqn:Hq;
      simpl; unfold limiter_inv; simpl.
    + rewrite app_nil_r. split_and!; [lia|lia|done].
    + rewrite length_app. simpl. split_and!; [done|lia|].
      intros _. by apply Hwait.
Qed.

(** With [limit >= 0] permits, at most [limit] tasks hold a permit at
    any moment, no permit is lost ([permits + holders = limit]), and a
    task waits only while all permits are held. *)
Theorem limiter_bounds_holders limit evs :
  0 ≤ limit →
  let st := limiter_run limit evs in
  Z.of_nat (length (holders st)) ≤ limit ∧
  permits (sem st) + Z.of_nat (length (holders st)) = limit ∧
  (waiting (sem st) ≠ [] → Z.of_nat (length (holders st)) = limit).
Proof.
  intros Hlimit st.
  assert (limiter_inv limit st) as (Hpos & Hsum & Hwait).
  { subst st. unfold limiter_run.
    assert (limiter_inv limit {| sem := {| permits := limit; waiting := [] |};
                                 holders := [] |}) as Hinit.
    { unfold limiter_inv. simpl. split_and!; [done|lia|done]. }
    revert Hinit. generalize {| sem := {| permits := limit; waiting := [] |};
                                holders := [] |}.
    induction evs as [|ev evs IH]; intros st0 Hinv; simpl; [done|].
    apply IH. by apply limiter_inv_step. }
  split_and!; [lia|done|]. intros Hw. specialize (Hwait Hw). lia.
Qed.

Lemma limiter_bounds_holders_witness :
  holders (limiter_run 2 [Arrive 0; Arrive 1; Arrive 2; Finish 0]) = [1; 2]%nat ∧
  Z.of_nat (length (holders (limiter_run 2 [Arrive 0; Arrive 1; Arrive 2; Finish 0]))) ≤ 2.
Proof.
  destruct (limiter_bounds_holders 2 [Arrive 0; Arrive 1; Arrive 2; Finish 0])
    as (Hle & _); [lia|].
  split; [reflexivity|exact Hle].
Defined.

(** With [limit <= 0] no task ever gets a permit: every task waits in
    [acquire] and [executeWithLimit] never resolves. *)
Theorem limiter_without_permits_starts_nothing limit evs :
  limit ≤ 0 →
  holders (limiter_run limit evs) = [] ∧
  permits (sem (limiter_run limit evs)) = limit.
Proof.
  intros Hlimit. unfold limiter_run.
  assert (∀ st, holders st = [] → permits (sem st) = limit →
            holders (foldl limiter_step st evs) = [] ∧
            permits (sem (foldl limiter_step st evs)) = limit) as Hgen.
  { induction evs as [|ev evs IH]; intros st Hh Hp; simpl; [done|].
    apply IH; destruct ev as [w|w]; simpl.
    - unfold acquire. rewrite bool_decide_eq_false_2 by lia. done.
    - rewrite decide_False; [done|]. rewrite Hh. by intros ?%elem_of_nil.
    - unfold acquire. rewrite bool_decide_eq_false_2 by lia. done.
    - rewrite decide_False; [done|]. rewrite Hh. by intros ?%elem_of_nil. }
  by apply Hgen.
Qed.

Lemma limiter_without_permits_starts_nothing_witness :
  holders (limiter_run 0 [Arrive 0; Arrive 1]) = [] ∧
  waiting (sem (limiter_run 0 [Arrive 0; Arrive 1])) = [0; 1]%nat.
Proof.
  destruct (limiter_without_permits_starts_nothing 0 [Arrive 0; Arrive 1]) as [Hh _];
    [lia|].
  split; [exact Hh|reflexivity].
Defined.

End ProcessorExtra.

(** ** CopilotSearchAgent: queries, reranking, streaming *)

Module CopilotExtra.
Import Copilot.

(** *** Query generation *)

Lemma trim_start_suffix s : trim_start s `suffix_of` s.
Proof.
  induction s as [|c s IH]; simpl; [done|].
  destruct (is_space c); [by apply suffix_cons_r|done].
Qed.

Lemma trim_start_head s c : head (trim_start s) = Some c → is_space c = false.
Proof.
  induction s as [|x s IH]; simpl; [done|].
  destruct (is_space x) eqn:Hx; [done|]. simpl. by intros [= <-].
Qed.

Lemma trim_ends s c :
  head (trim s) = Some c ∨ last (trim s) = Some c → is_space c = false.
Proof.
  unfold trim. rewrite head_reverse, last_reverse. intros [Hlast|Hhead].
  - destruct (trim_start_suffix (reverse (trim_start s))) as [k Hk].
    apply (trim_start_head s). rewrite <- last_reverse, Hk, last_app.
    by rewrite Hlast.
  - by apply trim_start_head in Hhead.
Qed.

Lemma elem_of_trim c s : c ∈ trim s → c ∈ s.
Proof.
  unfold trim. rewrite elem_of_reverse. intros Hin.
  eapply elem_of_suffix in Hin; [|apply trim_start_suffix].
  rewrite elem_of_reverse in Hin. eapply elem_of_suffix; [done|apply trim_start_suffix].
Qed.

Lemma split_lines_no_newline s line : line ∈ split_lines s → 10%N ∉ line.
Proof.
  revert line. induction s as [|c s IH]; intros line; simpl.
  - intros ->%list_elem_of_singleton. apply not_elem_of_nil.
  - destruct (c =? 10)%N eqn:Hc.
    + intros [->|Hin]%elem_of_cons; [apply not_elem_of_nil|by apply IH].
    + apply N.eqb_neq in Hc. destruct (split_lines s) as [|l ls] eqn:Hs.
      * intros ->%list_elem_of_singleton.
        intros [?|?%elem_of_nil]%elem_of_cons; [congruence|done].
      * intros [->|Hin]%elem_of_cons.
        -- intros [?|Hl]%elem_of_cons; [congruence|].
           apply (IH l); [by left|done].
        -- apply IH. by right.
Qed.

(** When the answer of the model has a [<queries>] block, every query
    that [generateMultipleQueries] returns is not empty, holds no line
    feed (the code unit 10 at which the block is split; a carriage
    return or another line terminator inside a line stays), and neither
    starts nor ends with white space. *)
Theorem generated_queries_are_clean response query n q :
  is_Some (match_queries response) →
  q ∈ generateMultipleQueries response query n →
  q ≠ [] ∧ 10%N ∉ q ∧
  ∀ c, head q = Some c ∨ last q = Some c → is_space c = false.
Proof.
  intros [group Hmatch]. unfold generateMultipleQueries. rewrite Hmatch.
  intros Hin. eapply elem_of_sublist in Hin; [|apply sublist_take].
  apply list_elem_of_filter in Hin as [Hlen Hin].
  apply list_elem_of_In, in_map_iff in Hin as (line & <- & Hline).
  apply list_elem_of_In in Hline. split_and!.
  - intros Hq. rewrite Hq in Hlen. simpl in Hlen. lia.
  - intros H10%elem_of_trim. by apply (split_lines_no_newline _ _ Hline).
  - apply trim_ends.
Qed.

Lemma generated_queries_are_clean_witness :
  js "rust ownership" ≠ [] ∧ 10%N ∉ js "rust ownership".
Proof.
  destruct (generated_queries_are_clean example_response (js "rust") 3
              (js "rust ownership")) as (Hne & Hline & _).
  - eexists. reflexivity.
  - vm_compute. constructor.
  - split; [exact Hne|exact Hline].
Defined.

(** *** Reranking *)

Lemma snd_zip_sublist {A B} (l : list A) (k : list B) : (zip l k).*2 `sublist_of` k.
Proof.
  revert k. induction l as [|a l IH]; intros [|b k]; simpl;
    [constructor|apply sublist_nil_l|constructor|].
  apply sublist_skip, IH.
Qed.

Lemma NoDup_of_submseteq {A} (l k : list A) : l ⊆+ k → NoDup k → NoDup l.
Proof.
  intros (l' & Hsub & Hperm)%submseteq_sublist_l Hk.
  apply (sublist_NoDup l l'); [by rewrite Hperm|done].
Qed.

Lemma rerankAndDeduplicate_from_unique cfg docs similarities :
  rerankAndDeduplicate cfg docs similarities ⊆+ uniqueDocs docs.
Proof.
  unfold rerankAndDeduplicate. destruct docs as [|d docs]; [apply submseteq_nil_l|].
  destruct similarities as [sims|]; [|apply submseteq_take].
  unfold ranked. etrans; [apply fmap_submseteq, submseteq_take|].
  rewrite js_sort_Permutation.
  etrans; [apply fmap_submseteq, sublist_submseteq, sublist_filter; apply _|].
  apply sublist_submseteq, snd_zip_sublist.
Qed.

(** Whatever the embeddings give (and also when they fail), the
    result of [rerankAndDeduplicate] never holds two documents with the
    same URL, and holds only documents it was given. *)
Theorem rerankAndDeduplicate_distinct_urls cfg docs similarities :
  NoDup (url <$> rerankAndDeduplicate cfg docs similarities) ∧
  ∀ d, d ∈ rerankAndDeduplicate cfg docs similarities → d ∈ docs.
Proof.
  pose proof (rerankAndDeduplicate_from_unique cfg docs similarities) as Hsub.
  split.
  - eapply NoDup_of_submseteq; [by apply fmap_submseteq|].
    rewrite CopilotFacts.uniqueDocs_first_by_url. apply CopilotFacts.first_by_url_NoDup.
  - intros d Hd. eapply elem_of_submseteq in Hd; [|done].
    rewrite CopilotFacts.uniqueDocs_first_by_url in Hd.
    eapply elem_of_sublist; [done|apply CopilotFacts.first_by_url_sublist].
Qed.

(** *** The stream of events *)

Lemma string_append_assoc (a b c : string) : (a +:+ b) +:+ c = a +:+ (b +:+ c).
Proof.
  induction a as [|x a IH]; [done|].
  change (String x ((a +:+ b) +:+ c) = String x (a +:+ (b +:+ c))). by rewrite IH.
Qed.

Lemma string_append_empty_r (a : string) : a +:+ EmptyString = a.
Proof.
  induction a as [|x a IH]; [done|].
  change (String x (a +:+ EmptyString) = String x a). by rewrite IH.
Qed.

Lemma response_text_app out out' :
  response_text (out ++ out') = response_text out +:+ response_text out'.
Proof.
  induction out as [|e out IH]; simpl; [done|].
  destruct e as [type data| |e]; [|done|done].
  destruct (String.eqb type "response"); [|done].
  fold (response_text (out ++ out')). fold (response_text out).
  by rewrite IH, string_append_assoc.
Qed.

Lemma handle_event_spec r ev :
  (handle_event r ev).1 = r +:+ response_text (handle_event r ev).2 ∧
  Forall (λ e, terminal e = false) (handle_event r ev).2.
Proof.
  unfold handle_event. destruct (is_chunk ev).
  { simpl. rewrite string_append_empty_r. by repeat constructor. }
  repeat (match goal with |- context [if ?b then _ else _] => destruct b end);
    simpl; rewrite string_append_empty_r; by repeat constructor.
Qed.

Lemma consume_spec r evs :
  (consume r evs).1 = r +:+ response_text (consume r evs).2 ∧
  Forall (λ e, terminal e = false) (consume r evs).2.
Proof.
  revert r. induction evs as [|ev evs IH]; intros r; simpl.
  - by rewrite string_append_empty_r.
  - destruct (handle_event_spec r ev) as [Hr Hout].
    destruct (handle_event r ev) as [r1 out1]. specialize (IH r1).
    destruct (consume r1 evs) as [r' out']. simpl in *. destruct IH as [Hr' Hout'].
    split; [|by apply Forall_app].
    by rewrite Hr', Hr, response_text_app, string_append_assoc.
Qed.

(** Whenever [handleStream] ends, what it has emitted is a sequence of
    [data] messages followed by exactly one closing event, ['error']
    if the stream failed and ['end'] otherwise; and the [response]
    messages, appended in order, are the answer accumulated up to that
    point (so a client has received the partial answer before an
    error). *)
Theorem handleStream_protocol (generateKey : string → string → string → string)
    c now st query mode out :
  fst <$> handleStream generateKey c now st query mode = Some out →
  ∃ body,
    out = body ++ [match failure st with Some e => Error e | None => End end] ∧
    Forall (λ e, terminal e = false) body ∧
    response_text body = answer_of st.
Proof.
  unfold handleStream, answer_of.
  destruct (consume_spec EmptyString (events st)) as [Hr Hbody].
  destruct (consume EmptyString (events st)) as [fullResponse body].
  simpl in *. intros Hrun. exists body.
  assert (out = body ++ [match failure st with Some e => Error e | None => End end])
    as ->; [|by split_and!].
  destruct (failure st) as [e|]; [by injection Hrun as <-|].
  case_bool_decide; [|by injection Hrun as <-].
  destruct (SearchCache.set _ _ _ _ _); simpl in Hrun; [by injection Hrun as <-|done].
Qed.

Lemma handleStream_protocol_witness :
  ∃ body, [Data "response" "Plants "; Error "socket hang up"]
          = body ++ [Error "socket hang up"] ∧ response_text body = "Plants ".
Proof.
  destruct (handleStream_protocol example_key searchResultCache 4000 failing_stream
              example_question balanced
              [Data "response" "Plants "; Error "socket hang up"])
    as (body & Hout & _ & Htext).
  - reflexivity.
  - exists body. split; [exact Hout|exact Htext].
Defined.

(** *** What is not cached *)

Lemma handleStream_without_answer (generateKey : string → string → string → string)
    c now st query mode :
  failure st ≠ None ∨ answer_of st = EmptyString →
  ∃ out, handleStream generateKey c now st query mode = Some (out, c).
Proof.
  unfold handleStream, answer_of.
  destruct (consume EmptyString (events st)) as [fullResponse body]. simpl.
  intros [Hfail| ->].
  - destruct (failure st); [by eexists|done].
  - destruct (failure st); [by eexists|].
    rewrite bool_decide_eq_false_2 by (by intros ?). by eexists.
Qed.

Lemma get_again_without_answer (c : SearchCache.t string) now key now' :
  (SearchCache.get c now key).1 = None ∨
  (SearchCache.get c now key).1 = Some EmptyString →
  (SearchCache.get (SearchCache.get c now key).2 now' key).1 = None ∨
  (SearchCache.get (SearchCache.get c now key).2 now' key).1 = Some EmptyString.
Proof.
  unfold SearchCache.get at 1 2 4 6.
  destruct (SearchCache.cache c !! key) as [e|] eqn:He; simpl.
  - destruct (SearchCache.isExpired now e); simpl.
    + intros _. left. unfold SearchCache.get. simpl. by rewrite lookup_delete_eq.
    + intros [?|[= Hdata]]; [done|]. unfold SearchCache.get. simpl.
      rewrite lookup_insert_eq. simpl.
      destruct (SearchCache.isExpired now' _); simpl; [by left|by right; rewrite Hdata].
  - intros _. left. unfold SearchCache.get. by rewrite He.
Qed.

Lemma searchAndAnswer_without_answer (generateKey : string → string → string → string)
    c now message mode st done r :
  (SearchCache.get c now (generateKey message "copilot" (mode_name mode))).1 = None ∨
  (SearchCache.get c now (generateKey message "copilot" (mode_name mode))).1
    = Some EmptyString →
  searchAndAnswer generateKey c now message mode st done = Some r →
  chain_runs r = 1%nat.
Proof.
  unfold searchAndAnswer.
  destruct (SearchCache.get c now _) as [cached c1]. simpl.
  intros [->| ->].
  - destruct (handleStream _ _ _ _ _ _) as [[out c2]|]; simpl; [|done].
    by intros [= <-].
  - rewrite bool_decide_eq_false_2 by (by intros ?).
    destruct (handleStream _ _ _ _ _ _) as [[out c2]|]; simpl; [|done].
    by intros [= <-].
Qed.

(** A run of the pipeline that fails, or that ends with an empty
    answer, stores nothing: the cache is left as the lookup at the start
    of the run left it, and every later call for the same message and
    mode runs the pipeline again instead of being served from the
    cache. *)
Theorem failed_run_is_not_cached (generateKey : string → string → string → string)
    c now done message mode st r :
  searchAndAnswer generateKey c now message mode st done = Some r →
  chain_runs r = 1%nat →
  failure st ≠ None ∨ answer_of st = EmptyString →
  cache_after r
    = (SearchCache.get c now (generateKey message "copilot" (mode_name mode))).2 ∧
  ∀ now' st' done' r',
    searchAndAnswer generateKey (cache_after r) now' message mode st' done' = Some r' →
    chain_runs r' = 1%nat.
Proof.
  intros Hrun Hchain Hbad.
  pose proof (get_again_without_answer c now
                (generateKey message "copilot" (mode_name mode))) as Hagain.
  unfold searchAndAnswer in Hrun.
  destruct (SearchCache.get c now _) as [cached c1]. simpl in *.
  destruct (handleStream_without_answer generateKey c1 done st message mode Hbad)
    as [out Hout].
  rewrite Hout in Hrun. simpl in Hrun.
  assert (cache_after r = c1 ∧ (cached = None ∨ cached = Some EmptyString))
    as [Hc Hcached].
  { destruct cached as [cached|]; [|injection Hrun as <-; split; [done|by left]].
    case_bool_decide as Hne.
    - injection Hrun as <-. done.
    - injection Hrun as <-. split; [done|]. right. f_equal.
      by destruct (decide (cached = EmptyString)). }
  split; [done|]. intros now' st' done' r'. rewrite Hc.
  apply searchAndAnswer_without_answer, Hagain, Hcached.
Qed.

Lemma failed_run_is_not_cached_witness :
  cache_after failed_run
  = (SearchCache.get searchResultCache 0
       (example_key example_question "copilot" (mode_name balanced))).2.
Proof.
  destruct (failed_run_is_not_cached example_key searchResultCache 0 4000
              example_question balanced failing_stream failed_run) as [Hcache _].
  - reflexivity.
  - reflexivity.
  - left. discriminate.
  - exact Hcache.
Defined.

End CopilotExtra.

(** ** Two requests on the shared processor *)

Module SharedProcessorExtra.
Import Processor.

Lemma inv_execute s tasks : inv s → inv (execute s tasks).2.
Proof.
  revert s. induction tasks as [|tk tasks IH]; intros s Hinv; simpl; [done|].
  pose proof (ProcessorFacts.inv_executeTask s tk Hinv) as Hinv1.
  destruct (executeTask s tk) as [j s1]. specialize (IH s1 Hinv1).
  by destruct (execute s1 tasks) as [js s2].
Qed.

Lemma execute_hits s tasks js :
  Forall2 (λ tk j, activeJobs s !! id tk = Some j) tasks js →
  execute s tasks = (js, s).
Proof.
  induction 1 as [|tk j tasks js Hj _ IH]; simpl; [done|].
  by rewrite (ProcessorFacts.executeTask_hit _ _ _ Hj), IH.
Qed.

(** [execute] on tasks with distinct ids, none of them registered:
    job [length jobs + i] is created for task [i] and registered under
    its id. *)
Lemma execute_fresh s tasks :
  NoDup (id <$> tasks) →
  (∀ tk, tk ∈ tasks → activeJobs s !! id tk = None) →
  (execute s tasks).1 = seq (length (jobs s)) (length tasks) ∧
  (∀ i tk, tasks !! i = Some tk →
     ∃ jb, jobs (execute s tasks).2 !! (length (jobs s) + i)%nat = Some jb ∧
           job_task jb = tk) ∧
  (∀ j jb, jobs s !! j = Some jb → jobs (execute s tasks).2 !! j = Some jb).
Proof.
  revert s. induction tasks as [|tk tasks IH]; intros s Hnd Hfree; simpl.
  { split_and!; [done| |done]. intros i tk. by rewrite lookup_nil. }
  rewrite fmap_cons in Hnd. apply NoDup_cons in Hnd as [Hnew Hnd].
  destruct (ProcessorFacts.executeTask_miss s tk) as (jb & cs & Hrun & Htask & _).
  { apply Hfree. by left. }
  rewrite Hrun.
  set (s1 := {| config := config s; activeJobs := _; jobs := _; calls := _ |}).
  destruct (IH s1) as (Hjs & Hnewjobs & Hold); [done| |].
  { intros tk' Hin. simpl. rewrite lookup_insert_ne; [apply Hfree; by right|].
    intros Heq. apply Hnew. rewrite Heq. apply list_elem_of_fmap. by exists tk'. }
  destruct (execute s1 tasks) as [js s2]. simpl in *.
  rewrite length_app in *. simpl in *.
  replace (length (jobs s) + 1)%nat with (S (length (jobs s))) in * by lia.
  split_and!.
  - by rewrite Hjs.
  - intros [|i] tk' Hi; simpl in Hi.
    + injection Hi as <-. exists jb. split; [|done].
      apply Hold. rewrite Nat.add_0_r. by apply list_lookup_middle.
    + destruct (Hnewjobs i tk' Hi) as (jb' & Hjb' & Htk'). exists jb'.
      split; [|done]. by replace (length (jobs s) + S i)%nat
                         with (S (length (jobs s)) + i)%nat by lia.
  - intros j jb' Hj. apply Hold. by apply lookup_app_l_Some.
Qed.

Lemma NoDup_searchTasks fns : NoDup (id <$> Copilot.searchTasks fns).
Proof.
  apply NoDup_alt. intros i j k. unfold Copilot.searchTasks.
  rewrite !list_lookup_fmap, !list_lookup_imap.
  destruct (fns !! i); [|done]. destruct (fns !! j); [|done]. simpl.
  intros [= <-] Heq%(inj Some). apply (inj (String.append "search-")) in Heq.
  by apply (inj pretty) in Heq.
Qed.

Lemma length_searchTasks fns : length (Copilot.searchTasks fns) = length fns.
Proof. apply length_imap. Qed.

Lemma id_searchTasks fns i tk :
  Copilot.searchTasks fns !! i = Some tk →
  id tk = "search-" +:+ pretty i ∧ fns !! i = Some (task tk).
Proof.
  unfold Copilot.searchTasks. rewrite list_lookup_imap.
  destruct (fns !! i); [|done]. simpl. by intros [= <-].
Qed.

(** Two requests that use the shared processor at the same time:
    while the search jobs of the first request ([fnsA], one function
    for each of its queries) have not ended, the search tasks of a second
    request ([fnsB], with no more queries) are attached to the jobs of
    the first one, index by index, because both requests name their
    tasks [search-0], [search-1], ...  None of the functions of the
    second request is called (the state is unchanged), and the jobs it
    waits for run the functions of the first request. *)
Theorem concurrent_requests_share_search_jobs s fnsA fnsB evs :
  inv s →
  (∀ i : nat, activeJobs s !! ("search-" +:+ pretty i) = None) →
  (length fnsB ≤ length fnsA)%nat →
  Forall not_clear evs →
  let jsA := (execute s (Copilot.searchTasks fnsA)).1 in
  let sA := run (execute s (Copilot.searchTasks fnsA)).2 evs in
  (∀ j, j ∈ jsA → executing sA j) →
  execute sA (Copilot.searchTasks fnsB) = (take (length fnsB) jsA, sA) ∧
  ∀ i j, jsA !! i = Some j →
    ∃ jb, jobs sA !! j = Some jb ∧ fnsA !! i = Some (task (job_task jb)).
Proof.
  intros Hinv Hfree Hlen Hevs jsA sA Hexec.
  destruct (execute_fresh s (Copilot.searchTasks fnsA)) as (Hjs & Hjobs & _).
  { apply NoDup_searchTasks. }
  { intros tk (i & Hi)%list_elem_of_lookup.
    apply id_searchTasks in Hi as [-> _]. apply Hfree. }
  fold jsA in Hjs. rewrite length_searchTasks in Hjs.
  assert (inv sA) as HinvA.
  { apply ProcessorFacts.inv_run; [by apply inv_execute|done]. }
  assert (∀ i j, jsA !! i = Some j →
            ∃ jb tk, jobs sA !! j = Some jb ∧ job_task jb = tk ∧
                     Copilot.searchTasks fnsA !! i = Some tk) as Hjob.
  { intros i j Hi. rewrite Hjs in Hi. apply lookup_seq in Hi as [-> Hi].
    destruct (lookup_lt_is_Some_2 (Copilot.searchTasks fnsA) i) as [tk Htk].
    { by rewrite length_searchTasks. }
    destruct (Hjobs i tk Htk) as (jb & Hjb & Htask).
    destruct (ProcessorFacts.run_keeps_task _ evs _ _ Hjb) as (jb' & Hjb' & Htask').
    exists jb', tk. split_and!; [done|congruence|done]. }
  split.
  - apply execute_hits. apply Forall2_same_length_lookup. split.
    { rewrite length_take, length_searchTasks, Hjs, length_seq. lia. }
    intros i tk j Htk Hj. apply lookup_take_Some in Hj as [Hj Hi].
    destruct (Hjob i j Hj) as (jb & tkA & Hjb & Htask & HtkA).
    destruct (ProcessorFacts.executing_registered sA j HinvA) as (jb' & Hjb' & Hreg).
    { apply Hexec. by eapply list_elem_of_lookup_2. }
    assert (jb' = jb) as -> by congruence.
    apply id_searchTasks in Htk as [-> _]. apply id_searchTasks in HtkA as [HidA _].
    by rewrite <- HidA, <- Htask.
  - intros i j Hi. destruct (Hjob i j Hi) as (jb & tk & Hjb & Htask & Htk).
    exists jb. split; [done|]. apply id_searchTasks in Htk as [_ Hfn]. by rewrite Htask.
Qed.

Lemma concurrent_requests_share_search_jobs_witness :
  execute (execute globalProcessor (Copilot.searchTasks [0; 1; 2]%nat)).2
    (Copilot.searchTasks [10; 11]%nat)
  = ([0; 1]%nat, (execute globalProcessor (Copilot.searchTasks [0; 1; 2]%nat)).2).
Proof.
  destruct (concurrent_requests_share_search_jobs globalProcessor [0; 1; 2]%nat
              [10; 11]%nat []) as [Hshare _].
  - apply ProcessorFacts.inv_new.
  - intros i. reflexivity.
  - simpl. lia.
  - constructor.
  - intros j Hj. vm_compute in Hj.
    repeat (apply elem_of_cons in Hj as [->|Hj]);
      [| | |by apply elem_of_nil in Hj];
      (eexists; split; [reflexivity|intros o; discriminate]).
  - exact Hshare.
Defined.

End SharedProcessorExtra.
